(** * BusTub storage core: LRU-K replacer, buffer pool manager, page guards
      and the persistent trie, embedded from the C++ sources.

    - [src/buffer/lru_k_replacer.cpp]      -> [LRUKReplacer]
    - [src/buffer/buffer_pool_manager.cpp] -> [BufferPoolManager]
    - [src/storage/page/page_guard.cpp]    -> [BasicPageGuard], [ReadPageGuard],
                                              [WritePageGuard]
    - [src/primer/trie.cpp]                -> [Trie]

    Integers of the source are [Z] with their wrap-around written out;
    [std::unordered_map] and [std::map] are [gmap]; the frame array and the
    trie node store are lists indexed with stdpp's lookup. Code that can
    throw, or whose behaviour is undefined in C++, returns an [outcome]. *)

From Stdlib Require Import ZArith Lia Ascii.
From Stdlib.Init Require Import Byte.
From stdpp Require Import gmap strings list fin_maps.

Local Open Scope Z_scope.

(** ** Outcomes of a call: a value, a thrown exception, or undefined behaviour *)

Inductive fault :=
  | Exception (what : string)   (* throw Exception(what) *)
  | NullDereference             (* p->m with p == nullptr *)
  | OutOfBounds                 (* pages_[i] outside the frame array, *begin() of an empty list *)
  | WouldBlock.                 (* a latch that cannot be taken in a sequential run *)

Inductive outcome (A : Type) :=
  | Ok (a : A)
  | Fail (f : fault).
Arguments Ok {A} a.
Arguments Fail {A} f.

#[export] Instance outcome_ret : MRet outcome := @Ok.
#[export] Instance outcome_bind : MBind outcome := λ A B k m,
  match m with
  | Ok a => k a
  | Fail f => Fail f
  end.

Definition succeeds {A} (m : outcome A) : Prop := ∃ a, m = Ok a.

(** ** Machine integers *)

Definition SIZE_MAX_plus_1 : Z := 2 ^ 64.

(** [size_t] arithmetic wraps modulo 2^64. *)
Definition size_t_wrap (z : Z) : Z := z mod SIZE_MAX_plus_1.

(** [static_cast<int32_t>(z)]: two's complement truncation. *)
Definition to_int32 (z : Z) : Z := (z + 2 ^ 31) mod 2 ^ 32 - 2 ^ 31.

Definition INVALID_PAGE_ID : Z := -1.
Definition INVALID_FRAME_ID : Z := -1.

(** ** LRU-K replacer ([lru_k_replacer.cpp]) *)

Module LRUKNode.
(** Modelled from the spec: the class [LRUKNode] is declared in
    [lru_k_replacer.h], which is not among the sources. Its fields are the
    ones the code reads and writes; a default-constructed node has an empty
    history, [k_ = 0] and [is_evictable_ = false]. *)
Record t := mk {
  history_ : list Z;      (* std::list<size_t>, oldest first *)
  k_ : Z;                 (* size_t *)
  fid_ : Z;               (* frame_id_t *)
  is_evictable_ : bool
}.

Definition default : t :=
  {| history_ := []; k_ := 0; fid_ := 0; is_evictable_ := false |}.

(** [*history_.begin()] *)
Definition front (n : t) : outcome Z :=
  match history_ n with
  | ts :: _ => Ok ts
  | [] => Fail OutOfBounds
  end.
End LRUKNode.

Module LRUKReplacer.
Import LRUKNode.

Record t := mk {
  node_store_ : gmap Z LRUKNode.t;   (* std::unordered_map<frame_id_t, LRUKNode> *)
  current_timestamp_ : Z;            (* size_t *)
  curr_size_ : Z;                    (* size_t *)
  replacer_size_ : Z;                (* size_t *)
  k_ : Z                             (* size_t *)
}.

(** [LRUKReplacer::LRUKReplacer(num_frames, k)] *)
Definition new (num_frames k : Z) : t :=
  {| node_store_ := ∅; current_timestamp_ := 0; curr_size_ := 0;
     replacer_size_ := num_frames; k_ := k |}.

(** The locals of [Evict]: [found], [diff], [earliest_timestamp] and the
    out-parameter [*frame_id]. *)
Record scan := mk_scan {
  found : bool;
  diff : Z;
  earliest_timestamp : Z;
  frame_id : Z
}.

(** One iteration of the loop of [Evict] over an entry of [node_store_]. *)
Definition Evict_visit (r : t) (st : scan) (it : Z * LRUKNode.t) : outcome scan :=
  let '(first, second) := it in
  if is_evictable_ second then
    if found st then
      if bool_decide (diff st = 0) then
        if bool_decide (LRUKNode.k_ second < k_ r) then
          ts ← front second;
          if bool_decide (earliest_timestamp st > ts) then
            Ok {| found := true; diff := 0; earliest_timestamp := ts; frame_id := first |}
          else Ok st
        else Ok st
      else
        if bool_decide (LRUKNode.k_ second < k_ r) then
          ts ← front second;
          Ok {| found := true; diff := 0; earliest_timestamp := ts; frame_id := first |}
        else
          ts ← front second;
          let cur_diff := size_t_wrap (current_timestamp_ r - ts) in
          if bool_decide (cur_diff > diff st) then
            Ok {| found := true; diff := cur_diff; earliest_timestamp := ts; frame_id := first |}
          else Ok st
    else
      ts ← front second;
      Ok {| found := true;
            diff := if bool_decide (LRUKNode.k_ second = k_ r)
                    then size_t_wrap (current_timestamp_ r - ts) else diff st;
            earliest_timestamp := ts;
            frame_id := first |}
  else Ok st.

(** The [for] loop of [Evict], over the entries in iteration order. *)
Fixpoint Evict_loop (r : t) (st : scan) (its : list (Z * LRUKNode.t)) : outcome scan :=
  match its with
  | [] => Ok st
  | it :: its' => st' ← Evict_visit r st it; Evict_loop r st' its'
  end.

(** [Evict(&frame_id)], with the iteration order of the unordered map made
    a parameter: [order] lists the entries of [node_store_]. The result is
    the returned flag, the final [*frame_id] and the replacer. *)
Definition Evict_in (order : list (Z * LRUKNode.t)) (frame_id0 : Z) (r : t)
  : outcome (bool * Z * t) :=
  if bool_decide (curr_size_ r = 0) then Ok (false, frame_id0, r)
  else
    st ← Evict_loop r {| found := false; diff := 0; earliest_timestamp := 0;
                         frame_id := frame_id0 |} order;
    if found st then
      Ok (true, frame_id st,
          {| node_store_ := delete (frame_id st) (node_store_ r);
             current_timestamp_ := current_timestamp_ r;
             curr_size_ := size_t_wrap (curr_size_ r - 1);
             replacer_size_ := replacer_size_ r;
             k_ := k_ r |})
    else Ok (false, frame_id st, r).

Definition Evict (frame_id0 : Z) (r : t) : outcome (bool * Z * t) :=
  Evict_in (map_to_list (node_store_ r)) frame_id0 r.

(** [RecordAccess(frame_id)] *)
Definition RecordAccess (frame_id : Z) (r : t) : outcome t :=
  if bool_decide (frame_id > to_int32 (replacer_size_ r)) then
    Fail (Exception "RecordAccess: frame_id is bigger than replacer_size_")
  else
    store ←
      match node_store_ r !! frame_id with
      | None =>
          Ok (<[frame_id := {| history_ := history_ LRUKNode.default ++ [current_timestamp_ r];
                               LRUKNode.k_ := 1;
                               fid_ := frame_id;
                               is_evictable_ := is_evictable_ LRUKNode.default |}]>
                (node_store_ r))
      | Some second =>
          (* pop_front() and --k_ when the window is full *)
          '(h, k) ←
            (if bool_decide (LRUKNode.k_ second = k_ r) then
               match history_ second with
               | _ :: h => Ok (h, size_t_wrap (LRUKNode.k_ second - 1))
               | [] => Fail OutOfBounds
               end
             else Ok (history_ second, LRUKNode.k_ second));
          Ok (<[frame_id := {| history_ := h ++ [current_timestamp_ r];
                               LRUKNode.k_ := size_t_wrap (k + 1);
                               fid_ := fid_ second;
                               is_evictable_ := is_evictable_ second |}]>
                (node_store_ r))
      end;
    Ok {| node_store_ := store;
          current_timestamp_ := size_t_wrap (current_timestamp_ r + 1);
          curr_size_ := curr_size_ r;
          replacer_size_ := replacer_size_ r;
          k_ := k_ r |}.

(** [SetEvictable(frame_id, set_evictable)] *)
Definition SetEvictable (frame_id : Z) (set_evictable : bool) (r : t) : outcome t :=
  match node_store_ r !! frame_id with
  | None => Fail (Exception "SetEvictable: frame id is invalid")
  | Some second =>
      let size :=
        if is_evictable_ second && negb set_evictable then size_t_wrap (curr_size_ r - 1)
        else if negb (is_evictable_ second) && set_evictable then size_t_wrap (curr_size_ r + 1)
        else curr_size_ r in
      Ok {| node_store_ :=
              <[frame_id := {| history_ := history_ second;
                               LRUKNode.k_ := LRUKNode.k_ second;
                               fid_ := fid_ second;
                               is_evictable_ := set_evictable |}]> (node_store_ r);
            current_timestamp_ := current_timestamp_ r;
            curr_size_ := size;
            replacer_size_ := replacer_size_ r;
            k_ := k_ r |}
  end.

(** [Remove(frame_id)] *)
Definition Remove (frame_id : Z) (r : t) : outcome t :=
  match node_store_ r !! frame_id with
  | None => Ok r
  | Some second =>
      if negb (is_evictable_ second) then
        Fail (Exception "Remove: is called on a non-evictable frame")
      else
        Ok {| node_store_ := delete frame_id (node_store_ r);
              current_timestamp_ := current_timestamp_ r;
              curr_size_ := size_t_wrap (curr_size_ r - 1);
              replacer_size_ := replacer_size_ r;
              k_ := k_ r |}
  end.

(** [Size()] *)
Definition Size (r : t) : Z := curr_size_ r.
End LRUKReplacer.

(** ** Pages and the disk *)

Definition BUSTUB_PAGE_SIZE : nat := 4096.

Module ReaderWriterLatch.
(** Modelled from the spec: [ReaderWriterLatch] ([common/rwlatch.h]) is not
    among the sources; "any number of readers or one writer". In a
    sequential run a latch that is not available can never be taken. *)
Record t := mk { readers : nat; writer : bool }.

Definition free : t := {| readers := 0; writer := false |}.

Definition RLock (l : t) : outcome t :=
  if writer l then Fail WouldBlock
  else Ok {| readers := S (readers l); writer := false |}.

Definition WLock (l : t) : outcome t :=
  if writer l then Fail WouldBlock
  else if bool_decide (readers l = 0%nat) then Ok {| readers := 0; writer := true |}
  else Fail WouldBlock.

Definition RUnlock (l : t) : t := {| readers := pred (readers l); writer := writer l |}.
Definition WUnlock (l : t) : t := {| readers := readers l; writer := false |}.
End ReaderWriterLatch.

Module Page.
(** Modelled from the spec: the class [Page] ([storage/page/page.h]) is not
    among the sources. "Fixed-size byte buffer (conventionally 4096 B).
    Carries metadata: page identity, pin count, dirty flag, and a
    read-write latch"; [ResetMemory] zeroes the buffer. *)
Record t := mk {
  data_ : list byte;
  page_id_ : Z;
  pin_count_ : Z;
  is_dirty_ : bool;
  rwlatch_ : ReaderWriterLatch.t
}.

Definition zeroes : list byte := replicate BUSTUB_PAGE_SIZE x00.

Definition new : t :=
  {| data_ := zeroes; page_id_ := INVALID_PAGE_ID; pin_count_ := 0;
     is_dirty_ := false; rwlatch_ := ReaderWriterLatch.free |}.

Definition set_data (d : list byte) (p : t) : t :=
  {| data_ := d; page_id_ := page_id_ p; pin_count_ := pin_count_ p;
     is_dirty_ := is_dirty_ p; rwlatch_ := rwlatch_ p |}.
Definition set_page_id (i : Z) (p : t) : t :=
  {| data_ := data_ p; page_id_ := i; pin_count_ := pin_count_ p;
     is_dirty_ := is_dirty_ p; rwlatch_ := rwlatch_ p |}.
Definition set_pin_count (c : Z) (p : t) : t :=
  {| data_ := data_ p; page_id_ := page_id_ p; pin_count_ := c;
     is_dirty_ := is_dirty_ p; rwlatch_ := rwlatch_ p |}.
Definition set_is_dirty (b : bool) (p : t) : t :=
  {| data_ := data_ p; page_id_ := page_id_ p; pin_count_ := pin_count_ p;
     is_dirty_ := b; rwlatch_ := rwlatch_ p |}.
Definition set_rwlatch (l : ReaderWriterLatch.t) (p : t) : t :=
  {| data_ := data_ p; page_id_ := page_id_ p; pin_count_ := pin_count_ p;
     is_dirty_ := is_dirty_ p; rwlatch_ := l |}.

Definition ResetMemory (p : t) : t := set_data zeroes p.
Definition GetPageId (p : t) : Z := page_id_ p.
End Page.

Module Disk.
(** Modelled from the spec: [DiskScheduler] and [DiskManager] are external
    collaborators. A request that was scheduled and whose future was
    awaited has run: a write stores the buffer under the page id, a read
    yields the stored bytes (zeroes for a page never written). *)
Definition WritePage (page_id : Z) (buf : list byte) (d : gmap Z (list byte))
  : gmap Z (list byte) := <[page_id := buf]> d.
Definition ReadPage (page_id : Z) (d : gmap Z (list byte)) : list byte :=
  default Page.zeroes (d !! page_id).
End Disk.

(** ** Buffer pool manager ([buffer_pool_manager.cpp]) *)

Module BufferPoolManager.
Record t := mk {
  pool_size_ : Z;
  pages_ : list Page.t;              (* Page *pages_, pool_size_ frames *)
  page_table_ : gmap Z Z;            (* std::unordered_map<page_id_t, frame_id_t> *)
  free_list_ : list Z;               (* std::list<frame_id_t> *)
  replacer_ : LRUKReplacer.t;
  next_page_id_ : Z;                 (* std::atomic<page_id_t> *)
  disk_ : gmap Z (list byte)         (* what the disk scheduler has written *)
}.

Definition set_pages (ps : list Page.t) (b : t) : t :=
  {| pool_size_ := pool_size_ b; pages_ := ps; page_table_ := page_table_ b;
     free_list_ := free_list_ b; replacer_ := replacer_ b;
     next_page_id_ := next_page_id_ b; disk_ := disk_ b |}.
Definition set_page_table (pt : gmap Z Z) (b : t) : t :=
  {| pool_size_ := pool_size_ b; pages_ := pages_ b; page_table_ := pt;
     free_list_ := free_list_ b; replacer_ := replacer_ b;
     next_page_id_ := next_page_id_ b; disk_ := disk_ b |}.
Definition set_free_list (fl : list Z) (b : t) : t :=
  {| pool_size_ := pool_size_ b; pages_ := pages_ b; page_table_ := page_table_ b;
     free_list_ := fl; replacer_ := replacer_ b;
     next_page_id_ := next_page_id_ b; disk_ := disk_ b |}.
Definition set_replacer (r : LRUKReplacer.t) (b : t) : t :=
  {| pool_size_ := pool_size_ b; pages_ := pages_ b; page_table_ := page_table_ b;
     free_list_ := free_list_ b; replacer_ := r;
     next_page_id_ := next_page_id_ b; disk_ := disk_ b |}.
Definition set_next_page_id (n : Z) (b : t) : t :=
  {| pool_size_ := pool_size_ b; pages_ := pages_ b; page_table_ := page_table_ b;
     free_list_ := free_list_ b; replacer_ := replacer_ b;
     next_page_id_ := n; disk_ := disk_ b |}.
Definition set_disk (d : gmap Z (list byte)) (b : t) : t :=
  {| pool_size_ := pool_size_ b; pages_ := pages_ b; page_table_ := page_table_ b;
     free_list_ := free_list_ b; replacer_ := replacer_ b;
     next_page_id_ := next_page_id_ b; disk_ := d |}.

(** [BufferPoolManager::BufferPoolManager(pool_size, disk_manager, replacer_k)]:
    every frame starts in the free list. *)
Definition new (pool_size : Z) (disk : gmap Z (list byte)) (replacer_k : Z) : t :=
  {| pool_size_ := pool_size;
     pages_ := replicate (Z.to_nat pool_size) Page.new;
     page_table_ := ∅;
     free_list_ := Z.of_nat <$> seq 0 (Z.to_nat pool_size);
     replacer_ := LRUKReplacer.new pool_size replacer_k;
     next_page_id_ := 0;
     disk_ := disk |}.

(** [pages_[i]], read: an index outside the array is undefined behaviour. *)
Definition page_at (i : Z) (b : t) : outcome Page.t :=
  if bool_decide (0 ≤ i) then
    match pages_ b !! Z.to_nat i with
    | Some p => Ok p
    | None => Fail OutOfBounds
    end
  else Fail OutOfBounds.

(** [pages_[i].field = ...], written through [f]. *)
Definition modify_page (i : Z) (f : Page.t → Page.t) (b : t) : outcome t :=
  p ← page_at i b;
  Ok (set_pages (<[Z.to_nat i := f p]> (pages_ b)) b).

(** The write request of the source followed by [f.get()]:
    [Schedule({true, pages_[frame_id].data_, page_id, p})]. *)
Definition write_back (frame_id page_id : Z) (b : t) : outcome t :=
  p ← page_at frame_id b;
  Ok (set_disk (Disk.WritePage page_id (Page.data_ p) (disk_ b)) b).

(** [AllocatePage()]: [next_page_id_++] on a 32-bit id. *)
Definition AllocatePage (b : t) : Z * t :=
  (next_page_id_ b, set_next_page_id (to_int32 (next_page_id_ b + 1)) b).

(** Modelled from the spec: [DeallocatePage] is declared in the header,
    which is not among the sources; "Deallocate is a no-op placeholder". *)
Definition DeallocatePage (page_id : Z) (b : t) : t := b.

(** The block shared, statement for statement, by [NewPage] (lines 38-58)
    and [FetchPage] (lines 83-102): take a frame from the free list or from
    the replacer, and write a dirty victim back. [None] is the [return
    nullptr] of the callers. *)
Definition acquire_frame (b : t) : outcome (option Z * t) :=
  let frame_id := INVALID_FRAME_ID in
  '(frame_id, b) ←
    match free_list_ b with
    | f :: fl => Ok (f, set_free_list fl b)
    | [] =>
        if bool_decide (LRUKReplacer.Size (replacer_ b) > 0) then
          '(_, frame_id, r) ← LRUKReplacer.Evict frame_id (replacer_ b);
          let b := set_replacer r b in
          p ← page_at frame_id b;
          Ok (frame_id, set_page_table (delete (Page.page_id_ p) (page_table_ b)) b)
        else Ok (frame_id, b)
    end;
  if bool_decide (frame_id = INVALID_FRAME_ID) then Ok (None, b)
  else
    p ← page_at frame_id b;
    if bool_decide (Page.page_id_ p ≠ INVALID_PAGE_ID) && Page.is_dirty_ p then
      b ← write_back frame_id (Page.page_id_ p) b;
      b ← modify_page frame_id Page.ResetMemory b;
      Ok (Some frame_id, b)
    else Ok (Some frame_id, b).

(** The "set metadata" tail of [NewPage] and [FetchPage]. *)
Definition install (page_id frame_id : Z) (b : t) : outcome t :=
  let b := set_page_table (<[page_id := frame_id]> (page_table_ b)) b in
  b ← modify_page frame_id (Page.set_pin_count 1) b;
  b ← modify_page frame_id (Page.set_is_dirty false) b;
  b ← modify_page frame_id (Page.set_page_id page_id) b;
  r ← LRUKReplacer.RecordAccess frame_id (replacer_ b);
  r ← LRUKReplacer.SetEvictable frame_id false r;
  Ok (set_replacer r b).

(** [NewPage(&page_id)]: the returned pointer [pages_ + frame_id] is the
    frame index, [None] is [nullptr]; the second component is [*page_id]. *)
Definition NewPage (page_id0 : Z) (b : t) : outcome (option Z * Z * t) :=
  '(fo, b) ← acquire_frame b;
  match fo with
  | None => Ok (None, page_id0, b)
  | Some frame_id =>
      let '(page_id, b) := AllocatePage b in
      b ← install page_id frame_id b;
      Ok (Some frame_id, page_id, b)
  end.

(** [FetchPage(page_id)] *)
Definition FetchPage (page_id : Z) (b : t) : outcome (option Z * t) :=
  match page_table_ b !! page_id with
  | Some frame_id =>
      (* in buffer pool *)
      r ← LRUKReplacer.RecordAccess frame_id (replacer_ b);
      r ← LRUKReplacer.SetEvictable frame_id false r;
      Ok (Some frame_id, set_replacer r b)
  | None =>
      '(fo, b) ← acquire_frame b;
      match fo with
      | None => Ok (None, b)
      | Some frame_id =>
          (* read data from disk *)
          b ← modify_page frame_id (Page.set_data (Disk.ReadPage page_id (disk_ b))) b;
          b ← install page_id frame_id b;
          Ok (Some frame_id, b)
      end
  end.

(** [UnpinPage(page_id, is_dirty)] *)
Definition UnpinPage (page_id : Z) (is_dirty : bool) (b : t) : outcome (bool * t) :=
  match page_table_ b !! page_id with
  | None => Ok (false, b)
  | Some frame_id =>
      p ← page_at frame_id b;
      if bool_decide (Page.pin_count_ p ≤ 0) then Ok (false, b)
      else
        b ← modify_page frame_id (λ p, Page.set_is_dirty (Page.is_dirty_ p || is_dirty) p) b;
        b ← modify_page frame_id (λ p, Page.set_pin_count (Page.pin_count_ p - 1) p) b;
        p ← page_at frame_id b;
        if bool_decide (Page.pin_count_ p = 0) then
          r ← LRUKReplacer.SetEvictable frame_id true (replacer_ b);
          Ok (true, set_replacer r b)
        else Ok (true, b)
  end.

(** [FlushPage(page_id)] *)
Definition FlushPage (page_id : Z) (b : t) : outcome (bool * t) :=
  match page_table_ b !! page_id with
  | None => Ok (false, b)
  | Some frame_id =>
      b ← write_back frame_id page_id b;
      b ← modify_page frame_id Page.ResetMemory b;
      b ← modify_page frame_id (Page.set_is_dirty false) b;
      Ok (true, b)
  end.

(** First loop of [FlushAllPages]: one write request per page-table entry. *)
Fixpoint FlushAllPages_schedule (its : list (Z * Z)) (b : t) : outcome t :=
  match its with
  | [] => Ok b
  | (page_id, frame_id) :: its' =>
      b ← write_back frame_id page_id b;
      FlushAllPages_schedule its' b
  end.

(** Second loop of [FlushAllPages]: [pages_[it->first]] is indexed with the
    key of the entry. *)
Fixpoint FlushAllPages_await (its : list (Z * Z)) (b : t) : outcome t :=
  match its with
  | [] => Ok b
  | (first, second) :: its' =>
      b ← modify_page first Page.ResetMemory b;
      b ← modify_page first (Page.set_is_dirty false) b;
      FlushAllPages_await its' b
  end.

(** [FlushAllPages()]; both loops walk the page table in the same order. *)
Definition FlushAllPages_in (order : list (Z * Z)) (b : t) : outcome t :=
  b ← FlushAllPages_schedule order b;
  FlushAllPages_await order b.

Definition FlushAllPages (b : t) : outcome t :=
  FlushAllPages_in (map_to_list (page_table_ b)) b.

(** [DeletePage(page_id)] *)
Definition DeletePage (page_id : Z) (b : t) : outcome (bool * t) :=
  match page_table_ b !! page_id with
  | None => Ok (true, b)
  | Some frame_id =>
      p ← page_at frame_id b;
      if bool_decide (Page.pin_count_ p > 0) then Ok (false, b)
      else
        b ← (if Page.is_dirty_ p then write_back frame_id page_id b else Ok b);
        let b := set_page_table (delete page_id (page_table_ b)) b in
        r ← LRUKReplacer.Remove frame_id (replacer_ b);
        let b := set_replacer r b in
        b ← modify_page frame_id (Page.set_is_dirty false) b;
        b ← modify_page frame_id (Page.set_pin_count 0) b;
        b ← modify_page frame_id (Page.set_page_id INVALID_PAGE_ID) b;
        b ← modify_page frame_id Page.ResetMemory b;
        let b := set_free_list (free_list_ b ++ [frame_id]) b in
        let b := DeallocatePage page_id b in
        Ok (true, b)
  end.
End BufferPoolManager.

(** ** Page guards ([page_guard.cpp]) *)

Module BasicPageGuard.
(** Modelled from the spec: the guard classes are declared in
    [page_guard.h], which is not among the sources: "a (pool, frame) pair"
    and "a sticky dirty flag". [bpm_] is a pointer to the one pool of the
    model ([true]: non-null); [page_] is a pointer into its frame array
    ([Some i]: [pages_ + i], [None]: [nullptr]). *)
Record t := mk {
  bpm_ : bool;
  page_ : option Z;
  is_dirty_ : bool
}.

(** [Reset()] *)
Definition Reset (g : t) : t := {| bpm_ := false; page_ := None; is_dirty_ := false |}.

(** The guard a pool hands out: [{this, page}]. *)
Definition make (page : option Z) : t := {| bpm_ := true; page_ := page; is_dirty_ := false |}.

(** [page_->GetPageId()] *)
Definition GetPageId (page : option Z) (b : BufferPoolManager.t) : outcome Z :=
  match page with
  | None => Fail NullDereference
  | Some i => p ← BufferPoolManager.page_at i b; Ok (Page.GetPageId p)
  end.

(** [Drop()]: the guard afterwards and the pool. *)
Definition Drop (g : t) (b : BufferPoolManager.t) : outcome (t * BufferPoolManager.t) :=
  b ← (if bpm_ g && bool_decide (page_ g ≠ None) then
         page_id ← GetPageId (page_ g) b;
         '(_, b) ← BufferPoolManager.UnpinPage page_id (is_dirty_ g) b;
         Ok b
       else Ok b);
  Ok (Reset g, b).

(** [~BasicPageGuard()] *)
Definition destroy (g : t) (b : BufferPoolManager.t) : outcome (t * BufferPoolManager.t) :=
  Drop g b.

(** [new_page->RLatch()] and [new_page->WLatch()] on a raw page pointer. *)
Definition RLatch (page : option Z) (b : BufferPoolManager.t) : outcome BufferPoolManager.t :=
  match page with
  | None => Fail NullDereference
  | Some i =>
      p ← BufferPoolManager.page_at i b;
      l ← ReaderWriterLatch.RLock (Page.rwlatch_ p);
      BufferPoolManager.modify_page i (Page.set_rwlatch l) b
  end.

Definition WLatch (page : option Z) (b : BufferPoolManager.t) : outcome BufferPoolManager.t :=
  match page with
  | None => Fail NullDereference
  | Some i =>
      p ← BufferPoolManager.page_at i b;
      l ← ReaderWriterLatch.WLock (Page.rwlatch_ p);
      BufferPoolManager.modify_page i (Page.set_rwlatch l) b
  end.

(** [UpgradeRead()]: the new guard's [guard_] (built by
    [ReadPageGuard(bpm, page)]: [is_dirty_] keeps its default [false]), the
    emptied source and the pool. *)
Definition UpgradeRead (g : t) (b : BufferPoolManager.t)
  : outcome (t * t * BufferPoolManager.t) :=
  let new_bpm := bpm_ g in
  let new_page := page_ g in
  let g := Reset g in
  b ← RLatch new_page b;
  Ok ({| bpm_ := new_bpm; page_ := new_page; is_dirty_ := false |}, g, b).

(** [UpgradeWrite()] *)
Definition UpgradeWrite (g : t) (b : BufferPoolManager.t)
  : outcome (t * t * BufferPoolManager.t) :=
  let new_bpm := bpm_ g in
  let new_page := page_ g in
  let g := Reset g in
  b ← WLatch new_page b;
  Ok ({| bpm_ := new_bpm; page_ := new_page; is_dirty_ := false |}, g, b).
End BasicPageGuard.

(** ** Persistent trie ([trie.cpp]) *)

Module Trie.
Local Open Scope nat_scope.

(** The value types [Put] and [Get] are instantiated at (end of
    [trie.cpp]): [uint32_t], [uint64_t], [std::string],
    [Integer = std::unique_ptr<uint32_t>] and [MoveBlocked]. *)
Inductive value_type := T_uint32 | T_uint64 | T_string | T_Integer | T_MoveBlocked.

Inductive value :=
  | V_uint32 (v : Z)
  | V_uint64 (v : Z)
  | V_string (s : string)
  | V_Integer (pointee : Z)
  | V_MoveBlocked (waited : bool).

Definition type_of (v : value) : value_type :=
  match v with
  | V_uint32 _ => T_uint32
  | V_uint64 _ => T_uint64
  | V_string _ => T_string
  | V_Integer _ => T_Integer
  | V_MoveBlocked _ => T_MoveBlocked
  end.

#[export] Instance value_type_eq_dec : EqDecision value_type.
Proof. solve_decision. Defined.

(** Modelled from the spec: [TrieNode] and [TrieNodeWithValue<T>] are
    declared in [trie.h], which is not among the sources: "a mapping of
    child edges [char -> node], and an optional typed value. Two variants
    exist: value-less and value-bearing." A child is a
    [shared_ptr<const TrieNode>]: here the address of a node in the store. *)
Inductive TrieNode :=
  | Node (children : gmap ascii nat)                       (* is_value_node_ = false *)
  | NodeWithValue (children : gmap ascii nat) (v : value). (* is_value_node_ = true *)

Definition children_ (n : TrieNode) : gmap ascii nat :=
  match n with
  | Node ch => ch
  | NodeWithValue ch _ => ch
  end.

Definition is_value_node_ (n : TrieNode) : bool :=
  match n with
  | Node _ => false
  | NodeWithValue _ _ => true
  end.

(** Modelled from the spec: [Clone()] is defined in [trie.h]; "each node on
    the path is cloned; off-path children are shared": a new node with the
    same children map and, for a value-bearing node, the same value. *)
Definition Clone (n : TrieNode) : TrieNode := n.

(** [n->children_[c] = l] and [n->children_.erase(c)] on a node under
    construction. *)
Definition set_child (c : ascii) (l : nat) (n : TrieNode) : TrieNode :=
  match n with
  | Node ch => Node (<[c := l]> ch)
  | NodeWithValue ch v => NodeWithValue (<[c := l]> ch) v
  end.

Definition erase_child (c : ascii) (n : TrieNode) : TrieNode :=
  match n with
  | Node ch => Node (delete c ch)
  | NodeWithValue ch v => NodeWithValue (delete c ch) v
  end.

(** The store of all nodes: [make_shared] appends a node and returns its
    address; nodes no handle refers to any more stay in the list. *)
Abbreviation heap := (list TrieNode).

Definition alloc (n : TrieNode) (h : heap) : nat * heap := (length h, h ++ [n]).

(** [*p] for a non-null [shared_ptr]; it always owns a live node, the
    default is never reached in a closed store ([heap_ok]). *)
Definition deref (h : heap) (l : nat) : TrieNode := default (Node ∅) (h !! l).

(** The handle: [root_], [None] for [nullptr]. *)
Record t := mk { root_ : option nat }.

(** The [for] loop of [Get]. *)
Fixpoint Get_walk (h : heap) (node : nat) (key : list ascii) : option nat :=
  match key with
  | [] => Some node
  | c :: key' =>
      match children_ (deref h node) !! c with
      | Some next => Get_walk h next key'
      | None => None
      end
  end.

(** [Get<T>(key)]: [None] is [nullptr]; the [dynamic_cast] succeeds when
    the node holds a value of type [T]. *)
Definition Get (T : value_type) (key : list ascii) (tr : t) (h : heap) : option value :=
  match root_ tr with
  | None => None
  | Some node =>
      match Get_walk h node key with
      | None => None
      | Some node =>
          match deref h node with
          | Node _ => None
          | NodeWithValue _ v => if decide (type_of v = T) then Some v else None
          end
      end
  end.

(** The [for] loop of [Put] over the rest of the key. *)
Fixpoint Put_loop (value : value) (key : list ascii) (cur_trie : option nat)
    (new_trie_next : nat) (h : heap) : heap :=
  match key with
  | [] => h
  | c :: key' =>
      let cur_trie :=
        match cur_trie with
        | Some l => children_ (deref h l) !! c
        | None => None
        end in
      let child :=
        match key' with
        | _ :: _ =>
            match cur_trie with
            | Some l => Clone (deref h l)
            | None => Node ∅
            end
        | [] =>
            match cur_trie with
            | Some l => NodeWithValue (children_ (deref h l)) value
            | None => NodeWithValue ∅ value
            end
        end in
      let '(child_trie, h) := alloc child h in
      let h := alter (set_child c child_trie) new_trie_next h in
      Put_loop value key' cur_trie child_trie h
  end.

(** [Put<T>(key, value)]: the new handle and the store. *)
Definition Put (key : list ascii) (value : value) (tr : t) (h : heap) : t * heap :=
  let cur_trie := root_ tr in
  match key with
  | [] =>
      let n :=
        match cur_trie with
        | Some l => NodeWithValue (children_ (deref h l)) value
        | None => NodeWithValue ∅ value
        end in
      let '(new_trie, h) := alloc n h in
      ({| root_ := Some new_trie |}, h)
  | _ :: _ =>
      let n :=
        match cur_trie with
        | Some l => Clone (deref h l)
        | None => Node ∅
        end in
      let '(new_trie, h) := alloc n h in
      ({| root_ := Some new_trie |}, Put_loop value key cur_trie new_trie h)
  end.

(** The "copy node on path" loop of [Remove]: the store and the nodes
    pushed on [st], oldest first. *)
Fixpoint Remove_copy (key : list ascii) (cur_trie child_trie : nat) (h : heap)
  : heap * list nat :=
  match key with
  | [] => (h, [])
  | c :: key' =>
      match children_ (deref h cur_trie) !! c with
      | Some cur_trie =>
          let next :=
            match key' with
            | _ :: _ => Clone (deref h cur_trie)
            | [] => Node (children_ (deref h cur_trie))
            end in
          let '(next, h) := alloc next h in
          let h := alter (set_child c next) child_trie h in
          let '(h, st) := Remove_copy key' cur_trie next h in
          (h, next :: st)
      | None => (h, [])
      end
  end.

(** The "remove null node" loop of [Remove], given the pairs
    [(st[i], key[i])] for [i = index - 1] down to [0]. A missing child
    cannot occur: the copy loop has set it. *)
Fixpoint Remove_prune (path : list (nat * ascii)) (h : heap) : heap :=
  match path with
  | [] => h
  | (st_i, key_i) :: path' =>
      match children_ (deref h st_i) !! key_i with
      | Some child =>
          if bool_decide (children_ (deref h child) = ∅) then
            if is_value_node_ (deref h child) then h
            else Remove_prune path' (alter (erase_child key_i) st_i h)
          else h
      | None => h
      end
  end.

(** [Remove(key)]: the new handle and the store. When the original trie is
    returned the copies made so far die with the locals. *)
Definition Remove (key : list ascii) (tr : t) (h : heap) : t * heap :=
  let cur_trie := root_ tr in
  match key with
  | [] =>
      match cur_trie with
      | Some l =>
          let '(new_trie, h) := alloc (Node (children_ (deref h l))) h in
          ({| root_ := Some new_trie |}, h)
      | None => ({| root_ := None |}, h)
      end
  | _ :: _ =>
      match cur_trie with
      | Some l =>
          let '(new_trie, h1) := alloc (Clone (deref h l)) h in
          let '(h2, pushed) := Remove_copy key l new_trie h1 in
          let st := new_trie :: pushed in
          if bool_decide (length st - 1 ≠ length key) then
            ({| root_ := root_ tr |}, h)
          else
            let h3 := Remove_prune (reverse (zip st key)) h2 in
            if bool_decide (children_ (deref h3 new_trie) = ∅)
               && negb (is_value_node_ (deref h3 new_trie))
            then ({| root_ := None |}, h3)
            else ({| root_ := Some new_trie |}, h3)
      | None => ({| root_ := None |}, h)
      end
  end.

(** The empty trie and an empty store. *)
Definition empty : t := {| root_ := None |}.

(** Every pointer in the store, and the root, is live. *)
Definition heap_ok (h : heap) : Prop :=
  ∀ l n c l', h !! l = Some n → children_ n !! c = Some l' → l' < length h.

Definition trie_ok (tr : t) (h : heap) : Prop :=
  heap_ok h ∧ ∀ l, root_ tr = Some l → l < length h.
End Trie.

(** ** Specification vocabulary for the replacer *)

Module LRUKSpec.
Import LRUKNode LRUKReplacer.

(** The oldest timestamp a node still remembers: with a full window, the
    oldest of its last K accesses. *)
Definition oldest (n : LRUKNode.t) : Z := hd 0 (history_ n).

(** Backward k-distance as the specification words it: [None] is +infinity
    (fewer than K recorded accesses), otherwise
    [current_timestamp - oldest_of_last_K_timestamps]. *)
Definition k_distance (r : LRUKReplacer.t) (n : LRUKNode.t) : option Z :=
  if bool_decide (LRUKNode.k_ n < k_ r) then None
  else Some (current_timestamp_ r - oldest n).

(** Order on distances, +infinity on top. *)
Definition k_distance_le (a b : option Z) : Prop :=
  match a, b with
  | _, None => True
  | None, Some _ => False
  | Some x, Some y => x ≤ y
  end.

(** [nv] is at least as good a victim as [n]: its distance is maximal, and
    among nodes with fewer than K accesses its oldest access is smallest. *)
Definition dominates (r : LRUKReplacer.t) (nv n : LRUKNode.t) : Prop :=
  k_distance_le (k_distance r n) (k_distance r nv) ∧
  (LRUKNode.k_ n < k_ r → LRUKNode.k_ nv < k_ r → oldest nv ≤ oldest n).

(** A node as [RecordAccess] builds it: a non-empty window of at most K
    past timestamps, counted by [k_]. *)
Definition node_ok (r : LRUKReplacer.t) (n : LRUKNode.t) : Prop :=
  history_ n ≠ [] ∧
  LRUKNode.k_ n = Z.of_nat (length (history_ n)) ∧
  LRUKNode.k_ n ≤ k_ r ∧
  Forall (λ ts, 0 ≤ ts < current_timestamp_ r) (history_ n).

Definition evictable (n : LRUKNode.t) : Prop := is_evictable_ n = true.

Definition evictable_count (r : LRUKReplacer.t) : Z :=
  Z.of_nat (size (filter (λ it : Z * LRUKNode.t, evictable it.2) (node_store_ r))).

(** The replacer invariant: counters in the range of [size_t], every node
    well formed, [curr_size_] the number of evictable nodes. *)
Definition inv (r : LRUKReplacer.t) : Prop :=
  1 ≤ k_ r < SIZE_MAX_plus_1 ∧
  0 ≤ current_timestamp_ r < SIZE_MAX_plus_1 ∧
  0 ≤ curr_size_ r < SIZE_MAX_plus_1 ∧
  map_Forall (λ _ n, node_ok r n) (node_store_ r) ∧
  curr_size_ r = evictable_count r.

(** What the scan of [Evict] knows after the entries [seen]. *)
Definition scan_ok (r : LRUKReplacer.t) (seen : list (Z * LRUKNode.t)) (st : scan) : Prop :=
  if found st then
    ∃ nv, (frame_id st, nv) ∈ seen ∧ evictable nv ∧
          earliest_timestamp st = oldest nv ∧
          diff st = (if bool_decide (LRUKNode.k_ nv < k_ r) then 0
                     else current_timestamp_ r - oldest nv) ∧
          ∀ f n, (f, n) ∈ seen → evictable n → dominates r nv n
  else
    diff st = 0 ∧ ∀ f n, (f, n) ∈ seen → ¬ evictable n.

(** The replacer [Evict] leaves behind when it picks [v]. *)
Definition evicted (v : Z) (r : LRUKReplacer.t) : LRUKReplacer.t :=
  {| node_store_ := delete v (node_store_ r);
     current_timestamp_ := current_timestamp_ r;
     curr_size_ := curr_size_ r - 1;
     replacer_size_ := replacer_size_ r;
     k_ := k_ r |}.

(** The number of evictable nodes after a node is written or erased. *)
Definition flag (o : option LRUKNode.t) : Z :=
  match o with
  | Some n => if is_evictable_ n then 1 else 0
  | None => 0
  end.

(** The node [RecordAccess] leaves for a frame: the window slides when it
    is full, the current timestamp is appended. *)
Definition accessed (r : LRUKReplacer.t) (f : Z) (o : option LRUKNode.t) : LRUKNode.t :=
  match o with
  | None => LRUKNode.mk [current_timestamp_ r] 1 f false
  | Some n =>
      if bool_decide (LRUKNode.k_ n = k_ r)
      then LRUKNode.mk (tail (history_ n) ++ [current_timestamp_ r]) (LRUKNode.k_ n)
                       (fid_ n) (is_evictable_ n)
      else LRUKNode.mk (history_ n ++ [current_timestamp_ r]) (LRUKNode.k_ n + 1)
                       (fid_ n) (is_evictable_ n)
  end.
End LRUKSpec.

(** ** Specification vocabulary for the pool *)

Module BPMSpec.
Import BufferPoolManager.

(** What [DeletePage] leaves in a frame: cleared metadata, zeroed memory. *)
Definition cleared (p : Page.t) : Page.t :=
  {| Page.data_ := Page.zeroes; Page.page_id_ := INVALID_PAGE_ID;
     Page.pin_count_ := 0; Page.is_dirty_ := false;
     Page.rwlatch_ := Page.rwlatch_ p |}.

(** The pool after a successful [DeletePage page_id] of the page held,
    as [p], by [frame_id], with [r] the replacer after [Remove]. *)
Definition deleted (page_id frame_id : Z) (p : Page.t) (r : LRUKReplacer.t)
    (b : BufferPoolManager.t) : BufferPoolManager.t :=
  {| pool_size_ := pool_size_ b;
     pages_ := <[Z.to_nat frame_id := cleared p]> (pages_ b);
     page_table_ := delete page_id (page_table_ b);
     free_list_ := free_list_ b ++ [frame_id];
     replacer_ := r;
     next_page_id_ := next_page_id_ b;
     disk_ := if Page.is_dirty_ p
              then Disk.WritePage page_id (Page.data_ p) (disk_ b)
              else disk_ b |}.

(** The pool after a successful [FlushPage page_id] of the page held, as
    [p], by [frame_id]. *)
Definition flushed (page_id frame_id : Z) (p : Page.t) (b : BufferPoolManager.t)
  : BufferPoolManager.t :=
  {| pool_size_ := pool_size_ b;
     pages_ := <[Z.to_nat frame_id :=
                   Page.set_is_dirty false (Page.ResetMemory p)]> (pages_ b);
     page_table_ := page_table_ b;
     free_list_ := free_list_ b;
     replacer_ := replacer_ b;
     next_page_id_ := next_page_id_ b;
     disk_ := Disk.WritePage page_id (Page.data_ p) (disk_ b) |}.
End BPMSpec.

(** ** Specification vocabulary for the trie *)

Module TrieSpec.
Import Trie.
Local Open Scope nat_scope.

(** The value a node bears, whatever its type. *)
Definition value_of (n : TrieNode) : option value :=
  match n with
  | Node _ => None
  | NodeWithValue _ v => Some v
  end.

Definition view (h : heap) (o : option nat) : option value :=
  o ≫= λ l, value_of (deref h l).

Definition walk (h : heap) (o : option nat) (key : list ascii) : option nat :=
  o ≫= λ l, Get_walk h l key.

(** The mapping a trie denotes: the value stored under a key. [Get<T>]
    reads it through the type test ([Get_stored]). *)
Definition stored (key : list ascii) (tr : t) (h : heap) : option value :=
  view h (walk h (root_ tr) key).

Definition of_type (T : value_type) (v : value) : option value :=
  if decide (type_of v = T) then Some v else None.

(** The nodes below address [n] only point below [n]. *)
Definition closed_below (n : nat) (h : heap) : Prop :=
  ∀ l c l', l < n → children_ (deref h l) !! c = Some l' → l' < n.

(** [h'] extends [h]: it is at least as long and agrees with it on the
    nodes [h] has. *)
Definition extends (h h' : heap) : Prop :=
  length h ≤ length h' ∧ ∀ l, l < length h → deref h' l = deref h l.

(** What [Clone()] of a possibly null pointer yields in [Put]. *)
Definition clone_of (h : heap) (o : option nat) : TrieNode :=
  match o with
  | Some l => Clone (deref h l)
  | None => Node ∅
  end.

(** [cur_trie->children_.find(c)] on a possibly null pointer. *)
Definition child_of (h : heap) (o : option nat) (c : ascii) : option nat :=
  match o with
  | Some l => children_ (deref h l) !! c
  | None => None
  end.

(** The node [Put] creates at one step of its loop: a clone inside the
    key, a value-bearing node at its end. *)
Definition Put_child (v : value) (rest : list ascii) (h : heap) (o : option nat)
  : TrieNode :=
  match rest with
  | [] => NodeWithValue (children_ (clone_of h o)) v
  | _ :: _ => clone_of h o
  end.

(** The node [Remove] creates at one step of its copy loop. *)
Definition Remove_child (rest : list ascii) (h : heap) (l : nat) : TrieNode :=
  match rest with
  | [] => Node (children_ (deref h l))
  | _ :: _ => Clone (deref h l)
  end.
End TrieSpec.

(** ** Concrete runs used as examples *)

Module Scenario.
Import BufferPoolManager.

(** A replacer with K = 2: frame 0 has a full window, frames 1 to 3 one
    access each; frame 3 is pinned. *)
Definition replacer_example : LRUKReplacer.t :=
  {| LRUKReplacer.node_store_ :=
       <[0 := LRUKNode.mk [0; 1] 2 0 true]>
         (<[1 := LRUKNode.mk [3] 1 1 true]>
            (<[2 := LRUKNode.mk [2] 1 2 true]>
               (<[3 := LRUKNode.mk [4] 1 3 false]> ∅)));
     LRUKReplacer.current_timestamp_ := 5;
     LRUKReplacer.curr_size_ := 3;
     LRUKReplacer.replacer_size_ := 4;
     LRUKReplacer.k_ := 2 |}.

(** A page image that is not all zeroes. *)
Definition image : list byte := x2a :: replicate 4095 x00.

(** One frame; page 0 is created, then unpinned: resident, pin count 0. *)
Definition unpinned : outcome BufferPoolManager.t :=
  '(_, _, b) ← NewPage 0 (BufferPoolManager.new 1 ∅ 2);
  '(_, b) ← UnpinPage 0 false b;
  Ok b.

(** ... and fetched again, which is a hit. *)
Definition refetched : outcome BufferPoolManager.t :=
  b ← unpinned;
  '(_, b) ← FetchPage 0 b;
  Ok b.

(** One frame; page 0, stored on disk as [image], is fetched. *)
Definition fetched : outcome BufferPoolManager.t :=
  '(_, b) ← FetchPage 0 (BufferPoolManager.new 1 {[0 := image]} 2);
  Ok b.

(** Three frames; page 2 is fetched into frame 0 and unpinned dirty. *)
Definition dirty_page_2 : outcome BufferPoolManager.t :=
  '(_, b) ← FetchPage 2 (BufferPoolManager.new 3 {[2 := image]} 2);
  '(_, b) ← UnpinPage 2 true b;
  Ok b.

Definition unpinned_pool : BufferPoolManager.t :=
  {| pool_size_ := 1;
     pages_ := [Page.mk Page.zeroes 0 0 false ReaderWriterLatch.free];
     page_table_ := {[0 := 0]};
     free_list_ := [];
     replacer_ := LRUKReplacer.mk {[0 := LRUKNode.mk [0] 1 0 true]} 1 1 1 2;
     next_page_id_ := 1;
     disk_ := ∅ |}.

Definition refetched_pool : BufferPoolManager.t :=
  {| pool_size_ := 1;
     pages_ := [Page.mk Page.zeroes 0 0 false ReaderWriterLatch.free];
     page_table_ := {[0 := 0]};
     free_list_ := [];
     replacer_ := LRUKReplacer.mk {[0 := LRUKNode.mk [0; 1] 2 0 false]} 2 0 1 2;
     next_page_id_ := 1;
     disk_ := ∅ |}.

Definition fetched_pool : BufferPoolManager.t :=
  {| pool_size_ := 1;
     pages_ := [Page.mk image 0 1 false ReaderWriterLatch.free];
     page_table_ := {[0 := 0]};
     free_list_ := [];
     replacer_ := LRUKReplacer.mk {[0 := LRUKNode.mk [0] 1 0 false]} 1 0 1 2;
     next_page_id_ := 0;
     disk_ := {[0 := image]} |}.

Definition dirty_pool : BufferPoolManager.t :=
  {| pool_size_ := 3;
     pages_ := [Page.mk image 2 0 true ReaderWriterLatch.free; Page.new; Page.new];
     page_table_ := {[2 := 0]};
     free_list_ := [1; 2];
     replacer_ := LRUKReplacer.mk {[0 := LRUKNode.mk [0] 1 0 true]} 1 1 3 2;
     next_page_id_ := 0;
     disk_ := {[2 := image]} |}.

(** The frame of the pool at an index, for statements. *)
Definition frame (i : nat) (b : BufferPoolManager.t) : Page.t :=
  default Page.new (pages_ b !! i).
End Scenario.

Module TrieScenario.
Import Trie.
Local Open Scope nat_scope.

Definition key_ab : list ascii := ["a"; "b"]%char.
Definition key_ac : list ascii := ["a"; "c"]%char.

(** The trie of the specification's scenario 6 after its two puts. *)
Definition trie_ab_ac : t * heap :=
  let t1 := Put key_ab (V_uint32 1) empty [] in
  Put key_ac (V_uint32 2) t1.1 t1.2.
Definition key_a : list ascii := ["a"]%char.
End TrieScenario.

(** ** Moving guards, read and write guards ([page_guard.cpp]) *)

Module BasicPageGuardMove.
Import BasicPageGuard.

(** [BasicPageGuard(BasicPageGuard &&that)]: the new guard and [that]
    afterwards. *)
Definition move (that : BasicPageGuard.t) : BasicPageGuard.t * BasicPageGuard.t :=
  ({| bpm_ := bpm_ that; page_ := page_ that; is_dirty_ := is_dirty_ that |},
   Reset that).

(** [operator=(BasicPageGuard &&that)]: the page held so far is unpinned,
    then [that] is taken over. The result is [*this], [that] and the pool. *)
Definition assign (this that : BasicPageGuard.t) (b : BufferPoolManager.t)
  : outcome (BasicPageGuard.t * BasicPageGuard.t * BufferPoolManager.t) :=
  b ← (if bpm_ this && bool_decide (page_ this ≠ None) then
         page_id ← GetPageId (page_ this) b;
         '(_, b) ← BufferPoolManager.UnpinPage page_id (is_dirty_ this) b;
         Ok b
       else Ok b);
  Ok ({| bpm_ := bpm_ that; page_ := page_ that; is_dirty_ := is_dirty_ that |},
      Reset that, b).

(** Modelled from the spec: [Page::RUnlatch] and [Page::WUnlatch] are
    declared in [page.h], which is not among the sources; they release the
    page's reader-writer latch. Here on a raw page pointer, as the guards
    call them. *)
Definition RUnlatch (page : option Z) (b : BufferPoolManager.t)
  : outcome BufferPoolManager.t :=
  match page with
  | None => Fail NullDereference
  | Some i =>
      BufferPoolManager.modify_page i
        (λ p, Page.set_rwlatch (ReaderWriterLatch.RUnlock (Page.rwlatch_ p)) p) b
  end.

Definition WUnlatch (page : option Z) (b : BufferPoolManager.t)
  : outcome BufferPoolManager.t :=
  match page with
  | None => Fail NullDereference
  | Some i =>
      BufferPoolManager.modify_page i
        (λ p, Page.set_rwlatch (ReaderWriterLatch.WUnlock (Page.rwlatch_ p)) p) b
  end.
End BasicPageGuardMove.

Module ReadPageGuard.
Import BasicPageGuard.

(** Modelled from the spec: [ReadPageGuard] is declared in [page_guard.h];
    its one field is the basic guard [guard_]. *)
Record t := mk { guard_ : BasicPageGuard.t }.

(** A default-constructed guard: [guard_] is empty. *)
Definition empty : t := {| guard_ := {| bpm_ := false; page_ := None; is_dirty_ := false |} |}.

(** [ReadPageGuard(bpm, page)] *)
Definition new (bpm : bool) (page : option Z) : t :=
  {| guard_ := {| bpm_ := bpm; page_ := page; is_dirty_ := false |} |}.

(** [ReadPageGuard(ReadPageGuard &&that)]: [guard_ = std::move(that.guard_)]
    on the fresh, empty [guard_], then [that.guard_.Reset()]. *)
Definition move (that : t) (b : BufferPoolManager.t)
  : outcome (t * t * BufferPoolManager.t) :=
  '(g, that_guard, b) ← BasicPageGuardMove.assign (guard_ empty) (guard_ that) b;
  Ok ({| guard_ := g |}, {| guard_ := Reset that_guard |}, b).

(** [Drop()] *)
Definition Drop (this : t) (b : BufferPoolManager.t) : outcome (t * BufferPoolManager.t) :=
  '(g, b) ←
    (if bpm_ (guard_ this) && bool_decide (page_ (guard_ this) ≠ None) then
       b ← BasicPageGuardMove.RUnlatch (page_ (guard_ this)) b;
       BasicPageGuard.Drop (guard_ this) b
     else Ok (guard_ this, b));
  Ok ({| guard_ := Reset g |}, b).

(** [operator=(ReadPageGuard &&that)] *)
Definition assign (this that : t) (b : BufferPoolManager.t)
  : outcome (t * t * BufferPoolManager.t) :=
  '(this, b) ← Drop this b;
  '(g, that_guard, b) ← BasicPageGuardMove.assign (guard_ this) (guard_ that) b;
  Ok ({| guard_ := g |}, {| guard_ := Reset that_guard |}, b).

(** [~ReadPageGuard()] *)
Definition destroy (this : t) (b : BufferPoolManager.t) : outcome (t * BufferPoolManager.t) :=
  Drop this b.
End ReadPageGuard.

Module WritePageGuard.
Import BasicPageGuard.

(** Modelled from the spec: [WritePageGuard] is declared in [page_guard.h];
    its one field is the basic guard [guard_]. *)
Record t := mk { guard_ : BasicPageGuard.t }.

Definition empty : t := {| guard_ := {| bpm_ := false; page_ := None; is_dirty_ := false |} |}.

(** [WritePageGuard(bpm, page)] *)
Definition new (bpm : bool) (page : option Z) : t :=
  {| guard_ := {| bpm_ := bpm; page_ := page; is_dirty_ := false |} |}.

(** [WritePageGuard(WritePageGuard &&that)] *)
Definition move (that : t) (b : BufferPoolManager.t)
  : outcome (t * t * BufferPoolManager.t) :=
  '(g, that_guard, b) ← BasicPageGuardMove.assign (guard_ empty) (guard_ that) b;
  Ok ({| guard_ := g |}, {| guard_ := Reset that_guard |}, b).

(** [Drop()] *)
Definition Drop (this : t) (b : BufferPoolManager.t) : outcome (t * BufferPoolManager.t) :=
  '(g, b) ←
    (if bpm_ (guard_ this) && bool_decide (page_ (guard_ this) ≠ None) then
       b ← BasicPageGuardMove.WUnlatch (page_ (guard_ this)) b;
       BasicPageGuard.Drop
         {| bpm_ := bpm_ (guard_ this); page_ := page_ (guard_ this); is_dirty_ := true |} b
     else Ok (guard_ this, b));
  Ok ({| guard_ := Reset g |}, b).

(** [operator=(WritePageGuard &&that)] *)
Definition assign (this that : t) (b : BufferPoolManager.t)
  : outcome (t * t * BufferPoolManager.t) :=
  '(this, b) ← Drop this b;
  '(g, that_guard, b) ← BasicPageGuardMove.assign (guard_ this) (guard_ that) b;
  Ok ({| guard_ := g |}, {| guard_ := Reset that_guard |}, b).

(** [~WritePageGuard()] *)
Definition destroy (this : t) (b : BufferPoolManager.t) : outcome (t * BufferPoolManager.t) :=
  Drop this b.
End WritePageGuard.

(** ** The guard-returning calls of the pool ([buffer_pool_manager.cpp]) *)

Module BufferPoolManagerGuards.
Import BufferPoolManager.

(** [FetchPageBasic(page_id)] *)
Definition FetchPageBasic (page_id : Z) (b : BufferPoolManager.t)
  : outcome (BasicPageGuard.t * BufferPoolManager.t) :=
  '(page, b) ← FetchPage page_id b;
  Ok (BasicPageGuard.make page, b).

(** [FetchPageRead(page_id)] *)
Definition FetchPageRead (page_id : Z) (b : BufferPoolManager.t)
  : outcome (ReadPageGuard.t * BufferPoolManager.t) :=
  '(page, b) ← FetchPage page_id b;
  b ← (if bool_decide (page ≠ None) then BasicPageGuard.RLatch page b else Ok b);
  Ok (ReadPageGuard.new true page, b).

(** [FetchPageWrite(page_id)] *)
Definition FetchPageWrite (page_id : Z) (b : BufferPoolManager.t)
  : outcome (WritePageGuard.t * BufferPoolManager.t) :=
  '(page, b) ← FetchPage page_id b;
  b ← (if bool_decide (page ≠ None) then BasicPageGuard.WLatch page b else Ok b);
  Ok (WritePageGuard.new true page, b).

(** [NewPageGuarded(&page_id)] *)
Definition NewPageGuarded (page_id0 : Z) (b : BufferPoolManager.t)
  : outcome (BasicPageGuard.t * Z * BufferPoolManager.t) :=
  '(page, page_id, b) ← NewPage page_id0 b;
  Ok (BasicPageGuard.make page, page_id, b).
End BufferPoolManagerGuards.

(** ** More specification vocabulary for the pool *)

Module PoolSpec.
Import BufferPoolManager.

(** The replacer after [RecordAccess(f)] and [SetEvictable(f, false)]. *)
Definition touched (r : LRUKReplacer.t) (f : Z) : LRUKReplacer.t :=
  let n := LRUKSpec.accessed r f (LRUKReplacer.node_store_ r !! f) in
  {| LRUKReplacer.node_store_ :=
       <[f := LRUKNode.mk (LRUKNode.history_ n) (LRUKNode.k_ n) (LRUKNode.fid_ n) false]>
         (LRUKReplacer.node_store_ r);
     LRUKReplacer.current_timestamp_ :=
       size_t_wrap (LRUKReplacer.current_timestamp_ r + 1);
     LRUKReplacer.curr_size_ :=
       if LRUKNode.is_evictable_ n then size_t_wrap (LRUKReplacer.curr_size_ r - 1)
       else LRUKReplacer.curr_size_ r;
     LRUKReplacer.replacer_size_ := LRUKReplacer.replacer_size_ r;
     LRUKReplacer.k_ := LRUKReplacer.k_ r |}.

(** The frame after the "set metadata" block: pinned once, clean, holding
    [page_id]; [data] is what the buffer holds by then. *)
Definition fresh_frame (page_id : Z) (data : list byte) (p : Page.t) : Page.t :=
  {| Page.data_ := data; Page.page_id_ := page_id; Page.pin_count_ := 1;
     Page.is_dirty_ := false; Page.rwlatch_ := Page.rwlatch_ p |}.

(** A frame needs a write-back before reuse. *)
Definition needs_write_back (p : Page.t) : bool :=
  bool_decide (Page.page_id_ p ≠ INVALID_PAGE_ID) && Page.is_dirty_ p.

(** The frame after [UnpinPage(_, is_dirty)]. *)
Definition unpinned_frame (is_dirty : bool) (p : Page.t) : Page.t :=
  {| Page.data_ := Page.data_ p; Page.page_id_ := Page.page_id_ p;
     Page.pin_count_ := Page.pin_count_ p - 1;
     Page.is_dirty_ := Page.is_dirty_ p || is_dirty;
     Page.rwlatch_ := Page.rwlatch_ p |}.


(** The replacer after [SetEvictable(f, true)] found the node [n]. *)
Definition made_evictable (f : Z) (n : LRUKNode.t) (r : LRUKReplacer.t)
  : LRUKReplacer.t :=
  {| LRUKReplacer.node_store_ :=
       <[f := LRUKNode.mk (LRUKNode.history_ n) (LRUKNode.k_ n) (LRUKNode.fid_ n) true]>
         (LRUKReplacer.node_store_ r);
     LRUKReplacer.current_timestamp_ := LRUKReplacer.current_timestamp_ r;
     LRUKReplacer.curr_size_ :=
       if LRUKNode.is_evictable_ n then LRUKReplacer.curr_size_ r
       else size_t_wrap (LRUKReplacer.curr_size_ r + 1);
     LRUKReplacer.replacer_size_ := LRUKReplacer.replacer_size_ r;
     LRUKReplacer.k_ := LRUKReplacer.k_ r |}.



(** Every frame the replacer tracks is a frame of the array, and passes the
    guard of [RecordAccess]. *)
Definition frames_ok (b : BufferPoolManager.t) : Prop :=
  map_Forall (λ f (_ : LRUKNode.t),
                0 ≤ f < Z.of_nat (length (pages_ b)) ∧
                f ≤ to_int32 (LRUKReplacer.replacer_size_ (replacer_ b)))
             (LRUKReplacer.node_store_ (replacer_ b)).

(** What the disk holds once the victim [p] was written back, if it had to
    be. *)
Definition disk_after_eviction (p : Page.t) (b : BufferPoolManager.t)
  : gmap Z (list byte) :=
  if needs_write_back p
  then Disk.WritePage (Page.page_id_ p) (Page.data_ p) (disk_ b)
  else disk_ b.

(** The pool after the frame [v], holding [p], was taken from the replacer:
    the victim's mapping is erased, a dirty victim is written back and its
    buffer zeroed. *)
Definition evicted_pool (v : Z) (p : Page.t) (b : BufferPoolManager.t)
  : BufferPoolManager.t :=
  {| pool_size_ := pool_size_ b;
     pages_ := if needs_write_back p
               then <[Z.to_nat v := Page.ResetMemory p]> (pages_ b)
               else pages_ b;
     page_table_ := delete (Page.page_id_ p) (page_table_ b);
     free_list_ := free_list_ b;
     replacer_ := LRUKSpec.evicted v (replacer_ b);
     next_page_id_ := next_page_id_ b;
     disk_ := disk_after_eviction p b |}.

(** The bytes left in the buffer of a reused frame: zeroes after a
    write-back, the previous page's bytes otherwise. *)
Definition buffer_after_eviction (p : Page.t) : list byte :=
  if needs_write_back p then Page.zeroes else Page.data_ p.
End PoolSpec.

Module PoolScenario.
Import BufferPoolManager.

(** One frame and no free frame: page 3, whose bytes on disk are zeroes, is
    resident with the bytes [image], dirty and unpinned. *)
Definition dirty_single : BufferPoolManager.t :=
  {| pool_size_ := 1;
     pages_ := [Page.mk Scenario.image 3 0 true ReaderWriterLatch.free];
     page_table_ := {[3 := 0]};
     free_list_ := [];
     replacer_ := LRUKReplacer.mk {[0 := LRUKNode.mk [0] 1 0 true]} 1 1 1 2;
     next_page_id_ := 4;
     disk_ := ∅ |}.

(** A client that calls [NewPage] [n] times in a row and collects the
    returned frame pointers and page ids. *)
Fixpoint NewPage_times (n : nat) (b : BufferPoolManager.t)
  : outcome (list (option Z * Z) * BufferPoolManager.t) :=
  match n with
  | O => Ok ([], b)
  | S n' =>
      '(page, page_id, b) ← NewPage INVALID_PAGE_ID b;
      '(rest, b) ← NewPage_times n' b;
      Ok ((page, page_id) :: rest, b)
  end.
End PoolScenario.

(** * Theorems *)

(** * The replacer *)

Section replacer.
Import LRUKNode LRUKReplacer LRUKSpec.

Lemma size_t_wrap_small z : 0 ≤ z < SIZE_MAX_plus_1 → size_t_wrap z = z.
Proof. intros. unfold size_t_wrap. by apply Z.mod_small. Qed.

Lemma node_ok_front r n : node_ok r n → front n = Ok (oldest n).
Proof.
  intros (Hne & _). unfold front, oldest. by destruct (history_ n).
Qed.

Lemma node_ok_oldest r n :
  node_ok r n → 0 ≤ oldest n < current_timestamp_ r.
Proof.
  intros (Hne & _ & _ & Hall). unfold oldest.
  destruct (history_ n) as [|ts h]; [done|]. by inversion Hall.
Qed.

Lemma k_distance_le_refl d : k_distance_le d d.
Proof. destruct d; simpl; lia. Qed.

Lemma dominates_refl r n : dominates r n n.
Proof. split; [apply k_distance_le_refl | lia]. Qed.

Lemma dominates_alt r nv n :
  dominates r nv n ↔
  (LRUKNode.k_ n < k_ r → LRUKNode.k_ nv < k_ r ∧ oldest nv ≤ oldest n) ∧
  (¬ LRUKNode.k_ n < k_ r →
     LRUKNode.k_ nv < k_ r ∨
     current_timestamp_ r - oldest n ≤ current_timestamp_ r - oldest nv).
Proof.
  unfold dominates, k_distance, k_distance_le.
  destruct (bool_decide_reflect (LRUKNode.k_ n < k_ r));
    destruct (bool_decide_reflect (LRUKNode.k_ nv < k_ r)); intuition lia.
Qed.

Lemma dominates_trans r n1 n2 n3 :
  dominates r n1 n2 → dominates r n2 n3 → dominates r n1 n3.
Proof. rewrite !dominates_alt. intros [? ?] [? ?]. split; intros; lia. Qed.

(** Extending what was seen by one entry. *)
Lemma scan_ok_keep r seen st f n :
  scan_ok r seen st →
  (found st = true → evictable n →
     ∀ nv, (frame_id st, nv) ∈ seen → earliest_timestamp st = oldest nv →
           diff st = (if bool_decide (LRUKNode.k_ nv < k_ r) then 0
                      else current_timestamp_ r - oldest nv) →
           dominates r nv n) →
  (found st = false → ¬ evictable n) →
  scan_ok r (seen ++ [(f, n)]) st.
Proof.
  unfold scan_ok. intros Hst Hfound Hnot. destruct (found st).
  - destruct Hst as (nv & Hin & Hnv & Hearly & Hdiff & Hdom).
    exists nv. split; [set_solver|]. do 3 (split; [done|]).
    intros f' n' [Hin'|Hin']%elem_of_app Hev'; [by eapply Hdom|].
    apply list_elem_of_singleton in Hin'. injection Hin' as -> ->.
    by apply Hfound.
  - destruct Hst as [Hdiff Hnone]. split; [done|].
    intros f' n' [Hin'|Hin']%elem_of_app; [by eapply Hnone|].
    apply list_elem_of_singleton in Hin'. injection Hin' as -> ->.
    by apply Hnot.
Qed.

Lemma scan_ok_take r seen st f n d :
  scan_ok r seen st → evictable n →
  d = (if bool_decide (LRUKNode.k_ n < k_ r) then 0
       else current_timestamp_ r - oldest n) →
  (found st = true →
     ∀ nv, (frame_id st, nv) ∈ seen → earliest_timestamp st = oldest nv →
           diff st = (if bool_decide (LRUKNode.k_ nv < k_ r) then 0
                      else current_timestamp_ r - oldest nv) →
           dominates r n nv) →
  scan_ok r (seen ++ [(f, n)]) (mk_scan true d (oldest n) f).
Proof.
  unfold scan_ok at 2. simpl. intros Hst Hev -> Hbeat.
  exists n. split; [set_solver|]. do 3 (split; [done|]).
  intros f' n' [Hin'|Hin']%elem_of_app Hev'.
  - unfold scan_ok in Hst. destruct (found st).
    + destruct Hst as (nv & Hin & Hnv & Hearly & Hdiff & Hdom).
      eapply dominates_trans; [by apply (Hbeat eq_refl nv)|by eapply Hdom].
    + destruct Hst as [_ Hnone]. by destruct (Hnone _ _ Hin').
  - apply list_elem_of_singleton in Hin'. injection Hin' as -> ->.
    apply dominates_alt. lia.
Qed.

(** One visit keeps [scan_ok] and cannot fault on a well-formed node. *)
Lemma Evict_visit_ok r seen st f n :
  0 ≤ current_timestamp_ r < SIZE_MAX_plus_1 →
  (∀ f' n', (f', n') ∈ seen → node_ok r n') →
  node_ok r n →
  scan_ok r seen st →
  ∃ st', Evict_visit r st (f, n) = Ok st' ∧ scan_ok r (seen ++ [(f, n)]) st'.
Proof.
  intros Hts Hseen Hn Hst.
  pose proof (node_ok_front _ _ Hn) as Hfront.
  pose proof (node_ok_oldest _ _ Hn) as Hold.
  destruct Hn as (_ & _ & Hk & _).
  assert (Hwrap : size_t_wrap (current_timestamp_ r - oldest n)
                  = current_timestamp_ r - oldest n)
    by (apply size_t_wrap_small; lia).
  assert (Holdv : ∀ nv, (frame_id st, nv) ∈ seen →
                        0 ≤ oldest nv < current_timestamp_ r).
  { intros nv Hin. eapply node_ok_oldest, Hseen, Hin. }
  unfold Evict_visit.
  destruct (is_evictable_ n) eqn:Hev; cycle 1.
  { exists st. split; [done|]. apply scan_ok_keep; [done| |].
    - unfold evictable. congruence.
    - unfold evictable. congruence. }
  destruct (found st) eqn:Hfound; cycle 1.
  { rewrite Hfront. simpl. eexists. split; [done|].
    assert (Hd : diff st = 0).
    { unfold scan_ok in Hst. rewrite Hfound in Hst. by destruct Hst. }
    apply (scan_ok_take r seen st); [done|done| |congruence].
    rewrite Hwrap, Hd.
    destruct (bool_decide_reflect (LRUKNode.k_ n = k_ r));
      destruct (bool_decide_reflect (LRUKNode.k_ n < k_ r)); lia. }
  destruct (bool_decide_reflect (diff st = 0)) as [Hd|Hd].
  - destruct (bool_decide_reflect (LRUKNode.k_ n < k_ r)) as [Hlt|Hlt].
    + rewrite Hfront. simpl.
      destruct (bool_decide_reflect (earliest_timestamp st > oldest n)) as [Hgt|Hgt].
      * eexists. split; [done|].
        apply (scan_ok_take r seen st); [done|done|by rewrite bool_decide_eq_true_2|].
        intros _ nv Hin Hearly Hdiff. specialize (Holdv nv Hin).
        apply dominates_alt.
        destruct (bool_decide_reflect (LRUKNode.k_ nv < k_ r)); lia.
      * exists st. split; [done|]. apply scan_ok_keep; [done| |congruence].
        intros _ _ nv Hin Hearly Hdiff. specialize (Holdv nv Hin).
        apply dominates_alt.
        destruct (bool_decide_reflect (LRUKNode.k_ nv < k_ r)); lia.
    + exists st. split; [done|]. apply scan_ok_keep; [done| |congruence].
      intros _ _ nv Hin Hearly Hdiff. specialize (Holdv nv Hin).
      apply dominates_alt.
      destruct (bool_decide_reflect (LRUKNode.k_ nv < k_ r)); lia.
  - destruct (bool_decide_reflect (LRUKNode.k_ n < k_ r)) as [Hlt|Hlt].
    + rewrite Hfront. simpl. eexists. split; [done|].
      apply (scan_ok_take r seen st); [done|done|by rewrite bool_decide_eq_true_2|].
      intros _ nv Hin Hearly Hdiff. specialize (Holdv nv Hin).
      apply dominates_alt.
      destruct (bool_decide_reflect (LRUKNode.k_ nv < k_ r)); lia.
    + rewrite Hfront. simpl. rewrite Hwrap.
      destruct (bool_decide_reflect (current_timestamp_ r - oldest n > diff st))
        as [Hgt|Hgt].
      * eexists. split; [done|].
        apply (scan_ok_take r seen st); [done|done|by rewrite bool_decide_eq_false_2|].
        intros _ nv Hin Hearly Hdiff. specialize (Holdv nv Hin).
        apply dominates_alt.
        destruct (bool_decide_reflect (LRUKNode.k_ nv < k_ r)); lia.
      * exists st. split; [done|]. apply scan_ok_keep; [done| |congruence].
        intros _ _ nv Hin Hearly Hdiff. specialize (Holdv nv Hin).
        apply dominates_alt.
        destruct (bool_decide_reflect (LRUKNode.k_ nv < k_ r)); lia.
Qed.

Lemma Evict_loop_ok r its : ∀ seen st,
  0 ≤ current_timestamp_ r < SIZE_MAX_plus_1 →
  (∀ f n, (f, n) ∈ seen ++ its → node_ok r n) →
  scan_ok r seen st →
  ∃ st', Evict_loop r st its = Ok st' ∧ scan_ok r (seen ++ its) st'.
Proof.
  induction its as [|[f n] its IH]; intros seen st Hts Hall Hst.
  - exists st. by rewrite app_nil_r.
  - destruct (Evict_visit_ok r seen st f n) as (st1 & Hv & Hst1); try done.
    { intros f' n' Hin. apply (Hall f' n'), elem_of_app. by left. }
    { apply (Hall f n), elem_of_app. right. apply list_elem_of_here. }
    destruct (IH (seen ++ [(f, n)]) st1) as (st2 & Hl & Hst2); try done.
    { intros f' n' Hin. apply (Hall f' n'). by rewrite <-app_assoc in Hin. }
    exists st2. split; [|by rewrite <-app_assoc in Hst2].
    change (Evict_loop r st ((f, n) :: its))
      with (Evict_visit r st (f, n) ≫= λ st', Evict_loop r st' its).
    by rewrite Hv.
Qed.

Lemma evictable_count_zero r :
  evictable_count r = 0 ↔ ∀ f n, node_store_ r !! f = Some n → ¬ evictable n.
Proof.
  unfold evictable_count.
  rewrite <-Nat2Z.inj_0, Nat2Z.inj_iff, map_size_empty_iff, map_empty.
  split.
  - intros H f n Hf Hev.
    specialize (H f). apply map_lookup_filter_None in H as [H|H]; [congruence|].
    by apply (H n).
  - intros H f. apply map_lookup_filter_None. right. intros n Hf. apply (H f n Hf).
Qed.


Lemma filter_evictable_lookup (m : gmap Z LRUKNode.t) f :
  filter (λ it : Z * LRUKNode.t, evictable it.2) m !! f
  = match m !! f with
    | Some n => if is_evictable_ n then Some n else None
    | None => None
    end.
Proof.
  destruct (m !! f) as [n|] eqn:Hf.
  - destruct (is_evictable_ n) eqn:Hev.
    + by apply map_lookup_filter_Some.
    + apply map_lookup_filter_None. right. intros n' ?. simplify_eq.
      unfold evictable. simpl. congruence.
  - apply map_lookup_filter_None. by left.
Qed.

Lemma size_filter_delete (m : gmap Z LRUKNode.t) f :
  Z.of_nat (size (filter (λ it : Z * LRUKNode.t, evictable it.2) (delete f m)))
  = Z.of_nat (size (filter (λ it : Z * LRUKNode.t, evictable it.2) m)) - flag (m !! f).
Proof.
  rewrite map_filter_delete, map_size_delete, filter_evictable_lookup.
  destruct (m !! f) as [n|] eqn:Hf; simpl; [|lia].
  destruct (is_evictable_ n) eqn:Hev; simpl; [|lia].
  assert (size (filter (λ it : Z * LRUKNode.t, evictable it.2) m) ≠ 0%nat); [|lia].
  apply map_size_non_empty_iff. intros Hempty.
  pose proof (filter_evictable_lookup m f) as Hl.
  rewrite Hempty, lookup_empty, Hf, Hev in Hl. done.
Qed.

Lemma size_filter_insert (m : gmap Z LRUKNode.t) f n :
  Z.of_nat (size (filter (λ it : Z * LRUKNode.t, evictable it.2) (<[f := n]> m)))
  = Z.of_nat (size (filter (λ it : Z * LRUKNode.t, evictable it.2) m))
    - flag (m !! f) + flag (Some n).
Proof.
  rewrite map_filter_insert. case_decide as Hn; unfold evictable in Hn; simpl in *.
  - rewrite Hn. rewrite <-insert_delete_eq, map_size_insert_None
      by (by rewrite lookup_delete_eq).
    rewrite <-map_filter_delete, Nat2Z.inj_succ, size_filter_delete. lia.
  - apply not_true_is_false in Hn. rewrite Hn, size_filter_delete. lia.
Qed.

Lemma flag_bounds (m : gmap Z LRUKNode.t) f :
  0 ≤ flag (m !! f) ≤ Z.of_nat (size (filter (λ it : Z * LRUKNode.t, evictable it.2) m)).
Proof.
  pose proof (size_filter_delete m f). unfold flag in *.
  destruct (m !! f) as [n|]; [destruct (is_evictable_ n)|]; lia.
Qed.

Lemma to_int32_small z : - 2 ^ 31 ≤ z < 2 ^ 31 → to_int32 z = z.
Proof. intros. unfold to_int32. rewrite Z.mod_small; lia. Qed.

Lemma node_ok_mono r r' n :
  k_ r' = k_ r → current_timestamp_ r ≤ current_timestamp_ r' →
  node_ok r n → node_ok r' n.
Proof.
  intros Hk Hts (H1 & H2 & H3 & H4). repeat split; try done; [lia|].
  eapply Forall_impl; [done|]. simpl. lia.
Qed.


Lemma RecordAccess_ok r f :
  inv r → f ≤ to_int32 (replacer_size_ r) →
  LRUKReplacer.RecordAccess f r =
    Ok {| node_store_ := <[f := accessed r f (node_store_ r !! f)]> (node_store_ r);
          current_timestamp_ := size_t_wrap (current_timestamp_ r + 1);
          curr_size_ := curr_size_ r;
          replacer_size_ := replacer_size_ r;
          k_ := k_ r |}.
Proof.
  intros (HK & Hts & Hsz & Hnodes & Hcount) Hf. unfold RecordAccess.
  rewrite bool_decide_eq_false_2 by lia.
  destruct (node_store_ r !! f) as [n|] eqn:Hn; simpl; [|done].
  destruct (Hnodes _ _ Hn) as (Hne & Hlen & Hle & Hall).
  unfold SIZE_MAX_plus_1 in *.
  case_bool_decide as Hfull; simpl.
  - destruct (history_ n) as [|ts h] eqn:Hh; [done|]. simpl.
    rewrite (size_t_wrap_small (_ - 1)) by (unfold SIZE_MAX_plus_1; lia).
    rewrite size_t_wrap_small by (unfold SIZE_MAX_plus_1; lia).
    do 4 f_equal. lia.
  - rewrite size_t_wrap_small by (unfold SIZE_MAX_plus_1; lia). done.
Qed.

Lemma accessed_ok r r' f o :
  1 ≤ k_ r → k_ r' = k_ r → 0 ≤ current_timestamp_ r →
  current_timestamp_ r' = current_timestamp_ r + 1 →
  (∀ n, o = Some n → node_ok r n) →
  node_ok r' (accessed r f o).
Proof.
  intros HK Hk Hts0 Hts Ho. destruct o as [n|]; simpl.
  - destruct (Ho n eq_refl) as (Hne & Hlen & Hle & Hall).
    assert (Hall' : Forall (λ ts, 0 ≤ ts < current_timestamp_ r') (history_ n)).
    { eapply Forall_impl; [done|]. simpl. lia. }
    case_bool_decide as Hfull; repeat split; simpl.
    + by destruct (tail (history_ n)).
    + rewrite length_app. simpl. destruct (history_ n); simpl in *; [done|lia].
    + lia.
    + apply Forall_app. split; [|repeat constructor; lia].
      destruct (history_ n); simpl; [done|]. by inversion Hall'.
    + by destruct (history_ n).
    + rewrite length_app. simpl. lia.
    + lia.
    + apply Forall_app. split; [done|repeat constructor; lia].
  - repeat split; simpl; try done; try lia. repeat constructor; lia.
Qed.

(** [RecordAccess] keeps the invariant, as long as the clock has room. *)
Lemma RecordAccess_inv r f r' :
  inv r → current_timestamp_ r + 1 < SIZE_MAX_plus_1 →
  LRUKReplacer.RecordAccess f r = Ok r' → inv r'.
Proof.
  intros Hinv Hroom Hrun.
  assert (Hf : f ≤ to_int32 (replacer_size_ r)).
  { unfold RecordAccess in Hrun. case_bool_decide; [done|lia]. }
  rewrite RecordAccess_ok in Hrun by done. injection Hrun as <-.
  destruct Hinv as (HK & Hts & Hsz & Hnodes & Hcount).
  unfold inv, evictable_count in *. simpl.
  rewrite size_t_wrap_small by lia.
  split; [done|]. split; [lia|]. split; [done|]. split.
  - apply map_Forall_insert_2.
    + apply accessed_ok; simpl; try done; try lia.
      intros n Hn. by apply (Hnodes f).
    + intros f' n' Hn'. eapply node_ok_mono, Hnodes; [done| |done]. simpl. lia.
  - rewrite size_filter_insert, Hcount.
    destruct (node_store_ r !! f) as [n|]; simpl; [|lia].
    case_bool_decide; simpl; lia.
Qed.

Lemma SetEvictable_inv r f e r' :
  inv r → curr_size_ r + 1 < SIZE_MAX_plus_1 →
  SetEvictable f e r = Ok r' → inv r'.
Proof.
  intros (HK & Hts & Hsz & Hnodes & Hcount) Hroom Hrun. unfold SetEvictable in Hrun.
  destruct (node_store_ r !! f) as [n|] eqn:Hn; [|done]. injection Hrun as <-.
  pose proof (flag_bounds (node_store_ r) f) as Hflag.
  pose proof (size_filter_insert (node_store_ r) f
                (LRUKNode.mk (history_ n) (LRUKNode.k_ n) (fid_ n) e)) as Hins.
  unfold inv, evictable_count in *. simpl in *. rewrite Hn in *. simpl in *.
  assert (Hnode : node_ok r (LRUKNode.mk (history_ n) (LRUKNode.k_ n) (fid_ n) e)).
  { destruct (Hnodes _ _ Hn) as (? & ? & ? & ?). by repeat split. }
  split; [done|]. split; [done|].
  destruct (is_evictable_ n), e; simpl in *;
    rewrite ?size_t_wrap_small by lia;
    (split; [lia|]); (split; [|lia]);
    (apply map_Forall_insert_2; [done|]); intros f' n' Hn'; by apply (Hnodes f').
Qed.

Lemma Remove_inv r f r' :
  inv r → Remove f r = Ok r' → inv r'.
Proof.
  intros (HK & Hts & Hsz & Hnodes & Hcount) Hrun. unfold Remove in Hrun.
  destruct (node_store_ r !! f) as [n|] eqn:Hn; [|by injection Hrun as <-].
  destruct (is_evictable_ n) eqn:Hev; [|done]. injection Hrun as <-.
  pose proof (flag_bounds (node_store_ r) f) as Hflag.
  pose proof (size_filter_delete (node_store_ r) f) as Hdel.
  unfold inv, evictable_count in *. simpl in *. rewrite Hn in *. simpl in *.
  rewrite Hev in *. rewrite size_t_wrap_small by lia.
  split; [done|]. split; [done|]. split; [lia|]. split; [|lia].
  by apply map_Forall_delete.
Qed.

Lemma evicted_inv r v n :
  inv r → node_store_ r !! v = Some n → evictable n → inv (evicted v r).
Proof.
  intros (HK & Hts & Hsz & Hnodes & Hcount) Hn Hev.
  pose proof (flag_bounds (node_store_ r) v) as Hflag.
  pose proof (size_filter_delete (node_store_ r) v) as Hdel.
  unfold inv, evictable_count, evictable in *. simpl in *. rewrite Hn in *.
  simpl in *. rewrite Hev in *.
  split; [done|]. split; [done|]. split; [lia|]. split; [|lia].
  by apply map_Forall_delete.
Qed.

Lemma new_inv num_frames k : 1 ≤ k < SIZE_MAX_plus_1 → inv (new num_frames k).
Proof.
  intros Hk. unfold inv, evictable_count. simpl.
  split; [done|]. unfold SIZE_MAX_plus_1.
  split; [lia|]. split; [lia|]. split; [apply map_Forall_empty|].
  by rewrite map_filter_empty, map_size_empty.
Qed.
End replacer.

Section replacer_properties.
Import LRUKNode LRUKReplacer LRUKSpec Scenario.

(** What [Evict] does in a replacer that satisfies its invariant, whatever
    the order in which the node store is walked. *)
Lemma Evict_in_spec order frame_id0 r :
  inv r →
  order ≡ₚ map_to_list (node_store_ r) →
  ((∃ f n, node_store_ r !! f = Some n ∧ evictable n) →
     ∃ v nv, Evict_in order frame_id0 r = Ok (true, v, evicted v r) ∧
             node_store_ r !! v = Some nv ∧ evictable nv ∧
             ∀ f n, node_store_ r !! f = Some n → evictable n → dominates r nv n) ∧
  ((∀ f n, node_store_ r !! f = Some n → ¬ evictable n) →
     Evict_in order frame_id0 r = Ok (false, frame_id0, r)).
Proof.
  intros (HK & Hts & Hsz & Hnodes & Hcount) Hperm.
  assert (Hmem : ∀ f n, (f, n) ∈ order ↔ node_store_ r !! f = Some n).
  { intros f n. by rewrite Hperm, elem_of_map_to_list. }
  split.
  - intros (f0 & n0 & Hf0 & Hev0).
    unfold Evict_in. case_bool_decide as Hzero.
    { rewrite Hcount in Hzero. exfalso. by eapply evictable_count_zero. }
    destruct (Evict_loop_ok r order [] (mk_scan false 0 0 frame_id0)) as (st & -> & Hst);
      try done.
    { intros f n Hin. apply (Hnodes f n). by apply Hmem. }
    { split; [done|]. intros ?? Hin. by apply not_elem_of_nil in Hin. }
    simpl in *. unfold scan_ok in Hst. destruct (found st).
    + destruct Hst as (nv & Hin & Hnv & _ & _ & Hdom).
      exists (frame_id st), nv. split; [|split; [by apply Hmem|split; [done|]]].
      * unfold evicted. rewrite size_t_wrap_small by lia. done.
      * intros f n Hf. apply (Hdom f n). by apply Hmem.
    + destruct Hst as [_ Hnone]. exfalso. apply (Hnone f0 n0); [by apply Hmem|done].
  - intros Hnone. unfold Evict_in.
    apply evictable_count_zero in Hnone. rewrite <-Hcount in Hnone.
    by rewrite bool_decide_eq_true_2.
Qed.

(** [Evict] keeps the invariant. *)
Lemma Evict_in_inv order frame_id0 r res frame_id r' :
  inv r → order ≡ₚ map_to_list (node_store_ r) →
  Evict_in order frame_id0 r = Ok (res, frame_id, r') → inv r'.
Proof.
  intros Hinv Hperm Hrun.
  destruct (Evict_in_spec order frame_id0 r Hinv Hperm) as [Hsome Hnone].
  destruct (decide (evictable_count r = 0)) as [Hzero|Hpos].
  - rewrite Hnone in Hrun; [by injection Hrun as <- <- <-|].
    by apply evictable_count_zero.
  - destruct Hsome as (v & nv & Hev & Hv & Hnv & _).
    { unfold evictable_count in Hpos.
      destruct (map_choose (filter (λ it : Z * LRUKNode.t, evictable it.2)
                              (node_store_ r))) as (f & n & Hf).
      { apply map_size_non_empty_iff. lia. }
      apply map_lookup_filter_Some in Hf as [Hf Hn]. by exists f, n. }
    rewrite Hev in Hrun. injection Hrun as <- <- <-. by eapply evicted_inv.
Qed.

(** C3. In a replacer that satisfies its invariant, whatever the order in
    which the node store is walked: when some frame is evictable, [Evict]
    returns an evictable frame of maximum backward k-distance (a frame with
    fewer than K accesses beats every frame with K accesses; among frames
    with fewer than K accesses the smallest oldest timestamp wins; among
    frames with K accesses the largest [current_timestamp - oldest of the
    last K] wins), erases its node and decrements [curr_size_]; when no
    frame is evictable it returns false and changes nothing. *)
Theorem Evict_max_backward_k_distance order frame_id0 r :
  inv r →
  order ≡ₚ map_to_list (node_store_ r) →
  ((∃ f n, node_store_ r !! f = Some n ∧ evictable n) →
     ∃ v nv, Evict_in order frame_id0 r = Ok (true, v, evicted v r) ∧
             node_store_ r !! v = Some nv ∧ evictable nv ∧
             ∀ f n, node_store_ r !! f = Some n → evictable n → dominates r nv n) ∧
  ((∀ f n, node_store_ r !! f = Some n → ¬ evictable n) →
     Evict_in order frame_id0 r = Ok (false, frame_id0, r)).
Proof. apply Evict_in_spec. Qed.

Lemma replacer_example_inv : inv replacer_example.
Proof.
  unfold inv, SIZE_MAX_plus_1. simpl.
  split; [lia|]. split; [lia|]. split; [lia|]. split; [|by vm_compute].
  apply map_Forall_to_list.
  let l := eval vm_compute in (map_to_list (node_store_ replacer_example)) in
  change (map_to_list (node_store_ replacer_example)) with l.
  repeat (apply Forall_cons; split;
          [unfold node_ok; simpl; split; [done|]; split; [done|]; split; [lia|];
           repeat constructor; lia|]).
  apply Forall_nil_2.
Defined.

Lemma Evict_max_backward_k_distance_witness :
  ∃ v nv,
    Evict_in (map_to_list (node_store_ replacer_example)) INVALID_FRAME_ID
             replacer_example = Ok (true, v, evicted v replacer_example) ∧
    node_store_ replacer_example !! v = Some nv ∧ evictable nv ∧
    ∀ f n, node_store_ replacer_example !! f = Some n → evictable n →
           dominates replacer_example nv n.
Proof.
  apply (Evict_max_backward_k_distance
           (map_to_list (node_store_ replacer_example)) INVALID_FRAME_ID
           replacer_example replacer_example_inv (reflexivity _)).
  exists 0, (LRUKNode.mk [0; 1] 2 0 true). by vm_compute.
Defined.

(** The run of the example picks frame 2: fewer than K accesses, and the
    oldest of those. *)
Example Evict_example :
  Evict INVALID_FRAME_ID replacer_example = Ok (true, 2, evicted 2 replacer_example).
Proof. by vm_compute. Qed.
End replacer_properties.

(** * The buffer pool *)

Section pool.
Import BufferPoolManager BPMSpec.

Lemma page_at_Ok i b p :
  page_at i b = Ok p ↔ 0 ≤ i ∧ pages_ b !! Z.to_nat i = Some p.
Proof.
  unfold page_at. case_bool_decide as Hi.
  - destruct (pages_ b !! Z.to_nat i) as [q|].
    + split; [by intros [= ->]|by intros [_ [= ->]]].
    + split; [done|by intros [_ ?]].
  - split; [done|by intros [? _]].
Qed.

Lemma modify_page_Ok i f b p :
  page_at i b = Ok p →
  modify_page i f b = Ok (set_pages (<[Z.to_nat i := f p]> (pages_ b)) b).
Proof. intros Hp. unfold modify_page. by rewrite Hp. Qed.

Lemma page_at_set_pages_insert i b p q :
  page_at i b = Ok p →
  page_at i (set_pages (<[Z.to_nat i := q]> (pages_ b)) b) = Ok q.
Proof.
  intros [Hi Hp]%page_at_Ok. apply page_at_Ok. split; [done|]. simpl.
  apply list_lookup_insert_eq. by eapply lookup_lt_Some.
Qed.

Lemma page_at_insert i ps b q :
  0 ≤ i → (Z.to_nat i < length ps)%nat →
  page_at i (set_pages (<[Z.to_nat i := q]> ps) b) = Ok q.
Proof.
  intros Hi Hlen. apply page_at_Ok. split; [done|]. simpl.
  by apply list_lookup_insert_eq.
Qed.

Lemma page_at_set_page_table i pt b : page_at i (set_page_table pt b) = page_at i b.
Proof. done. Qed.
Lemma page_at_set_replacer i r b : page_at i (set_replacer r b) = page_at i b.
Proof. done. Qed.
Lemma page_at_set_disk i d b : page_at i (set_disk d b) = page_at i b.
Proof. done. Qed.

(** Two writes to the same frame in a row. *)
Lemma modify_page_twice i f g b p :
  page_at i b = Ok p →
  (b' ← modify_page i f b; modify_page i g b')
  = Ok (set_pages (<[Z.to_nat i := g (f p)]> (pages_ b)) b).
Proof.
  intros Hp. rewrite (modify_page_Ok _ _ _ _ Hp). simpl.
  rewrite (modify_page_Ok _ _ _ (f p)) by by apply (page_at_set_pages_insert _ _ p).
  simpl. unfold set_pages. simpl. by rewrite list_insert_insert_eq.
Qed.

Lemma FlushPage_absent page_id b :
  page_table_ b !! page_id = None → FlushPage page_id b = Ok (false, b).
Proof. intros H. unfold FlushPage. by rewrite H. Qed.

(** A flush of a resident page: the frame's bytes go to disk, then the
    frame is zeroed and marked clean. *)
Lemma FlushPage_resident page_id frame_id p b :
  page_table_ b !! page_id = Some frame_id →
  page_at frame_id b = Ok p →
  FlushPage page_id b = Ok (true, flushed page_id frame_id p b).
Proof.
  intros Ht Hp. unfold FlushPage, write_back. rewrite Ht, Hp. simpl.
  rewrite (modify_page_Ok _ _ _ p) by done. simpl.
  rewrite (modify_page_Ok _ _ _ (Page.ResetMemory p))
    by by apply (page_at_set_pages_insert _ (set_disk _ b) p).
  simpl. unfold flushed, set_pages. simpl. by rewrite list_insert_insert_eq.
Qed.

Lemma DeletePage_absent page_id b :
  page_table_ b !! page_id = None → DeletePage page_id b = Ok (true, b).
Proof. intros H. unfold DeletePage. by rewrite H. Qed.

Lemma DeletePage_pinned page_id frame_id p b :
  page_table_ b !! page_id = Some frame_id →
  page_at frame_id b = Ok p → Page.pin_count_ p > 0 →
  DeletePage page_id b = Ok (false, b).
Proof.
  intros Ht Hp Hpin. unfold DeletePage. rewrite Ht, Hp. simpl.
  by rewrite bool_decide_eq_true_2.
Qed.

Lemma DeletePage_unpinned page_id frame_id p r b :
  page_table_ b !! page_id = Some frame_id →
  page_at frame_id b = Ok p → ¬ Page.pin_count_ p > 0 →
  LRUKReplacer.Remove frame_id (replacer_ b) = Ok r →
  DeletePage page_id b = Ok (true, deleted page_id frame_id p r b).
Proof.
  intros Ht Hp Hpin Hr. unfold DeletePage. rewrite Ht, Hp. simpl.
  rewrite bool_decide_eq_false_2 by done.
  assert (Hlen : (Z.to_nat frame_id < length (pages_ b))%nat).
  { apply page_at_Ok in Hp as [_ Hp]. by eapply lookup_lt_Some. }
  assert (Hgo : ∀ b0, pages_ b0 = pages_ b → replacer_ b0 = replacer_ b →
    (r' ← LRUKReplacer.Remove frame_id (replacer_ (set_page_table (delete page_id (page_table_ b0)) b0));
     let b1 := set_replacer r' (set_page_table (delete page_id (page_table_ b0)) b0) in
     b1 ← modify_page frame_id (Page.set_is_dirty false) b1;
     b1 ← modify_page frame_id (Page.set_pin_count 0) b1;
     b1 ← modify_page frame_id (Page.set_page_id INVALID_PAGE_ID) b1;
     b1 ← modify_page frame_id Page.ResetMemory b1;
     let b1 := set_free_list (free_list_ b1 ++ [frame_id]) b1 in
     let b1 := DeallocatePage page_id b1 in
     Ok (true, b1))
    = Ok (true, {| pool_size_ := pool_size_ b0;
                   pages_ := <[Z.to_nat frame_id := cleared p]> (pages_ b);
                   page_table_ := delete page_id (page_table_ b0);
                   free_list_ := free_list_ b0 ++ [frame_id];
                   replacer_ := r;
                   next_page_id_ := next_page_id_ b0;
                   disk_ := disk_ b0 |})).
  { intros b0 Hpages Hrep. simpl. rewrite Hrep, Hr. simpl.
    assert (Hi : 0 ≤ frame_id) by by apply page_at_Ok in Hp as [? _].
    rewrite (modify_page_Ok _ _ _ p)
      by (apply page_at_Ok; simpl; rewrite Hpages; by apply page_at_Ok).
    simpl.
    rewrite (modify_page_Ok _ _ _ (Page.set_is_dirty false p))
      by (apply page_at_insert; [done|by rewrite Hpages]).
    simpl.
    rewrite (modify_page_Ok _ _ _ (Page.set_pin_count 0 (Page.set_is_dirty false p)))
      by (apply page_at_insert; [done|by rewrite length_insert, Hpages]).
    simpl.
    rewrite (modify_page_Ok _ _ _
               (Page.set_page_id INVALID_PAGE_ID
                  (Page.set_pin_count 0 (Page.set_is_dirty false p))))
      by (apply page_at_insert; [done|by rewrite !length_insert, Hpages]).
    simpl. unfold DeallocatePage, set_free_list, set_pages. simpl.
    rewrite !list_insert_insert_eq, Hpages. done. }
  destruct (Page.is_dirty_ p) eqn:Hd.
  - unfold write_back. rewrite Hp.
    etrans; [exact (Hgo (set_disk _ b) eq_refl eq_refl)|].
    unfold deleted. by rewrite Hd.
  - etrans; [exact (Hgo b eq_refl eq_refl)|].
    unfold deleted. by rewrite Hd.
Qed.
End pool.

Section scenarios.
Import BufferPoolManager Scenario.

Lemma unpinned_run : unpinned = Ok unpinned_pool.
Proof. by vm_compute. Qed.
Lemma refetched_run : refetched = Ok refetched_pool.
Proof. by vm_compute. Qed.
Lemma fetched_run : fetched = Ok fetched_pool.
Proof. by vm_compute. Qed.
Lemma dirty_run : dirty_page_2 = Ok dirty_pool.
Proof. by vm_compute. Qed.

Lemma image_not_zeroes : image ≠ Page.zeroes.
Proof. intros H. apply (f_equal (hd x00)) in H. vm_compute in H. discriminate. Qed.
End scenarios.

Section replacer_guard.
Import LRUKNode LRUKReplacer LRUKSpec.

Lemma RecordAccess_throws r f :
  f > to_int32 (replacer_size_ r) →
  LRUKReplacer.RecordAccess f r
  = Fail (Exception "RecordAccess: frame_id is bigger than replacer_size_").
Proof. intros H. unfold RecordAccess. by rewrite bool_decide_eq_true_2. Qed.

(** Frame ids of the pool are never rejected. *)
Lemma RecordAccess_valid r f :
  inv r → 0 ≤ f < replacer_size_ r → replacer_size_ r < 2 ^ 31 →
  succeeds (RecordAccess f r).
Proof.
  intros Hinv Hf Hsz. eexists. apply RecordAccess_ok; [done|].
  rewrite to_int32_small; lia.
Qed.

(** C6. The guard of [RecordAccess] is [frame_id > replacer_size_]: called
    with [frame_id = replacer_size_], one past the last frame of the pool,
    it does not throw but records the access and creates a node. *)
Theorem RecordAccess_accepts_replacer_size r :
  inv r → 0 ≤ replacer_size_ r < 2 ^ 31 →
  ∃ r', RecordAccess (replacer_size_ r) r = Ok r' ∧
        is_Some (node_store_ r' !! replacer_size_ r).
Proof.
  intros Hinv Hsz. eexists. split.
  - apply RecordAccess_ok; [done|]. rewrite to_int32_small; lia.
  - simpl. rewrite lookup_insert_eq. by eexists.
Qed.

Lemma RecordAccess_accepts_replacer_size_witness :
  ∃ r', RecordAccess 3 (LRUKReplacer.new 3 2) = Ok r' ∧
        is_Some (node_store_ r' !! 3).
Proof.
  apply (RecordAccess_accepts_replacer_size (LRUKReplacer.new 3 2)).
  - apply new_inv. unfold SIZE_MAX_plus_1. lia.
  - simpl. lia.
Defined.
End replacer_guard.

Section pool_properties.
Import BufferPoolManager BPMSpec Scenario.

(** C1. On a hit, [FetchPage] records the access, makes the frame
    non-evictable and returns it; the frame array is left as it was, so
    the dirty flag and the page id are unchanged, and so is [pin_count_]:
    it is not incremented. *)
Theorem FetchPage_hit_keeps_pin_count b page_id frame_id :
  page_table_ b !! page_id = Some frame_id →
  LRUKSpec.inv (replacer_ b) →
  frame_id ≤ to_int32 (LRUKReplacer.replacer_size_ (replacer_ b)) →
  ∃ r n, FetchPage page_id b = Ok (Some frame_id, set_replacer r b) ∧
         pages_ (set_replacer r b) = pages_ b ∧
         LRUKReplacer.node_store_ r !! frame_id = Some n ∧
         LRUKNode.is_evictable_ n = false ∧
         last (LRUKNode.history_ n)
         = Some (LRUKReplacer.current_timestamp_ (replacer_ b)).
Proof.
  intros Ht Hinv Hf. unfold FetchPage. rewrite Ht.
  rewrite RecordAccess_ok by done. simpl.
  unfold LRUKReplacer.SetEvictable. simpl. rewrite lookup_insert_eq.
  eexists _, _. split; [done|]. split; [done|]. simpl.
  rewrite lookup_insert_eq. split; [done|]. split; [done|]. simpl.
  unfold LRUKSpec.accessed.
  destruct (LRUKReplacer.node_store_ (replacer_ b) !! frame_id); simpl.
  - case_bool_decide; simpl; apply last_snoc.
  - done.
Qed.

Lemma FetchPage_hit_keeps_pin_count_witness :
  ∃ r n, FetchPage 0 unpinned_pool = Ok (Some 0, set_replacer r unpinned_pool) ∧
         pages_ (set_replacer r unpinned_pool) = pages_ unpinned_pool ∧
         LRUKReplacer.node_store_ r !! 0 = Some n ∧
         LRUKNode.is_evictable_ n = false ∧
         last (LRUKNode.history_ n) = Some 1.
Proof.
  apply (FetchPage_hit_keeps_pin_count unpinned_pool 0 0).
  - by vm_compute.
  - unfold LRUKSpec.inv, SIZE_MAX_plus_1. simpl.
    split; [lia|]. split; [lia|]. split; [lia|]. split; [|by vm_compute].
    apply map_Forall_singleton. unfold LRUKSpec.node_ok. simpl.
    split; [done|]. split; [done|]. split; [lia|]. repeat constructor; lia.
  - by vm_compute.
Defined.

(** A run through the hit path: page 0 is created and unpinned, then fetched
    again. The fetch is a hit; the pin count of the frame stays 0 where the
    specification has 1, and the frame, now non-evictable with pin count 0,
    can neither be unpinned nor evicted any more. *)
Example FetchPage_hit_run :
  unpinned = Ok unpinned_pool ∧
  FetchPage 0 unpinned_pool = Ok (Some 0, refetched_pool) ∧
  Page.pin_count_ (frame 0 unpinned_pool) = 0 ∧
  Page.pin_count_ (frame 0 refetched_pool) = 0 ∧
  UnpinPage 0 false refetched_pool = Ok (false, refetched_pool) ∧
  NewPage 0 refetched_pool = Ok (None, 0, refetched_pool).
Proof. by vm_compute. Qed.

(** C2. A flush of a resident page writes the frame's bytes to disk, then
    zeroes the frame: at the pool that has fetched page 0, stored as
    [image], [FlushPage 0] returns true with the page still resident and
    clean, the disk holds [image] and the frame holds zeroes; the next
    fetch, a hit, hands out the zeroed frame. *)
Theorem FlushPage_zeroes_the_frame :
  fetched = Ok fetched_pool ∧
  Page.data_ (frame 0 fetched_pool) = image ∧
  ∃ b', FlushPage 0 fetched_pool = Ok (true, b') ∧
        page_table_ b' !! 0 = Some 0 ∧
        Page.is_dirty_ (frame 0 b') = false ∧
        disk_ b' !! 0 = Some image ∧
        Page.data_ (frame 0 b') = Page.zeroes ∧
        Page.data_ (frame 0 b') ≠ image ∧
        ∃ b'', FetchPage 0 b' = Ok (Some 0, b'') ∧
               Page.data_ (frame 0 b'') = Page.zeroes.
Proof.
  split; [apply fetched_run|]. split; [done|].
  eexists. split; [by vm_compute|]. split; [by vm_compute|].
  split; [done|]. split; [by vm_compute|]. split; [done|].
  split; [intros H; by apply image_not_zeroes|].
  eexists. split; [by vm_compute|]. done.
Qed.

(** C4. The second loop of [FlushAllPages] indexes the frame array with
    the page id: at the pool whose only resident page is page 2, dirty in
    frame 0, the page is written to disk but frame 0 stays dirty, while
    frame 2, which holds no page, is the one reset. *)
Theorem FlushAllPages_leaves_dirty_frame :
  dirty_page_2 = Ok dirty_pool ∧
  page_table_ dirty_pool !! 2 = Some 0 ∧
  ∃ b', FlushAllPages dirty_pool = Ok b' ∧
        page_table_ b' !! 2 = Some 0 ∧
        disk_ b' !! 2 = Some image ∧
        Page.is_dirty_ (frame 0 b') = true ∧
        pages_ b' = pages_ dirty_pool.
Proof.
  split; [apply dirty_run|]. split; [by vm_compute|].
  eexists. split; [by vm_compute|]. split; [by vm_compute|].
  split; [by vm_compute|]. done.
Qed.

(** With a single frame the same call indexes outside the frame array. *)
Example FlushAllPages_out_of_bounds :
  ∃ b, FetchPage 5 (BufferPoolManager.new 1 ∅ 2) = Ok (Some 0, b) ∧
       FlushAllPages b = Fail OutOfBounds.
Proof. eexists. split; by vm_compute. Qed.

(** [DeletePage] case by case: it returns true and changes nothing when the
    page is not resident; returns false and changes nothing when it is
    resident and pinned; otherwise, when the replacer holds no node for its
    frame or an evictable one (as it does while "evictable iff pin count 0"
    holds), it writes the page back if dirty, erases the page-table entry,
    removes the frame from the replacer, clears the frame's metadata and
    memory, appends the frame to the free list and returns true. *)
Lemma DeletePage_cases page_id b :
  (page_table_ b !! page_id = None → DeletePage page_id b = Ok (true, b)) ∧
  (∀ frame_id p,
     page_table_ b !! page_id = Some frame_id → page_at frame_id b = Ok p →
     (Page.pin_count_ p > 0 → DeletePage page_id b = Ok (false, b)) ∧
     (¬ Page.pin_count_ p > 0 →
      (∀ n, LRUKReplacer.node_store_ (replacer_ b) !! frame_id = Some n →
            LRUKNode.is_evictable_ n = true) →
      ∃ r, LRUKReplacer.Remove frame_id (replacer_ b) = Ok r ∧
           LRUKReplacer.node_store_ r
           = delete frame_id (LRUKReplacer.node_store_ (replacer_ b)) ∧
           DeletePage page_id b = Ok (true, deleted page_id frame_id p r b))).
Proof.
  split; [apply DeletePage_absent|].
  intros frame_id p Ht Hp. split; [by apply (DeletePage_pinned _ frame_id)|].
  intros Hpin Hev.
  assert (∃ r, LRUKReplacer.Remove frame_id (replacer_ b) = Ok r ∧
               LRUKReplacer.node_store_ r
               = delete frame_id (LRUKReplacer.node_store_ (replacer_ b)))
    as (r & Hr & Hstore).
  { unfold LRUKReplacer.Remove.
    destruct (LRUKReplacer.node_store_ (replacer_ b) !! frame_id) as [n|] eqn:Hn.
    - rewrite (Hev n eq_refl). simpl. by eexists.
    - eexists. split; [done|]. symmetry. by apply delete_id. }
  exists r. split; [done|]. split; [done|]. by apply DeletePage_unpinned.
Qed.

(** Deleting the page that was created and unpinned succeeds. *)
Example DeletePage_unpinned_run :
  ∃ r, LRUKReplacer.Remove 0 (replacer_ unpinned_pool) = Ok r ∧
       LRUKReplacer.node_store_ r
       = delete 0 (LRUKReplacer.node_store_ (replacer_ unpinned_pool)) ∧
       DeletePage 0 unpinned_pool
       = Ok (true, deleted 0 0 (frame 0 unpinned_pool) r unpinned_pool).
Proof.
  apply (proj2 (DeletePage_cases 0 unpinned_pool) 0 (frame 0 unpinned_pool)).
  - by vm_compute.
  - by vm_compute.
  - vm_compute. congruence.
  - intros n Hn. vm_compute in Hn. by injection Hn as <-.
Qed.

(** C5. In the pool reached by creating page 0, unpinning it and fetching
    it again, page 0 is resident with pin count 0, the case in which
    [DeletePage] is to free the frame and return true: it erases the
    page-table entry and then throws out of [LRUKReplacer::Remove], the hit
    path of [FetchPage] having left the frame non-evictable without pinning
    it. *)
Theorem DeletePage_throws_on_non_evictable :
  refetched = Ok refetched_pool ∧
  page_table_ refetched_pool !! 0 = Some 0 ∧
  Page.pin_count_ (frame 0 refetched_pool) = 0 ∧
  DeletePage 0 refetched_pool
  = Fail (Exception "Remove: is called on a non-evictable frame") ∧
  ¬ ∃ b', DeletePage 0 refetched_pool = Ok (true, b').
Proof.
  split; [apply refetched_run|]. split; [by vm_compute|]. split; [done|].
  assert (H : DeletePage 0 refetched_pool
              = Fail (Exception "Remove: is called on a non-evictable frame"))
    by by vm_compute.
  split; [done|]. intros [b' Hb']. congruence.
Qed.
End pool_properties.

Section guard_properties.
Import BufferPoolManager BasicPageGuard Scenario.

(** C10. [UpgradeRead] and [UpgradeWrite] dereference the page pointer
    without a test: on an empty guard (null page pointer) both dereference
    null, while [Drop] and the destructor leave the pool alone and only
    reset the guard; on a guard whose page pointer is a frame of the pool
    neither dereferences null, and with the latch free both succeed, hand
    the page over and leave the source empty. *)
Theorem Upgrade_needs_a_page g b :
  (page_ g = None →
     UpgradeRead g b = Fail NullDereference ∧
     UpgradeWrite g b = Fail NullDereference ∧
     Drop g b = Ok (Reset g, b) ∧
     destroy g b = Ok (Reset g, b)) ∧
  (∀ i p, page_ g = Some i → page_at i b = Ok p →
     UpgradeRead g b ≠ Fail NullDereference ∧
     UpgradeWrite g b ≠ Fail NullDereference ∧
     (Page.rwlatch_ p = ReaderWriterLatch.free →
        (∃ b', UpgradeRead g b = Ok (mk (bpm_ g) (Some i) false, Reset g, b')) ∧
        (∃ b', UpgradeWrite g b = Ok (mk (bpm_ g) (Some i) false, Reset g, b')))).
Proof.
  split.
  - intros Hnull. unfold destroy, Drop, UpgradeRead, UpgradeWrite.
    rewrite Hnull. simpl. rewrite andb_false_r. done.
  - intros i p Hsome Hp. unfold UpgradeRead, UpgradeWrite, RLatch, WLatch.
    rewrite Hsome, Hp. simpl.
    unfold modify_page. rewrite Hp. simpl.
    split; [|split].
    + unfold ReaderWriterLatch.RLock.
      destruct (ReaderWriterLatch.writer (Page.rwlatch_ p)); simpl; congruence.
    + unfold ReaderWriterLatch.WLock.
      destruct (ReaderWriterLatch.writer (Page.rwlatch_ p)); simpl; [congruence|].
      case_bool_decide; simpl; congruence.
    + intros ->. simpl. split; by eexists.
Qed.

Lemma Upgrade_needs_a_page_witness :
  (UpgradeRead (make None) fetched_pool = Fail NullDereference ∧
   UpgradeWrite (make None) fetched_pool = Fail NullDereference ∧
   Drop (make None) fetched_pool = Ok (Reset (make None), fetched_pool) ∧
   destroy (make None) fetched_pool = Ok (Reset (make None), fetched_pool)) ∧
  (UpgradeRead (make (Some 0)) fetched_pool ≠ Fail NullDereference ∧
   UpgradeWrite (make (Some 0)) fetched_pool ≠ Fail NullDereference ∧
   (Page.rwlatch_ (frame 0 fetched_pool) = ReaderWriterLatch.free →
      (∃ b', UpgradeRead (make (Some 0)) fetched_pool
             = Ok (mk true (Some 0) false, Reset (make (Some 0)), b')) ∧
      (∃ b', UpgradeWrite (make (Some 0)) fetched_pool
             = Ok (mk true (Some 0) false, Reset (make (Some 0)), b')))).
Proof.
  split.
  - by apply (proj1 (Upgrade_needs_a_page (make None) fetched_pool)).
  - by apply (proj2 (Upgrade_needs_a_page (make (Some 0)) fetched_pool) 0
                (frame 0 fetched_pool)).
Defined.
End guard_properties.

(** * The persistent trie *)

Section trie.
Import Trie TrieSpec.
Local Open Scope nat_scope.
Implicit Types (h : heap) (l : nat) (key : list ascii).

Lemma deref_lookup h l n : h !! l = Some n → deref h l = n.
Proof. unfold deref. by intros ->. Qed.

Lemma lookup_deref h l : l < length h → h !! l = Some (deref h l).
Proof.
  intros Hl. destruct (lookup_lt_is_Some_2 h l Hl) as [n Hn].
  by rewrite (deref_lookup _ _ _ Hn).
Qed.

Lemma deref_app_l h h' l : l < length h → deref (h ++ h') l = deref h l.
Proof. intros Hl. unfold deref. by rewrite lookup_app_l. Qed.

Lemma deref_alloc h n : deref (h ++ [n]) (length h) = n.
Proof. unfold deref. by rewrite list_lookup_middle. Qed.

Lemma deref_alter_eq f h l : l < length h → deref (alter f l h) l = f (deref h l).
Proof.
  intros Hl. unfold deref. rewrite list_lookup_alter_eq, (lookup_deref _ _ Hl). done.
Qed.

Lemma deref_alter_ne f h l l' : l ≠ l' → deref (alter f l h) l' = deref h l'.
Proof. intros Hl. unfold deref. by rewrite list_lookup_alter_ne. Qed.

Lemma children_set_child c l n : children_ (set_child c l n) = <[c := l]> (children_ n).
Proof. by destruct n. Qed.
Lemma value_of_set_child c l n : value_of (set_child c l n) = value_of n.
Proof. by destruct n. Qed.
Lemma children_erase_child c n : children_ (erase_child c n) = delete c (children_ n).
Proof. by destruct n. Qed.
Lemma value_of_erase_child c n : value_of (erase_child c n) = value_of n.
Proof. by destruct n. Qed.
Lemma is_value_node_value_of n : is_value_node_ n = false ↔ value_of n = None.
Proof. by destruct n. Qed.

Lemma heap_ok_closed h : heap_ok h ↔ closed_below (length h) h.
Proof.
  split.
  - intros Hok l c l' Hl Hc. by eapply (Hok l), Hc; apply lookup_deref.
  - intros Hcl l n c l' Hn Hc. apply (Hcl l c); [by eapply lookup_lt_Some|].
    by rewrite (deref_lookup _ _ _ Hn).
Qed.

Lemma extends_refl h : extends h h.
Proof. by split. Qed.

Lemma extends_trans h1 h2 h3 : extends h1 h2 → extends h2 h3 → extends h1 h3.
Proof.
  intros [Hl1 H1] [Hl2 H2]. split; [lia|].
  intros l Hl. rewrite H2 by lia. by apply H1.
Qed.

(** A walk that starts below [n] in a store closed below [n] stays there,
    and only depends on the nodes below [n]. *)
Lemma Get_walk_below n h key : ∀ l l',
  closed_below n h → l < n → Get_walk h l key = Some l' → l' < n.
Proof.
  induction key as [|c key IH]; intros l l' Hcl Hl Hw; simpl in Hw.
  - by injection Hw as <-.
  - destruct (children_ (deref h l) !! c) as [next|] eqn:Hc; [|done].
    eapply IH; [done| |done]. by eapply Hcl.
Qed.

Lemma Get_walk_agree n h h' key : ∀ l,
  closed_below n h → (∀ l, l < n → deref h' l = deref h l) → l < n →
  Get_walk h' l key = Get_walk h l key.
Proof.
  induction key as [|c key IH]; intros l Hcl Hag Hl; simpl; [done|].
  rewrite Hag by done.
  destruct (children_ (deref h l) !! c) as [next|] eqn:Hc; [|done].
  apply IH; [done|done|]. by eapply Hcl.
Qed.

Lemma view_walk_agree n h h' key o :
  closed_below n h → (∀ l, l < n → deref h' l = deref h l) →
  (∀ l, o = Some l → l < n) →
  view h' (walk h' o key) = view h (walk h o key).
Proof.
  intros Hcl Hag Ho. destruct o as [l|]; [|done]. simpl.
  rewrite (Get_walk_agree n h h') by auto.
  destruct (Get_walk h l key) as [l'|] eqn:Hw; [|done]. simpl.
  rewrite Hag; [done|]. eapply Get_walk_below; eauto.
Qed.

Lemma closed_below_agree n h h' :
  closed_below n h → (∀ l, l < n → deref h' l = deref h l) → closed_below n h'.
Proof. intros Hcl Hag l c l' Hl. rewrite Hag by done. by apply Hcl. Qed.

(** A node with the children of [o] continues every non-empty key as [o]
    does. *)
Lemma Get_walk_same_children h l o c key :
  children_ (deref h l) = children_ (clone_of h o) →
  Get_walk h l (c :: key) = walk h o (c :: key).
Proof.
  intros Hch. simpl. rewrite Hch. destruct o as [lo|]; simpl; [done|].
  by rewrite lookup_empty.
Qed.

Lemma walk_cons h o c key : walk h o (c :: key) = walk h (child_of h o c) key.
Proof.
  destruct o as [l|]; [|done]. simpl.
  by destruct (children_ (deref h l) !! c).
Qed.

Lemma children_clone_of h o c : children_ (clone_of h o) !! c = child_of h o c.
Proof. destruct o; [done|]. simpl. apply lookup_empty. Qed.

Lemma child_of_below n h o c l' :
  closed_below n h → (∀ l, o = Some l → l < n) → child_of h o c = Some l' → l' < n.
Proof.
  intros Hcl Ho Hc. destruct o as [l|]; [|done]. simpl in Hc.
  eapply Hcl; [|done]. by apply Ho.
Qed.

Lemma clone_of_agree n h h' o :
  (∀ l, l < n → deref h' l = deref h l) → (∀ l, o = Some l → l < n) →
  clone_of h' o = clone_of h o.
Proof. intros Hag Ho. destruct o as [l|]; [|done]. simpl. by rewrite Hag by auto. Qed.

Lemma child_of_agree n h h' o c :
  (∀ l, l < n → deref h' l = deref h l) → (∀ l, o = Some l → l < n) →
  child_of h' o c = child_of h o c.
Proof. intros Hag Ho. destruct o as [l|]; [|done]. simpl. by rewrite Hag by auto. Qed.

Lemma Put_loop_cons v c rest cur nxt h :
  Put_loop v (c :: rest) cur nxt h
  = Put_loop v rest (child_of h cur c) (length h)
      (alter (set_child c (length h)) nxt
             (h ++ [Put_child v rest h (child_of h cur c)])).
Proof.
  simpl. destruct cur as [l|]; simpl.
  - destruct (children_ (deref h l) !! c); by destruct rest.
  - by destruct rest.
Qed.

(** One step of the loops of [Put] and [Remove]: a node [child] is
    allocated and linked under [c] from the node [nxt] under construction. *)
Lemma link_step n h nxt c child :
  n ≤ nxt < length h →
  let lc := length h in
  let h2 := alter (set_child c lc) nxt (h ++ [child]) in
  length h2 = S (length h) ∧
  (∀ l, l < length h → l ≠ nxt → deref h2 l = deref h l) ∧
  deref h2 nxt = set_child c lc (deref h nxt) ∧
  deref h2 lc = child ∧
  (∀ l, l < n → deref h2 l = deref h l).
Proof.
  intros Hnxt lc h2. subst lc h2.
  assert (Hframe : ∀ l, l < length h → l ≠ nxt →
            deref (alter (set_child c (length h)) nxt (h ++ [child])) l = deref h l).
  { intros l Hl Hne. rewrite deref_alter_ne by done. by apply deref_app_l. }
  split; [by rewrite length_alter, length_app; simpl; lia|].
  split; [done|]. split; [|split].
  - rewrite deref_alter_eq by (rewrite length_app; simpl; lia).
    by rewrite deref_app_l by lia.
  - rewrite deref_alter_ne by lia. apply deref_alloc.
  - intros l Hl. apply Hframe; lia.
Qed.

Lemma link_step_closed h nxt c child :
  nxt < length h →
  closed_below (length h) h →
  (∀ c' l', children_ child !! c' = Some l' → l' < length h) →
  closed_below (S (length h)) (alter (set_child c (length h)) nxt (h ++ [child])).
Proof.
  intros Hnxt Hcl Hchild l c' l' Hl.
  destruct (link_step 0 h nxt c child) as (_ & Hframe & Hn & Hc & _); [lia|].
  simpl in *.
  destruct (decide (l = nxt)) as [->|Hne].
  - rewrite Hn, children_set_child, lookup_insert.
    case_decide; [intros [= <-]; lia|].
    intros Hc'. apply Hcl in Hc'; [lia|done].
  - destruct (decide (l = length h)) as [->|Hne'].
    + rewrite Hc. intros Hc'. apply Hchild in Hc'. lia.
    + rewrite Hframe by lia. intros Hc'. apply Hcl in Hc'; lia.
Qed.

(** Walking from a node under construction whose child under [c] was just
    linked: other edges lead into the old nodes. *)
Lemma walk_off_path n h h' nxt cur c lc c2 rest2 :
  closed_below n h → (∀ l, l < n → deref h' l = deref h l) →
  (∀ l, cur = Some l → l < n) →
  deref h' nxt = set_child c lc (clone_of h cur) →
  c2 ≠ c →
  view h' (Get_walk h' nxt (c2 :: rest2)) = view h (walk h cur (c2 :: rest2)).
Proof.
  intros Hcl Hag Hcur Hn Hne. simpl.
  rewrite Hn, children_set_child, lookup_insert_ne, children_clone_of by done.
  rewrite walk_cons.
  destruct (child_of h cur c2) as [l2|] eqn:Hc2; [|done].
  apply (view_walk_agree n h h' rest2 (Some l2)); [done|done|].
  intros l [= <-]. by eapply child_of_below.
Qed.

(** The loop of [Put], from a fresh clone [nxt] of [cur]: it only writes
    [nxt] and new nodes, and from [nxt] the key leads to [v] while every
    other key leads where it led from [cur]. *)
Lemma Put_loop_spec v key : ∀ cur nxt h n,
  key ≠ [] →
  n ≤ nxt < length h →
  closed_below n h →
  (∀ l, cur = Some l → l < n) →
  deref h nxt = clone_of h cur →
  length h ≤ length (Put_loop v key cur nxt h) ∧
  (∀ l, l < length h → l ≠ nxt → deref (Put_loop v key cur nxt h) l = deref h l) ∧
  (∀ k2, view (Put_loop v key cur nxt h) (Get_walk (Put_loop v key cur nxt h) nxt k2)
         = if decide (k2 = key) then Some v else view h (walk h cur k2)) ∧
  (closed_below (length h) h →
   closed_below (length (Put_loop v key cur nxt h)) (Put_loop v key cur nxt h)).
Proof.
  induction key as [|c rest IH]; intros cur nxt h n Hkey Hnxt Hcl Hcur Hclone; [done|].
  rewrite Put_loop_cons.
  set (cur' := child_of h cur c).
  set (child := Put_child v rest h cur').
  set (h2 := alter (set_child c (length h)) nxt (h ++ [child])).
  destruct (link_step n h nxt c child Hnxt) as (Hlen2 & Hframe2 & Hnxt2 & Hlc2 & Hold2).
  fold h2 in Hlen2, Hframe2, Hnxt2, Hlc2, Hold2.
  assert (Hcur' : ∀ l, cur' = Some l → l < n).
  { intros l Hl. by eapply child_of_below. }
  assert (Hcl2 : closed_below n h2) by by eapply closed_below_agree.
  assert (Hclosed2 : closed_below (length h) h → closed_below (length h2) h2).
  { intros Hc. rewrite Hlen2. apply link_step_closed; [lia|done|].
    intros c' l'. subst child. unfold Put_child.
    assert (children_ (clone_of h cur') !! c' = Some l' → l' < length h) as Hcc.
    { rewrite children_clone_of. intros Hch.
      assert (l' < n); [|lia]. by apply (child_of_below n h cur' c' l'). }
    destruct rest; [|done]. simpl. apply Hcc. }
  destruct rest as [|c' rest'].
  - (* the last character: [child] bears the value *)
    simpl. split; [lia|]. split; [done|]. split; [|done].
    intros [|c2 rest2].
    + rewrite decide_False by done. simpl.
      rewrite Hnxt2, value_of_set_child, Hclone. by destruct cur.
    + destruct (decide (c2 = c)) as [->|Hne].
      * simpl. rewrite Hnxt2, children_set_child, lookup_insert_eq.
        destruct rest2 as [|c3 rest3].
        -- rewrite decide_True by done. simpl. by rewrite Hlc2.
        -- rewrite decide_False by congruence.
           rewrite (Get_walk_same_children h2 (length h) cur')
             by (rewrite Hlc2; subst child; simpl;
                 by rewrite (clone_of_agree n h h2)).
           rewrite (view_walk_agree n h h2) by done.
           by rewrite (walk_cons h cur c).
      * rewrite decide_False by congruence.
        apply (walk_off_path n h h2 nxt cur c (length h)); try done.
        by rewrite Hnxt2, Hclone.
  - (* inside the key: [child] is a clone, the loop goes on from it *)
    destruct (IH cur' (length h) h2 n) as (Hlen' & Hframe' & Hwalk' & Hclosed');
      [done|lia|done|done| |].
    { rewrite Hlc2. subst child. simpl. by rewrite (clone_of_agree n h h2). }
    set (h' := Put_loop v (c' :: rest') cur' (length h) h2) in *.
    assert (Hnxt' : deref h' nxt = set_child c (length h) (clone_of h cur)).
    { rewrite Hframe' by lia. by rewrite Hnxt2, Hclone. }
    assert (Hold' : ∀ l, l < n → deref h' l = deref h l).
    { intros l Hl. rewrite Hframe' by lia. by apply Hold2. }
    split; [lia|]. split; [|split].
    + intros l Hl Hne. rewrite Hframe' by lia. by apply Hframe2.
    + intros [|c2 rest2].
      * rewrite decide_False by done. simpl.
        rewrite Hnxt', value_of_set_child. by destruct cur.
      * destruct (decide (c2 = c)) as [->|Hne].
        -- simpl. rewrite Hnxt', children_set_child, lookup_insert_eq.
           rewrite Hwalk'. rewrite (view_walk_agree n h h2) by done.
           rewrite (walk_cons h cur c).
           destruct (decide (rest2 = c' :: rest')) as [->|Hne].
           ++ by rewrite decide_True.
           ++ rewrite decide_False by congruence. done.
        -- rewrite decide_False by congruence.
           by apply (walk_off_path n h h' nxt cur c (length h)).
    + intros Hc. by apply Hclosed', Hclosed2.
Qed.

Lemma alloc_closed h node :
  closed_below (length h) h →
  (∀ c l, children_ node !! c = Some l → l < length h) →
  closed_below (length (h ++ [node])) (h ++ [node]).
Proof.
  intros Hcl Hnode l c l'. rewrite length_app. simpl. intros Hl.
  destruct (decide (l = length h)) as [->|Hne].
  - rewrite deref_alloc. intros Hc. apply Hnode in Hc. lia.
  - rewrite deref_app_l by lia. intros Hc. apply Hcl in Hc; lia.
Qed.

Lemma children_clone_of_below h o c l :
  closed_below (length h) h → (∀ l, o = Some l → l < length h) →
  children_ (clone_of h o) !! c = Some l → l < length h.
Proof.
  intros Hcl Ho. rewrite children_clone_of. by apply child_of_below.
Qed.

(** [Put] as a map update: the new trie stores [v] under [key] and what
    the old trie stored under every other key; the store is only
    extended. *)
Lemma walk_Some h l key : walk h (Some l) key = Get_walk h l key.
Proof. done. Qed.

Lemma stored_eq key tr h : stored key tr h = view h (walk h (root_ tr) key).
Proof. done. Qed.

Lemma Put_spec key v tr h :
  trie_ok tr h →
  trie_ok (Put key v tr h).1 (Put key v tr h).2 ∧
  extends h (Put key v tr h).2 ∧
  ∀ k2, stored k2 (Put key v tr h).1 (Put key v tr h).2
        = if decide (k2 = key) then Some v else stored k2 tr h.
Proof.
  intros [Hok%heap_ok_closed Hroot].
  destruct key as [|c rest].
  - (* empty key: a value-bearing copy of the root *)
    set (node := NodeWithValue (children_ (clone_of h (root_ tr))) v).
    assert (HP : Put [] v tr h = ({| root_ := Some (length h) |}, h ++ [node])).
    { unfold Put, alloc, node. by destruct (root_ tr). }
    rewrite HP. cbn [fst snd]. split; [split|split].
    + apply heap_ok_closed, alloc_closed; [done|]. intros c l. simpl.
      by apply children_clone_of_below.
    + intros l [= <-]. rewrite length_app. simpl. lia.
    + split; [rewrite length_app; lia|]. intros l Hl. by apply deref_app_l.
    + intros k2. rewrite !stored_eq. cbn [root_]. rewrite walk_Some.
      destruct k2 as [|c2 rest2].
      * simpl. by rewrite deref_alloc.
      * rewrite decide_False by done.
        rewrite (Get_walk_same_children _ _ (root_ tr))
          by (rewrite deref_alloc; simpl;
              by rewrite (clone_of_agree (length h) h (h ++ [node]))
                by (auto using deref_app_l)).
        apply (view_walk_agree (length h)); auto using deref_app_l.
  - (* non-empty key: a clone of the root, then the loop *)
    set (h1 := h ++ [clone_of h (root_ tr)]).
    assert (HP : Put (c :: rest) v tr h
                 = ({| root_ := Some (length h) |},
                    Put_loop v (c :: rest) (root_ tr) (length h) h1)).
    { unfold Put, alloc, h1. by destruct (root_ tr). }
    rewrite HP. cbn [fst snd].
    assert (Hag1 : ∀ l, l < length h → deref h1 l = deref h l)
      by (intros; by apply deref_app_l).
    assert (Hclosed1 : closed_below (length h1) h1).
    { apply alloc_closed; [done|]. intros c' l.
      by apply children_clone_of_below. }
    assert (Hlen1 : length h1 = S (length h))
      by (subst h1; rewrite length_app; simpl; lia).
    destruct (Put_loop_spec v (c :: rest) (root_ tr) (length h) h1 (length h))
      as (Hlen & Hframe & Hwalk & Hclosed); try done.
    { lia. }
    { by eapply closed_below_agree. }
    { subst h1. rewrite deref_alloc. symmetry.
      apply (clone_of_agree (length h)); [|done]. intros; by apply deref_app_l. }
    split; [split|split].
    + by apply heap_ok_closed, Hclosed.
    + intros l [= <-]. lia.
    + split; [lia|]. intros l Hl. rewrite Hframe by lia. by apply Hag1.
    + intros k2. rewrite !stored_eq. cbn [root_]. rewrite walk_Some, Hwalk.
      case_decide; [done|]. apply (view_walk_agree (length h)); auto.
Qed.

(** *** The pruning loop of [Remove] *)

Lemma deref_erase h s c :
  deref (alter (erase_child c) s h) s = erase_child c (deref h s).
Proof.
  unfold deref. rewrite list_lookup_alter_eq.
  destruct (h !! s); simpl; [done|]. by rewrite delete_empty.
Qed.

(** Erasing an edge to a node without value and without children changes
    what no key leads to. *)
Lemma erase_edge_preserves h s c x :
  children_ (deref h s) !! c = Some x →
  children_ (deref h x) = ∅ → value_of (deref h x) = None →
  ∀ k2 root,
    view (alter (erase_child c) s h) (Get_walk (alter (erase_child c) s h) root k2)
    = view h (Get_walk h root k2).
Proof.
  intros Hedge Hleaf Hnoval.
  induction k2 as [|c2 k2 IH]; intros root; simpl.
  - destruct (decide (root = s)) as [->|Hne].
    + by rewrite deref_erase, value_of_erase_child.
    + by rewrite deref_alter_ne.
  - destruct (decide (root = s)) as [->|Hne].
    + rewrite deref_erase, children_erase_child.
      destruct (decide (c2 = c)) as [->|Hc].
      * rewrite lookup_delete_eq, Hedge. destruct k2 as [|c3 k3]; simpl.
        -- by rewrite Hnoval.
        -- by rewrite Hleaf, lookup_empty.
      * rewrite lookup_delete_ne by done.
        destruct (children_ (deref h s) !! c2); [apply IH|done].
    + rewrite deref_alter_ne by done.
      destruct (children_ (deref h root) !! c2); [apply IH|done].
Qed.

Lemma Remove_prune_preserves path : ∀ h k2 root,
  view (Remove_prune path h) (Get_walk (Remove_prune path h) root k2)
  = view h (Get_walk h root k2).
Proof.
  induction path as [|[s c] path IH]; intros h k2 root; simpl; [done|].
  destruct (children_ (deref h s) !! c) as [x|] eqn:Hedge; [|done].
  case_bool_decide as Hleaf; [|done].
  destruct (is_value_node_ (deref h x)) eqn:Hval; [done|].
  rewrite IH. apply (erase_edge_preserves h s c x); [done|done|].
  by apply is_value_node_value_of.
Qed.

Lemma Remove_prune_length path : ∀ h, length (Remove_prune path h) = length h.
Proof.
  induction path as [|[s c] path IH]; intros h; simpl; [done|].
  destruct (children_ (deref h s) !! c) as [x|]; [|done].
  case_bool_decide; [|done].
  destruct (is_value_node_ (deref h x)); [done|].
  by rewrite IH, length_alter.
Qed.

Lemma Remove_prune_frame n path : ∀ h,
  (∀ s c, (s, c) ∈ path → n ≤ s) →
  ∀ l, l < n → deref (Remove_prune path h) l = deref h l.
Proof.
  induction path as [|[s c] path IH]; intros h Hpath l Hl; simpl; [done|].
  destruct (children_ (deref h s) !! c) as [x|]; [|done].
  case_bool_decide; [|done].
  destruct (is_value_node_ (deref h x)); [done|].
  rewrite IH; [|intros s' c' Hin; apply (Hpath s' c'); set_solver|done].
  apply deref_alter_ne. assert (n ≤ s) by (apply (Hpath s c); set_solver). lia.
Qed.

Lemma Remove_prune_closed m path : ∀ h,
  closed_below m h → closed_below m (Remove_prune path h).
Proof.
  induction path as [|[s c] path IH]; intros h Hcl; simpl; [done|].
  destruct (children_ (deref h s) !! c) as [x|]; [|done].
  case_bool_decide; [|done].
  destruct (is_value_node_ (deref h x)); [done|].
  apply IH. intros l c' l' Hl.
  destruct (decide (l = s)) as [->|Hne].
  - rewrite deref_erase, children_erase_child. intros [_ Hc]%lookup_delete_Some.
    by eapply Hcl.
  - rewrite deref_alter_ne by done. by apply Hcl.
Qed.

(** *** The copy loop of [Remove] *)

Lemma Remove_copy_cons c rest cur child h :
  Remove_copy (c :: rest) cur child h
  = match children_ (deref h cur) !! c with
    | Some cur' =>
        let r := Remove_copy rest cur' (length h)
                   (alter (set_child c (length h)) child
                          (h ++ [Remove_child rest h cur'])) in
        (r.1, length h :: r.2)
    | None => (h, [])
    end.
Proof.
  simpl. destruct (children_ (deref h cur) !! c) as [cur'|]; [|done].
  unfold alloc, Remove_child. simpl.
  by destruct (Remove_copy rest _ _ _).
Qed.

(** The copy loop from a fresh clone [child] of [cur]: it only writes
    [child] and new nodes; it pushes one node per character exactly when
    the key leads somewhere from [cur]; and then, from [child], the key
    leads to a node without value while every other key leads where it led
    from [cur]. *)
Lemma Remove_copy_spec key : ∀ cur child h n,
  n ≤ child < length h →
  closed_below n h →
  cur < n →
  deref h child = Clone (deref h cur) →
  length h ≤ length (Remove_copy key cur child h).1 ∧
  (∀ l, l < length h → l ≠ child →
        deref (Remove_copy key cur child h).1 l = deref h l) ∧
  Forall (λ s, length h ≤ s) (Remove_copy key cur child h).2 ∧
  (closed_below (length h) h →
   closed_below (length (Remove_copy key cur child h).1)
                (Remove_copy key cur child h).1) ∧
  (length (Remove_copy key cur child h).2 = length key
   ↔ is_Some (Get_walk h cur key)) ∧
  (key ≠ [] → length (Remove_copy key cur child h).2 = length key →
   ∀ k2, view (Remove_copy key cur child h).1
              (Get_walk (Remove_copy key cur child h).1 child k2)
         = if decide (k2 = key) then None else view h (Get_walk h cur k2)).
Proof.
  induction key as [|c rest IH]; intros cur child h n Hchild Hcl Hcur Hclone.
  { simpl. split; [done|]. split; [done|]. split; [done|]. split; [done|].
    split; [|done]. split; [by eexists|done]. }
  rewrite Remove_copy_cons.
  destruct (children_ (deref h cur) !! c) as [cur'|] eqn:Hedge; cycle 1.
  { simpl. rewrite Hedge. split; [done|]. split; [done|]. split; [done|].
    split; [done|]. split; [|done]. split; [done|]. by intros [? ?]. }
  set (node := Remove_child rest h cur').
  set (h2 := alter (set_child c (length h)) child (h ++ [node])).
  destruct (link_step n h child c node Hchild)
    as (Hlen2 & Hframe2 & Hchild2 & Hlc2 & Hold2).
  fold h2 in Hlen2, Hframe2, Hchild2, Hlc2, Hold2.
  assert (Hcur' : cur' < n) by by eapply Hcl.
  assert (Hcl2 : closed_below n h2) by by eapply closed_below_agree.
  assert (Hclosed2 : closed_below (length h) h → closed_below (length h2) h2).
  { intros Hc. rewrite Hlen2. apply link_step_closed; [lia|done|].
    intros c' l'.
    assert (children_ node = children_ (deref h cur')) as ->
      by (subst node; by destruct rest).
    intros Hch. apply Hc in Hch; lia. }
  assert (Hwalk_cur : ∀ k, Get_walk h cur (c :: k) = Get_walk h cur' k)
    by (intros k; simpl; by rewrite Hedge).
  assert (Hchild2' : deref h2 child = set_child c (length h) (clone_of h (Some cur)))
    by by rewrite Hchild2, Hclone.
  destruct rest as [|c' rest'].
  - (* the last character: [node] is the terminal node without its value *)
    simpl. split; [lia|]. split; [done|]. split; [by repeat constructor|].
    split; [done|]. split; [split; [by eexists; rewrite Hedge|done]|].
    intros _ _ [|c2 rest2].
    + rewrite decide_False by done. simpl.
      by rewrite Hchild2, value_of_set_child, Hclone.
    + destruct (decide (c2 = c)) as [->|Hne].
      * rewrite Hwalk_cur. simpl.
        rewrite Hchild2, children_set_child, lookup_insert_eq.
        destruct rest2 as [|c3 rest3].
        -- rewrite decide_True by done. simpl. by rewrite Hlc2.
        -- rewrite decide_False by congruence.
           rewrite (Get_walk_same_children h2 (length h) (Some cur'))
             by (rewrite Hlc2; simpl; by rewrite Hold2).
           rewrite <-(walk_Some h cur').
           apply (view_walk_agree n h h2 _ (Some cur')); [done|done|].
           by intros ? [= <-].
      * rewrite decide_False by congruence.
        rewrite <-(walk_Some h cur).
        apply (walk_off_path n h h2 child (Some cur) c (length h)); try done.
        by intros ? [= <-].
  - (* inside the key: [node] is a clone, the loop goes on from it *)
    destruct (IH cur' (length h) h2 n)
      as (Hlen' & Hframe' & Hst' & Hclosed' & Hiff' & Hwalk');
      [lia|done|done| |].
    { rewrite Hlc2. subst node. simpl. by rewrite Hold2. }
    set (r := Remove_copy (c' :: rest') cur' (length h) h2) in *.
    cbn [fst snd].
    assert (Hchild' : deref r.1 child = set_child c (length h) (clone_of h (Some cur))).
    { rewrite Hframe' by lia. done. }
    assert (Hold' : ∀ l, l < n → deref r.1 l = deref h l).
    { intros l Hl. rewrite Hframe' by lia. by apply Hold2. }
    split; [lia|]. split; [|split; [|split; [|split]]].
    + intros l Hl Hne. rewrite Hframe' by lia. by apply Hframe2.
    + constructor; [done|]. eapply Forall_impl; [done|]. simpl. lia.
    + intros Hc. by apply Hclosed', Hclosed2.
    + rewrite Hwalk_cur, <-(Get_walk_agree n h h2) by done.
      rewrite <-Hiff', !length_cons. clearbody r. split; intros; lia.
    + intros _ Hfull [|c2 rest2].
      * rewrite decide_False by done. simpl.
        by rewrite Hchild', value_of_set_child.
      * destruct (decide (c2 = c)) as [->|Hne].
        -- rewrite Hwalk_cur. simpl.
           rewrite Hchild', children_set_child, lookup_insert_eq.
           rewrite Hwalk' by (done || (cbn [length] in Hfull |- *; lia)).
           rewrite <-(walk_Some h2 cur'), <-(walk_Some h cur').
           rewrite (view_walk_agree n h h2 _ (Some cur'))
             by (done || by intros ? [= <-]).
           destruct (decide (rest2 = c' :: rest')) as [->|Hne].
           ++ by rewrite decide_True.
           ++ rewrite decide_False by congruence. done.
        -- rewrite decide_False by congruence.
           rewrite <-(walk_Some h cur).
           apply (walk_off_path n h r.1 child (Some cur) c (length h)); try done.
           by intros ? [= <-].
Qed.

(** *** [Remove] *)

Lemma Remove_cons c rest tr h l :
  root_ tr = Some l →
  Remove (c :: rest) tr h
  = let r := Remove_copy (c :: rest) l (length h) (h ++ [Clone (deref h l)]) in
    if bool_decide (length (length h :: r.2) - 1 ≠ length (c :: rest)) then
      ({| root_ := root_ tr |}, h)
    else
      let h3 := Remove_prune (reverse (zip (length h :: r.2) (c :: rest))) r.1 in
      if bool_decide (children_ (deref h3 (length h)) = ∅)
         && negb (is_value_node_ (deref h3 (length h)))
      then ({| root_ := None |}, h3)
      else ({| root_ := Some (length h) |}, h3).
Proof.
  intros Hroot. unfold Remove. rewrite Hroot. unfold alloc.
  by destruct (Remove_copy (c :: rest) l (length h) (h ++ [Clone (deref h l)])).
Qed.

(** [Remove] as a map update: the new trie stores nothing under [key]
    and what the old trie stored under every other key; the store is only
    extended. *)
Lemma Remove_spec key tr h :
  trie_ok tr h →
  trie_ok (Remove key tr h).1 (Remove key tr h).2 ∧
  extends h (Remove key tr h).2 ∧
  ∀ k2, stored k2 (Remove key tr h).1 (Remove key tr h).2
        = if decide (k2 = key) then None else stored k2 tr h.
Proof.
  intros [Hok Hroot]. pose proof Hok as Hcl%heap_ok_closed.
  destruct (root_ tr) as [l|] eqn:Hr; cycle 1.
  { (* the empty trie *)
    assert (HR : Remove key tr h = ({| root_ := None |}, h))
      by (unfold Remove; rewrite Hr; by destruct key).
    rewrite HR. cbn [fst snd]. split; [by split|]. split; [apply extends_refl|].
    intros k2. rewrite !stored_eq, Hr. cbn [root_]. by case_decide. }
  assert (Hl : l < length h) by by apply Hroot.
  destruct key as [|c rest].
  - (* empty key: a copy of the root without its value *)
    set (node := Node (children_ (deref h l))).
    assert (HR : Remove [] tr h = ({| root_ := Some (length h) |}, h ++ [node]))
      by (unfold Remove; by rewrite Hr).
    rewrite HR. cbn [fst snd]. split; [split|split].
    + apply heap_ok_closed, alloc_closed; [done|]. intros c l'. simpl.
      intros Hc. by apply Hcl in Hc.
    + intros l' [= <-]. rewrite length_app. simpl. lia.
    + split; [rewrite length_app; lia|]. intros l' Hl'. by apply deref_app_l.
    + intros k2. rewrite !stored_eq, Hr. cbn [root_]. rewrite walk_Some.
      destruct k2 as [|c2 rest2].
      * simpl. by rewrite deref_alloc.
      * rewrite decide_False by done.
        rewrite (Get_walk_same_children _ _ (Some l))
          by (rewrite deref_alloc; simpl; by rewrite deref_app_l).
        apply (view_walk_agree (length h)); auto using deref_app_l.
  - (* non-empty key *)
    rewrite (Remove_cons _ _ _ _ l Hr).
    set (h1 := h ++ [Clone (deref h l)]).
    assert (Hag1 : ∀ l, l < length h → deref h1 l = deref h l)
      by (intros; by apply deref_app_l).
    assert (Hlen1 : length h1 = S (length h))
      by (subst h1; rewrite length_app; simpl; lia).
    assert (Hclosed1 : closed_below (length h1) h1).
    { apply alloc_closed; [done|]. intros c' l' Hc. by apply Hcl in Hc. }
    destruct (Remove_copy_spec (c :: rest) l (length h) h1 (length h))
      as (Hlen & Hframe & Hst & Hclosed & Hiff & Hwalk); try done.
    { lia. }
    { by eapply closed_below_agree. }
    { subst h1. by rewrite deref_alloc, deref_app_l. }
    set (r := Remove_copy (c :: rest) l (length h) h1) in *.
    cbv zeta.
    case_bool_decide as Hsize.
    + (* the walk broke off: the original trie *)
      cbn [fst snd]. split; [by split; [|rewrite Hr]|]. split; [apply extends_refl|].
      intros k2. case_decide as Hk2; [|done]. subst k2.
      rewrite stored_eq. cbn [root_]. rewrite Hr, walk_Some.
      destruct (Get_walk h l (c :: rest)) as [l'|] eqn:Hw; [|done].
      exfalso. apply Hsize.
      assert (length r.2 = length (c :: rest)); [|by cbn [length] in *; lia].
      apply Hiff. rewrite (Get_walk_agree (length h) h h1) by done. by eexists.
    + (* the path was copied: prune it *)
      assert (Hfull : length r.2 = length (c :: rest)).
      { apply dec_stable. cbn [length] in *. lia. }
      set (path := reverse (zip (length h :: r.2) (c :: rest))).
      set (h3 := Remove_prune path r.1).
      assert (Hlen3 : length h3 = length r.1) by apply Remove_prune_length.
      assert (Hold3 : ∀ l, l < length h → deref h3 l = deref h l).
      { intros l' Hl'. subst h3. rewrite (Remove_prune_frame (length h)); [|..|done].
        - rewrite Hframe by lia. by apply Hag1.
        - intros s c' Hin%elem_of_reverse%elem_of_zip_l.
          apply elem_of_cons in Hin as [->|Hin]; [done|].
          rewrite Forall_forall in Hst. apply Hst in Hin. lia. }
      assert (Hclosed3 : closed_below (length h3) h3).
      { rewrite Hlen3. by apply Remove_prune_closed, Hclosed. }
      assert (Hwalk3 : ∀ k2, view h3 (Get_walk h3 (length h) k2)
                = if decide (k2 = c :: rest) then None else stored k2 tr h).
      { intros k2. subst h3. rewrite Remove_prune_preserves, Hwalk by done.
        case_decide; [done|]. rewrite stored_eq, Hr, walk_Some.
        rewrite <-(walk_Some h1 l), <-(walk_Some h l).
        apply (view_walk_agree (length h)); [done|done|]. by intros ? [= <-]. }
      assert (Hok3 : trie_ok {| root_ := Some (length h) |} h3).
      { split; [by apply heap_ok_closed|]. intros ? [= <-]. lia. }
      destruct (bool_decide (children_ (deref h3 (length h)) = ∅)
                && negb (is_value_node_ (deref h3 (length h)))) eqn:Hnull;
        cbn [fst snd].
      * apply andb_true_iff in Hnull as [Hleaf%bool_decide_eq_true Hnoval%negb_true_iff].
        split; [split; [by apply heap_ok_closed|done]|].
        split; [split; [lia|done]|].
        intros k2. rewrite <-Hwalk3, stored_eq. cbn [root_]. simpl.
        destruct k2 as [|c2 rest2]; simpl.
        -- symmetry. by apply is_value_node_value_of.
        -- by rewrite Hleaf, lookup_empty.
      * split; [done|]. split; [split; [lia|done]|].
        intros k2. by rewrite <-Hwalk3.
Qed.

(** When the key leads nowhere, [Remove] hands back the very handle and
    store it was given. *)
Lemma Remove_absent key tr h :
  trie_ok tr h → walk h (root_ tr) key = None → Remove key tr h = (tr, h).
Proof.
  intros [Hcl%heap_ok_closed Hroot] Hw. destruct tr as [[l|]].
  - destruct key as [|c rest]; [done|].
    rewrite (Remove_cons c rest {| root_ := Some l |} h l eq_refl). cbv zeta.
    rewrite bool_decide_eq_true_2; [done|].
    cbn [root_] in Hw, Hroot. rewrite walk_Some in Hw.
    assert (Hl : l < length h) by by apply Hroot.
    destruct (Remove_copy_spec (c :: rest) l (length h)
                (h ++ [Clone (deref h l)]) (length h))
      as (_ & _ & _ & _ & Hiff & _).
    { rewrite length_app. simpl. lia. }
    { eapply closed_below_agree; [done|]. intros; by apply deref_app_l. }
    { done. }
    { by rewrite deref_alloc, deref_app_l. }
    intros Hsize.
    assert (Hfull : length (Remove_copy (c :: rest) l (length h)
                              (h ++ [Clone (deref h l)])).2
                    = length (c :: rest)) by (cbn [length] in *; lia).
    apply Hiff in Hfull as [l' Hl'].
    rewrite (Get_walk_agree (length h) h) in Hl'; [congruence|done| |done].
    intros; by apply deref_app_l.
  - by destruct key.
Qed.

(** When the key leads to a node, with or without a value, [Remove] returns
    a new root (or none): never the root it was given. *)
Lemma Remove_present key tr h :
  trie_ok tr h → is_Some (walk h (root_ tr) key) →
  root_ (Remove key tr h).1 = None ∨ root_ (Remove key tr h).1 = Some (length h).
Proof.
  intros [Hcl%heap_ok_closed Hroot] Hw. destruct tr as [[l|]]; cycle 1.
  { by destruct Hw. }
  destruct key as [|c rest]; [by right|].
  rewrite (Remove_cons c rest {| root_ := Some l |} h l eq_refl). cbv zeta.
  cbn [root_] in Hw, Hroot. rewrite walk_Some in Hw.
  assert (Hl : l < length h) by by apply Hroot.
  destruct (Remove_copy_spec (c :: rest) l (length h)
              (h ++ [Clone (deref h l)]) (length h))
    as (_ & _ & _ & _ & Hiff & _).
  { rewrite length_app. simpl. lia. }
  { eapply closed_below_agree; [done|]. intros; by apply deref_app_l. }
  { done. }
  { by rewrite deref_alloc, deref_app_l. }
  rewrite bool_decide_eq_false_2.
  - destruct (_ && _); [by left|by right].
  - intros Hsize. apply Hsize. cbn [length].
    assert (length (Remove_copy (c :: rest) l (length h)
                      (h ++ [Clone (deref h l)])).2 = length (c :: rest));
      [|cbn [length] in *; lia].
    apply Hiff.
    rewrite (Get_walk_agree (length h) h); [done|done| |done].
    intros; by apply deref_app_l.
Qed.

Lemma Get_stored T key tr h : Get T key tr h = stored key tr h ≫= of_type T.
Proof.
  unfold Get, stored, view, walk. destruct (root_ tr) as [l|]; [|done]. simpl.
  destruct (Get_walk h l key) as [l'|]; [|done]. simpl.
  by destruct (deref h l').
Qed.

Lemma stored_None_iff key tr h :
  stored key tr h = None ↔ ∀ T, Get T key tr h = None.
Proof.
  split.
  - intros Hs T. by rewrite Get_stored, Hs.
  - intros HG. destruct (stored key tr h) as [v|] eqn:Hs; [|done].
    specialize (HG (type_of v)). rewrite Get_stored, Hs in HG. simpl in HG.
    unfold of_type in HG. by rewrite decide_True in HG.
Qed.

(** A handle keeps its mapping when the store is extended. *)
Lemma stored_extends key tr h h' :
  trie_ok tr h → extends h h' → stored key tr h' = stored key tr h.
Proof.
  intros [Hcl%heap_ok_closed Hroot] [_ Hag]. rewrite !stored_eq.
  by apply (view_walk_agree (length h)).
Qed.
End trie.

Section trie_properties.
Import Trie TrieSpec TrieScenario.
Local Open Scope nat_scope.

(** C7. For every trie [tr] (in a well-formed store), key and value:
    [get] of the key on [put key v] returns [v]; [get] of the key on
    [put key v] followed by [remove key] returns nothing; and [tr] itself
    answers every [get] after the put as it did before. *)
Theorem Put_Get_Remove_persistent key v tr h :
  trie_ok tr h →
  Get (type_of v) key (Put key v tr h).1 (Put key v tr h).2 = Some v ∧
  (∀ T, Get T key
          (Remove key (Put key v tr h).1 (Put key v tr h).2).1
          (Remove key (Put key v tr h).1 (Put key v tr h).2).2 = None) ∧
  (∀ T k2, Get T k2 tr (Put key v tr h).2 = Get T k2 tr h).
Proof.
  intros Hok. destruct (Put_spec key v tr h Hok) as (Hok1 & Hext1 & Hput).
  destruct (Remove_spec key _ _ Hok1) as (_ & _ & Hrem).
  split; [|split].
  - rewrite Get_stored, Hput, decide_True by done. simpl.
    unfold of_type. by rewrite decide_True.
  - intros T. by rewrite Get_stored, Hrem, decide_True.
  - intros T k2. by rewrite !Get_stored, (stored_extends k2 tr h).
Qed.


Lemma trie_ab_ac_ok : trie_ok trie_ab_ac.1 trie_ab_ac.2.
Proof.
  apply Put_spec, Put_spec. split; [|done]. intros l n c l' Hl.
  by rewrite lookup_nil in Hl.
Defined.

Lemma Put_Get_Remove_persistent_witness :
  Get T_string key_ab
      (Put key_ab (V_string "x") trie_ab_ac.1 trie_ab_ac.2).1
      (Put key_ab (V_string "x") trie_ab_ac.1 trie_ab_ac.2).2
  = Some (V_string "x") ∧
  (∀ T, Get T key_ab
          (Remove key_ab (Put key_ab (V_string "x") trie_ab_ac.1 trie_ab_ac.2).1
                         (Put key_ab (V_string "x") trie_ab_ac.1 trie_ab_ac.2).2).1
          (Remove key_ab (Put key_ab (V_string "x") trie_ab_ac.1 trie_ab_ac.2).1
                         (Put key_ab (V_string "x") trie_ab_ac.1 trie_ab_ac.2).2).2
        = None) ∧
  (∀ T k2, Get T k2 trie_ab_ac.1
             (Put key_ab (V_string "x") trie_ab_ac.1 trie_ab_ac.2).2
           = Get T k2 trie_ab_ac.1 trie_ab_ac.2).
Proof.
  exact (Put_Get_Remove_persistent key_ab (V_string "x")
           trie_ab_ac.1 trie_ab_ac.2 trie_ab_ac_ok).
Defined.

(** C8, amended. For every trie (in a well-formed store) and key the trie
    does not map, whether the walk breaks off, ends in a node without value,
    or the key is empty and the root bears no value: the trie [remove]
    returns answers every [get] as the original does, and the original is
    untouched. It is the original handle and store that come back when the
    walk breaks off; when the walk reaches a node, the root returned is not
    the original one (a path copy, or none). *)
Theorem Remove_unmapped_same_content key tr h :
  trie_ok tr h →
  (∀ T, Get T key tr h = None) →
  (∀ T k2, Get T k2 (Remove key tr h).1 (Remove key tr h).2 = Get T k2 tr h) ∧
  (∀ T k2, Get T k2 tr (Remove key tr h).2 = Get T k2 tr h) ∧
  (walk h (root_ tr) key = None → Remove key tr h = (tr, h)) ∧
  (is_Some (walk h (root_ tr) key) → root_ (Remove key tr h).1 ≠ root_ tr).
Proof.
  intros Hok Hfree%stored_None_iff.
  destruct (Remove_spec key tr h Hok) as (_ & Hext & Hrem).
  split; [|split; [|split]].
  - intros T k2. rewrite !Get_stored, Hrem. case_decide; [|done]. subst.
    by rewrite Hfree.
  - intros T k2. by rewrite !Get_stored, (stored_extends k2 tr h).
  - by apply Remove_absent.
  - intros Hw Heq. pose proof Hok as [_ Hroot].
    destruct (Remove_present key tr h) as [Hn|Hn]; [done|done|..];
      rewrite Hn in Heq.
    + rewrite <-Heq in Hw. by destruct Hw.
    + symmetry in Heq. apply Hroot in Heq. lia.
Qed.

Lemma Remove_unmapped_same_content_witness :
  (∀ T k2, Get T k2 (Remove key_a trie_ab_ac.1 trie_ab_ac.2).1
                    (Remove key_a trie_ab_ac.1 trie_ab_ac.2).2
           = Get T k2 trie_ab_ac.1 trie_ab_ac.2) ∧
  (∀ T k2, Get T k2 trie_ab_ac.1 (Remove key_a trie_ab_ac.1 trie_ab_ac.2).2
           = Get T k2 trie_ab_ac.1 trie_ab_ac.2) ∧
  (walk trie_ab_ac.2 (root_ trie_ab_ac.1) key_a = None →
   Remove key_a trie_ab_ac.1 trie_ab_ac.2 = (trie_ab_ac.1, trie_ab_ac.2)) ∧
  (is_Some (walk trie_ab_ac.2 (root_ trie_ab_ac.1) key_a) →
   root_ (Remove key_a trie_ab_ac.1 trie_ab_ac.2).1 ≠ root_ trie_ab_ac.1).
Proof.
  apply (Remove_unmapped_same_content key_a trie_ab_ac.1 trie_ab_ac.2 trie_ab_ac_ok).
  intros T. by vm_compute.
Defined.

(** C8, as stated, fails: the trie that maps "ab" and "ac" does not map
    "a", whose path exists and ends in a node without value, and neither
    the empty key; [Remove] of either returns a trie whose root is a new
    node, not the original trie. *)
Lemma Remove_unmapped_returns_copy :
  (∀ T, Get T key_a trie_ab_ac.1 trie_ab_ac.2 = None) ∧
  (Remove key_a trie_ab_ac.1 trie_ab_ac.2).1 ≠ trie_ab_ac.1 ∧
  (∀ T, Get T [] trie_ab_ac.1 trie_ab_ac.2 = None) ∧
  (Remove [] trie_ab_ac.1 trie_ab_ac.2).1 ≠ trie_ab_ac.1.
Proof.
  split; [intros T; by vm_compute|]. split; [by vm_compute|].
  split; [intros T; by vm_compute|]. by vm_compute.
Qed.

(** C9. [Remove] of the empty key copies the root without its value and
    returns it whatever it holds: from the trie that maps only the empty
    key it returns a non-null root without value and without children,
    where the specification has the empty trie; a later [Remove] of a key
    that is absent hands this root back. *)
Theorem Remove_empty_key_keeps_bare_root :
  ∃ l h, Remove [] (Put [] (V_uint32 7) empty []).1 (Put [] (V_uint32 7) empty []).2
         = ({| root_ := Some l |}, h) ∧
         deref h l = Node ∅ ∧
         Remove key_a {| root_ := Some l |} h = ({| root_ := Some l |}, h).
Proof. eexists _, _. split; [by vm_compute|]. split; by vm_compute. Qed.

(** The sibling path: with a non-empty key the same situation yields the
    empty trie. *)
Example Remove_last_key_gives_empty :
  (Remove key_a (Put key_a (V_uint32 7) empty []).1
                (Put key_a (V_uint32 7) empty []).2).1 = empty.
Proof. by vm_compute. Qed.

(** The specification's scenario 6. *)
Example scenario_6 :
  let t1 := Put key_ab (V_uint32 1) empty [] in
  let t2 := Put key_ac (V_uint32 2) t1.1 t1.2 in
  let t3 := Remove key_ab t2.1 t2.2 in
  Get T_uint32 key_ac t1.1 t2.2 = None ∧
  Get T_uint32 key_ab t2.1 t2.2 = Some (V_uint32 1) ∧
  Get T_uint32 key_ac t2.1 t2.2 = Some (V_uint32 2) ∧
  Get T_uint32 key_ac t3.1 t3.2 = Some (V_uint32 2) ∧
  Get T_uint64 key_ac t3.1 t3.2 = None.
Proof. by vm_compute. Qed.
End trie_properties.

(** * Further properties of the replacer *)

Section replacer_more.
Import LRUKNode LRUKReplacer LRUKSpec Scenario.

Lemma accessed_window r f o :
  1 ≤ k_ r → (∀ n, o = Some n → node_ok r n) →
  last (history_ (accessed r f o)) = Some (current_timestamp_ r) ∧
  Z.of_nat (length (history_ (accessed r f o)))
  = Z.min (Z.of_nat (length (from_option history_ [] o)) + 1) (k_ r) ∧
  is_evictable_ (accessed r f o) = from_option is_evictable_ false o.
Proof.
  intros HK Ho. destruct o as [n|]; simpl.
  - destruct (Ho n eq_refl) as (Hne & Hlen & Hle & _).
    case_bool_decide as Hfull; simpl; rewrite last_snoc, length_app; simpl.
    + split; [done|]. split; [|done].
      destruct (history_ n); simpl in *; [done|lia].
    + split; [done|]. split; [lia|done].
  - split; [done|]. split; [lia|done].
Qed.

(** X1. In a replacer that satisfies its invariant, with room left on the
    clock, [RecordAccess] of a frame id the guard lets through succeeds and
    keeps the invariant: the clock advances by one, [Size] is unchanged, the
    frame's window ends with the timestamp of the call and holds
    [min (previous length + 1, K)] entries, its evictable flag is the one it
    had ([false] for a new frame), and no other frame's node changes. *)
Theorem RecordAccess_slides_window r f :
  inv r → current_timestamp_ r + 1 < SIZE_MAX_plus_1 →
  f ≤ to_int32 (replacer_size_ r) →
  ∃ r' n, RecordAccess f r = Ok r' ∧ inv r' ∧
          current_timestamp_ r' = current_timestamp_ r + 1 ∧
          Size r' = Size r ∧
          node_store_ r' !! f = Some n ∧
          last (history_ n) = Some (current_timestamp_ r) ∧
          Z.of_nat (length (history_ n))
          = Z.min (Z.of_nat (length (from_option history_ [] (node_store_ r !! f))) + 1)
                  (k_ r) ∧
          is_evictable_ n = from_option is_evictable_ false (node_store_ r !! f) ∧
          ∀ f', f' ≠ f → node_store_ r' !! f' = node_store_ r !! f'.
Proof.
  intros Hinv Hroom Hf.
  pose proof (RecordAccess_ok r f Hinv Hf) as Hrun.
  pose proof (RecordAccess_inv r f _ Hinv Hroom Hrun) as Hinv'.
  destruct Hinv as (HK & Hts & _ & Hnodes & _).
  destruct (accessed_window r f (node_store_ r !! f)) as (Hlast & Hlen & Hev); [lia|..].
  { intros n Hn. by apply (Hnodes f). }
  eexists _, _. split; [done|]. split; [done|]. simpl.
  split; [apply size_t_wrap_small; lia|]. split; [done|].
  rewrite lookup_insert_eq. split; [done|]. do 3 (split; [done|]).
  intros f' Hne. by rewrite lookup_insert_ne.
Qed.

Lemma RecordAccess_slides_window_witness :
  ∃ r' n, RecordAccess 0 replacer_example = Ok r' ∧ inv r' ∧
          current_timestamp_ r' = 5 + 1 ∧
          Size r' = 3 ∧
          node_store_ r' !! 0 = Some n ∧
          last (history_ n) = Some 5 ∧
          Z.of_nat (length (history_ n))
          = Z.min (Z.of_nat (length (from_option history_ []
                                       (node_store_ replacer_example !! 0))) + 1) 2 ∧
          is_evictable_ n
          = from_option is_evictable_ false (node_store_ replacer_example !! 0) ∧
          ∀ f', f' ≠ 0 → node_store_ r' !! f' = node_store_ replacer_example !! f'.
Proof.
  apply (RecordAccess_slides_window replacer_example 0 replacer_example_inv).
  - unfold SIZE_MAX_plus_1. simpl. lia.
  - by vm_compute.
Defined.

(** X2. [SetEvictable] throws for a frame the replacer has no node for. For
    a frame it knows, in a replacer that satisfies its invariant (and whose
    size counter has room), it succeeds and keeps the invariant; [Size]
    changes by the transition only: minus one if the frame was evictable,
    plus one if it is now; the window and every other node are untouched. *)
Theorem SetEvictable_counts_transitions r f e :
  inv r → curr_size_ r + 1 < SIZE_MAX_plus_1 →
  (node_store_ r !! f = None →
   SetEvictable f e r = Fail (Exception "SetEvictable: frame id is invalid")) ∧
  (∀ n, node_store_ r !! f = Some n →
     ∃ r', SetEvictable f e r = Ok r' ∧ inv r' ∧
           Size r' = Size r - (if is_evictable_ n then 1 else 0) + (if e then 1 else 0) ∧
           node_store_ r' !! f
           = Some (LRUKNode.mk (history_ n) (LRUKNode.k_ n) (fid_ n) e) ∧
           ∀ f', f' ≠ f → node_store_ r' !! f' = node_store_ r !! f').
Proof.
  intros Hinv Hroom. split.
  - intros Hn. unfold SetEvictable. by rewrite Hn.
  - intros n Hn.
    destruct (SetEvictable f e r) as [r'|] eqn:Hrun;
      [|unfold SetEvictable in Hrun; by rewrite Hn in Hrun].
    pose proof (SetEvictable_inv r f e r' Hinv Hroom Hrun) as Hinv'.
    exists r'. split; [done|]. split; [done|].
    destruct Hinv as (_ & _ & Hsz & _ & Hcount).
    pose proof (flag_bounds (node_store_ r) f) as Hflag.
    unfold evictable_count in Hcount. rewrite Hn in Hflag. simpl in Hflag.
    unfold SetEvictable in Hrun. rewrite Hn in Hrun. injection Hrun as <-.
    unfold Size. simpl. rewrite lookup_insert_eq. split; [|split; [done|]].
    + destruct (is_evictable_ n), e; simpl; rewrite ?size_t_wrap_small; lia.
    + intros f' Hne. by rewrite lookup_insert_ne.
Qed.

Lemma SetEvictable_counts_transitions_witness :
  SetEvictable 7 true replacer_example
  = Fail (Exception "SetEvictable: frame id is invalid") ∧
  ∃ r', SetEvictable 3 true replacer_example = Ok r' ∧ inv r' ∧
        Size r' = 3 - 0 + 1 ∧
        node_store_ r' !! 3 = Some (LRUKNode.mk [4] 1 3 true) ∧
        ∀ f', f' ≠ 3 → node_store_ r' !! f' = node_store_ replacer_example !! f'.
Proof.
  destruct (SetEvictable_counts_transitions replacer_example 3 true
              replacer_example_inv) as [_ Hknown].
  { unfold SIZE_MAX_plus_1. simpl. lia. }
  split.
  - apply (SetEvictable_counts_transitions replacer_example 7 true
             replacer_example_inv).
    + unfold SIZE_MAX_plus_1. simpl. lia.
    + by vm_compute.
  - apply (Hknown (LRUKNode.mk [4] 1 3 false)). by vm_compute.
Defined.

(** X3. [SetEvictable] is idempotent: a call that succeeded, repeated with
    the same arguments, succeeds again and changes nothing. *)
Theorem SetEvictable_idempotent r f e r' :
  SetEvictable f e r = Ok r' → SetEvictable f e r' = Ok r'.
Proof.
  unfold SetEvictable. destruct (node_store_ r !! f) as [n|] eqn:Hn; [|done].
  intros [= <-]. simpl. rewrite lookup_insert_eq. simpl.
  rewrite insert_insert_eq. by destruct e.
Qed.

Lemma SetEvictable_idempotent_witness :
  ∃ r', SetEvictable 3 true replacer_example = Ok r' ∧ SetEvictable 3 true r' = Ok r'.
Proof.
  eexists. split; [by vm_compute|].
  apply (SetEvictable_idempotent replacer_example 3 true). by vm_compute.
Defined.

(** X4. [Remove] in a replacer that satisfies its invariant: for an unknown
    frame it is a no-op; for a non-evictable frame it throws; for an
    evictable frame it erases the node and decrements [Size]. Whenever it
    succeeds the invariant is kept, the frame is unknown afterwards, every
    other node is untouched, and a second [Remove] is a no-op. *)
Theorem Remove_erases_evictable r f :
  inv r →
  (node_store_ r !! f = None → Remove f r = Ok r) ∧
  (∀ n, node_store_ r !! f = Some n → is_evictable_ n = false →
        Remove f r = Fail (Exception "Remove: is called on a non-evictable frame")) ∧
  (∀ n, node_store_ r !! f = Some n → is_evictable_ n = true →
        ∃ r', Remove f r = Ok r' ∧ Size r' = Size r - 1) ∧
  (∀ r', Remove f r = Ok r' →
         inv r' ∧ node_store_ r' !! f = None ∧
         (∀ f', f' ≠ f → node_store_ r' !! f' = node_store_ r !! f') ∧
         Remove f r' = Ok r').
Proof.
  intros Hinv. split; [|split; [|split]].
  - intros Hn. unfold Remove. by rewrite Hn.
  - intros n Hn Hev. unfold Remove. by rewrite Hn, Hev.
  - intros n Hn Hev. unfold Remove. rewrite Hn, Hev. simpl.
    eexists. split; [done|]. unfold Size. simpl.
    destruct Hinv as (_ & _ & Hsz & _ & Hcount).
    pose proof (flag_bounds (node_store_ r) f) as Hflag.
    unfold evictable_count in Hcount. rewrite Hn in Hflag. simpl in Hflag.
    rewrite Hev in Hflag. apply size_t_wrap_small. lia.
  - intros r' Hrun. split; [by eapply Remove_inv|].
    unfold Remove in Hrun.
    destruct (node_store_ r !! f) as [n|] eqn:Hn.
    + destruct (is_evictable_ n); [|done]. injection Hrun as <-. simpl.
      split; [apply lookup_delete_eq|]. split.
      * intros f' Hne. by apply lookup_delete_ne.
      * unfold Remove. simpl. by rewrite lookup_delete_eq.
    + injection Hrun as <-. split; [done|]. split; [done|].
      unfold Remove. by rewrite Hn.
Qed.

Lemma Remove_erases_evictable_witness :
  (∃ r', Remove 1 replacer_example = Ok r' ∧ Size r' = 3 - 1) ∧
  Remove 3 replacer_example
  = Fail (Exception "Remove: is called on a non-evictable frame") ∧
  Remove 7 replacer_example = Ok replacer_example.
Proof.
  destruct (Remove_erases_evictable replacer_example 1 replacer_example_inv)
    as (_ & _ & Hev & _).
  destruct (Remove_erases_evictable replacer_example 3 replacer_example_inv)
    as (_ & Hpinned & _).
  destruct (Remove_erases_evictable replacer_example 7 replacer_example_inv)
    as (Habsent & _).
  split; [|split].
  - apply (Hev (LRUKNode.mk [3] 1 1 true)); by vm_compute.
  - apply (Hpinned (LRUKNode.mk [4] 1 3 false)); by vm_compute.
  - apply Habsent. by vm_compute.
Defined.

(** Two nodes that each dominate the other have the same oldest timestamp. *)
Lemma dominates_antisym r n1 n2 :
  dominates r n1 n2 → dominates r n2 n1 → oldest n1 = oldest n2.
Proof. rewrite !dominates_alt. intros [? ?] [? ?]. lia. Qed.

(** X5. [Evict] does not depend on the order in which the unordered map is
    walked: in a replacer that satisfies its invariant and whose evictable
    frames have pairwise different oldest timestamps (every access gets a
    timestamp of its own), two runs over two orders of the same node store
    give the same result; the invariant holds afterwards. *)
Theorem Evict_order_independent order1 order2 frame_id0 r :
  inv r →
  order1 ≡ₚ map_to_list (node_store_ r) →
  order2 ≡ₚ map_to_list (node_store_ r) →
  (∀ f1 n1 f2 n2, node_store_ r !! f1 = Some n1 → node_store_ r !! f2 = Some n2 →
                  evictable n1 → evictable n2 → oldest n1 = oldest n2 → f1 = f2) →
  Evict_in order1 frame_id0 r = Evict_in order2 frame_id0 r ∧
  ∃ res v r', Evict_in order1 frame_id0 r = Ok (res, v, r') ∧ inv r'.
Proof.
  intros Hinv Hp1 Hp2 Hdistinct.
  destruct (Evict_in_spec order1 frame_id0 r Hinv Hp1) as [Hsome1 Hnone1].
  destruct (Evict_in_spec order2 frame_id0 r Hinv Hp2) as [Hsome2 Hnone2].
  destruct (decide (evictable_count r = 0)) as [Hzero|Hpos].
  - pose proof (proj1 (evictable_count_zero r) Hzero) as Hnone.
    rewrite Hnone1, Hnone2 by done. split; [done|]. by eexists _, _, _.
  - assert (Hex : ∃ f n, node_store_ r !! f = Some n ∧ evictable n).
    { unfold evictable_count in Hpos.
      destruct (map_choose (filter (λ it : Z * LRUKNode.t, evictable it.2)
                              (node_store_ r))) as (f & n & Hf).
      { apply map_size_non_empty_iff. lia. }
      apply map_lookup_filter_Some in Hf as [Hf Hn]. by exists f, n. }
    destruct (Hsome1 Hex) as (v1 & n1 & Hrun1 & Hv1 & Hev1 & Hdom1).
    destruct (Hsome2 Hex) as (v2 & n2 & Hrun2 & Hv2 & Hev2 & Hdom2).
    assert (v1 = v2) as <-.
    { apply (Hdistinct v1 n1 v2 n2); try done.
      apply (dominates_antisym r); [by apply (Hdom1 v2)|by apply (Hdom2 v1)]. }
    rewrite Hrun1, Hrun2. split; [done|].
    eexists _, _, _. split; [done|]. by eapply evicted_inv.
Qed.

Lemma Evict_order_independent_witness :
  Evict_in (map_to_list (node_store_ replacer_example)) INVALID_FRAME_ID replacer_example
  = Evict_in (reverse (map_to_list (node_store_ replacer_example))) INVALID_FRAME_ID
             replacer_example ∧
  ∃ res v r', Evict_in (map_to_list (node_store_ replacer_example)) INVALID_FRAME_ID
                       replacer_example = Ok (res, v, r') ∧ inv r'.
Proof.
  apply (Evict_order_independent _ _ INVALID_FRAME_ID replacer_example
           replacer_example_inv (reflexivity _) (reverse_Permutation _)).
  intros f1 n1 f2 n2 H1%elem_of_map_to_list H2%elem_of_map_to_list.
  revert H1 H2.
  let l := eval vm_compute in (map_to_list (node_store_ replacer_example)) in
  change (map_to_list (node_store_ replacer_example)) with l.
  rewrite !elem_of_cons, !elem_of_nil.
  intros H1 H2 He1 He2 Ho. destruct_or!; simplify_eq; try done;
    vm_compute in He1, He2, Ho; congruence.
Defined.
End replacer_more.

(** * Further properties of the buffer pool *)

Section pool_more.
Import BufferPoolManager BPMSpec PoolSpec Scenario PoolScenario.

Lemma touch_ok r f :
  LRUKSpec.inv r → f ≤ to_int32 (LRUKReplacer.replacer_size_ r) →
  LRUKReplacer.RecordAccess f r ≫= LRUKReplacer.SetEvictable f false
  = Ok (touched r f).
Proof.
  intros Hinv Hf. rewrite RecordAccess_ok by done.
  unfold mbind, outcome_bind, LRUKReplacer.SetEvictable. cbn.
  rewrite lookup_insert_eq. unfold touched. cbn. rewrite insert_insert_eq.
  by destruct (LRUKNode.is_evictable_ _).
Qed.

Lemma install_ok page_id f p b :
  page_at f b = Ok p → LRUKSpec.inv (replacer_ b) →
  f ≤ to_int32 (LRUKReplacer.replacer_size_ (replacer_ b)) →
  install page_id f b
  = Ok {| pool_size_ := pool_size_ b;
          pages_ := <[Z.to_nat f := fresh_frame page_id (Page.data_ p) p]> (pages_ b);
          page_table_ := <[page_id := f]> (page_table_ b);
          free_list_ := free_list_ b;
          replacer_ := touched (replacer_ b) f;
          next_page_id_ := next_page_id_ b;
          disk_ := disk_ b |}.
Proof.
  intros Hp Hinv Hf. unfold install.
  pose proof Hp as [Hi Hl]%page_at_Ok.
  assert (Hlen : (Z.to_nat f < length (pages_ b))%nat) by by eapply lookup_lt_Some.
  rewrite (modify_page_Ok _ _ _ p) by done. simpl.
  rewrite (modify_page_Ok _ _ _ (Page.set_pin_count 1 p))
    by (by apply page_at_insert). simpl.
  rewrite (modify_page_Ok _ _ _ (Page.set_is_dirty false (Page.set_pin_count 1 p)))
    by (apply page_at_insert; [done|by rewrite length_insert]). simpl.
  pose proof (touch_ok (replacer_ b) f Hinv Hf) as Ht.
  unfold mbind, outcome_bind in Ht |- *. cbn in Ht |- *.
  destruct (LRUKReplacer.RecordAccess f (replacer_ b)) as [r1|]; [|done].
  rewrite Ht. unfold set_replacer, set_pages. simpl.
  by rewrite !list_insert_insert_eq.
Qed.

Lemma acquire_frame_free f fl p b :
  free_list_ b = f :: fl → page_at f b = Ok p → needs_write_back p = false →
  acquire_frame b = Ok (Some f, set_free_list fl b).
Proof.
  intros Hfree Hp Hclean. unfold acquire_frame. rewrite Hfree. simpl.
  pose proof Hp as [Hi _]%page_at_Ok.
  rewrite bool_decide_eq_false_2 by (unfold INVALID_FRAME_ID; lia).
  change (page_at f (set_free_list fl b)) with (page_at f b). rewrite Hp. simpl.
  unfold needs_write_back in Hclean. by rewrite Hclean.
Qed.

Lemma NewPage_free page_id0 f fl p b :
  free_list_ b = f :: fl → page_at f b = Ok p → needs_write_back p = false →
  LRUKSpec.inv (replacer_ b) →
  f ≤ to_int32 (LRUKReplacer.replacer_size_ (replacer_ b)) →
  NewPage page_id0 b
  = Ok (Some f, next_page_id_ b,
        {| pool_size_ := pool_size_ b;
           pages_ := <[Z.to_nat f := fresh_frame (next_page_id_ b) (Page.data_ p) p]>
                       (pages_ b);
           page_table_ := <[next_page_id_ b := f]> (page_table_ b);
           free_list_ := fl;
           replacer_ := touched (replacer_ b) f;
           next_page_id_ := to_int32 (next_page_id_ b + 1);
           disk_ := disk_ b |}).
Proof.
  intros Hfree Hp Hclean Hinv Hf. unfold NewPage.
  rewrite (acquire_frame_free f fl p) by done. simpl.
  by rewrite (install_ok _ f p).
Qed.

(** X6. [NewPage] with a frame on the free list whose page needs no
    write-back (as for every frame the pool has put there): it takes the
    front frame, gives the page the next page id, pins it once, marks it
    clean, enters it in the page table, records the access and makes the
    frame non-evictable; the buffer, the disk and the other frames are left
    alone. *)
Theorem NewPage_takes_free_frame page_id0 f fl p b :
  free_list_ b = f :: fl → page_at f b = Ok p → needs_write_back p = false →
  LRUKSpec.inv (replacer_ b) →
  f ≤ to_int32 (LRUKReplacer.replacer_size_ (replacer_ b)) →
  NewPage page_id0 b
  = Ok (Some f, next_page_id_ b,
        {| pool_size_ := pool_size_ b;
           pages_ := <[Z.to_nat f := fresh_frame (next_page_id_ b) (Page.data_ p) p]>
                       (pages_ b);
           page_table_ := <[next_page_id_ b := f]> (page_table_ b);
           free_list_ := fl;
           replacer_ := touched (replacer_ b) f;
           next_page_id_ := to_int32 (next_page_id_ b + 1);
           disk_ := disk_ b |}).
Proof. apply NewPage_free. Qed.

Lemma NewPage_takes_free_frame_witness :
  NewPage 0 (BufferPoolManager.new 2 ∅ 2)
  = Ok (Some 0, 0,
        {| pool_size_ := 2;
           pages_ := <[Z.to_nat 0 := fresh_frame 0 Page.zeroes Page.new]>
                       [Page.new; Page.new];
           page_table_ := <[0 := 0]> ∅;
           free_list_ := [1];
           replacer_ := touched (LRUKReplacer.new 2 2) 0;
           next_page_id_ := to_int32 (0 + 1);
           disk_ := ∅ |}).
Proof.
  apply (NewPage_takes_free_frame 0 0 [1] Page.new (BufferPoolManager.new 2 ∅ 2)).
  - done.
  - done.
  - done.
  - apply new_inv. unfold SIZE_MAX_plus_1. lia.
  - by vm_compute.
Defined.

Lemma acquire_frame_none b :
  free_list_ b = [] → LRUKReplacer.Size (replacer_ b) = 0 →
  acquire_frame b = Ok (None, b).
Proof. intros Hfree Hsize. unfold acquire_frame. by rewrite Hfree, Hsize. Qed.

(** X7. With no frame on the free list and none evictable, the pool is
    exhausted: [NewPage] returns a null pointer and leaves [*page_id] and the
    pool as they were, and so does [FetchPage] of a page that is not
    resident. *)
Theorem pool_exhausted page_id0 page_id b :
  free_list_ b = [] → LRUKReplacer.Size (replacer_ b) = 0 →
  NewPage page_id0 b = Ok (None, page_id0, b) ∧
  (page_table_ b !! page_id = None → FetchPage page_id b = Ok (None, b)).
Proof.
  intros Hfree Hsize.
  pose proof (acquire_frame_none b Hfree Hsize) as Ha.
  split.
  - unfold NewPage. by rewrite Ha.
  - intros Habsent. unfold FetchPage. by rewrite Habsent, Ha.
Qed.

(** A pool of one frame whose only page is pinned. *)
Lemma pool_exhausted_witness :
  NewPage 7 fetched_pool = Ok (None, 7, fetched_pool) ∧
  FetchPage 1 fetched_pool = Ok (None, fetched_pool).
Proof.
  destruct (pool_exhausted 7 1 fetched_pool) as [Hnew Hfetch]; [done|done|].
  split; [done|]. apply Hfetch. by vm_compute.
Defined.

Lemma FetchPage_miss_free page_id f fl p b :
  page_table_ b !! page_id = None →
  free_list_ b = f :: fl → page_at f b = Ok p → needs_write_back p = false →
  LRUKSpec.inv (replacer_ b) →
  f ≤ to_int32 (LRUKReplacer.replacer_size_ (replacer_ b)) →
  FetchPage page_id b
  = Ok (Some f,
        {| pool_size_ := pool_size_ b;
           pages_ := <[Z.to_nat f :=
                         fresh_frame page_id (Disk.ReadPage page_id (disk_ b)) p]>
                       (pages_ b);
           page_table_ := <[page_id := f]> (page_table_ b);
           free_list_ := fl;
           replacer_ := touched (replacer_ b) f;
           next_page_id_ := next_page_id_ b;
           disk_ := disk_ b |}).
Proof.
  intros Habsent Hfree Hp Hclean Hinv Hf. unfold FetchPage. rewrite Habsent.
  rewrite (acquire_frame_free f fl p) by done. simpl.
  pose proof Hp as [Hi Hl]%page_at_Ok.
  assert (Hlen : (Z.to_nat f < length (pages_ b))%nat) by by eapply lookup_lt_Some.
  rewrite (modify_page_Ok _ _ _ p) by done. simpl.
  rewrite (install_ok _ f (Page.set_data (Disk.ReadPage page_id (disk_ b)) p))
    by (done || by apply page_at_insert).
  simpl. by rewrite list_insert_insert_eq.
Qed.

(** X8. [FetchPage] of a page that is not resident, with a frame on the free
    list whose page needs no write-back: the front frame is filled with the
    page's bytes from disk, pinned once, marked clean and entered in the
    page table; the access is recorded and the frame made non-evictable. *)
Theorem FetchPage_reads_from_disk page_id f fl p b :
  page_table_ b !! page_id = None →
  free_list_ b = f :: fl → page_at f b = Ok p → needs_write_back p = false →
  LRUKSpec.inv (replacer_ b) →
  f ≤ to_int32 (LRUKReplacer.replacer_size_ (replacer_ b)) →
  FetchPage page_id b
  = Ok (Some f,
        {| pool_size_ := pool_size_ b;
           pages_ := <[Z.to_nat f :=
                         fresh_frame page_id (Disk.ReadPage page_id (disk_ b)) p]>
                       (pages_ b);
           page_table_ := <[page_id := f]> (page_table_ b);
           free_list_ := fl;
           replacer_ := touched (replacer_ b) f;
           next_page_id_ := next_page_id_ b;
           disk_ := disk_ b |}).
Proof. apply FetchPage_miss_free. Qed.

Lemma FetchPage_reads_from_disk_witness :
  FetchPage 2 (BufferPoolManager.new 3 {[2 := image]} 2)
  = Ok (Some 0,
        {| pool_size_ := 3;
           pages_ := <[Z.to_nat 0 :=
                         fresh_frame 2 (Disk.ReadPage 2 {[2 := image]}) Page.new]>
                       [Page.new; Page.new; Page.new];
           page_table_ := <[2 := 0]> ∅;
           free_list_ := [1; 2];
           replacer_ := touched (LRUKReplacer.new 3 2) 0;
           next_page_id_ := 0;
           disk_ := {[2 := image]} |}).
Proof.
  etrans.
  - apply (FetchPage_reads_from_disk 2 0 [1; 2] Page.new
             (BufferPoolManager.new 3 {[2 := image]} 2)).
    + done.
    + done.
    + done.
    + done.
    + apply new_inv. unfold SIZE_MAX_plus_1. lia.
    + by vm_compute.
  - reflexivity.
Defined.

Lemma acquire_frame_evicts b :
  free_list_ b = [] → LRUKSpec.inv (replacer_ b) → frames_ok b →
  (∃ f n, LRUKReplacer.node_store_ (replacer_ b) !! f = Some n ∧ LRUKSpec.evictable n) →
  ∃ v nv p,
    acquire_frame b = Ok (Some v, evicted_pool v p b) ∧
    LRUKReplacer.node_store_ (replacer_ b) !! v = Some nv ∧ LRUKSpec.evictable nv ∧
    (∀ f n, LRUKReplacer.node_store_ (replacer_ b) !! f = Some n →
            LRUKSpec.evictable n → LRUKSpec.dominates (replacer_ b) nv n) ∧
    page_at v b = Ok p.
Proof.
  intros Hfree Hinv Hframes Hsome.
  destruct (Evict_in_spec (map_to_list (LRUKReplacer.node_store_ (replacer_ b)))
              INVALID_FRAME_ID (replacer_ b) Hinv (reflexivity _)) as [Hev _].
  destruct (Hev Hsome) as (v & nv & Hrun & Hv & Hnv & Hdom).
  destruct (Hframes v nv Hv) as [[Hv0 Hvlen] _].
  destruct (lookup_lt_is_Some_2 (pages_ b) (Z.to_nat v)) as [p Hp]; [lia|].
  assert (Hpage : page_at v b = Ok p) by by apply page_at_Ok.
  exists v, nv, p. split; [|done].
  assert (Hpos : LRUKReplacer.Size (replacer_ b) > 0).
  { destruct Hinv as (_ & _ & Hsz & _ & Hcount). unfold LRUKReplacer.Size.
    destruct Hsome as (f0 & n0 & Hf0 & Hn0).
    destruct (decide (LRUKReplacer.curr_size_ (replacer_ b) = 0)) as [Hz|]; [|lia].
    rewrite Hcount in Hz. exfalso.
    by apply (proj1 (evictable_count_zero (replacer_ b)) Hz f0 n0). }
  unfold acquire_frame. rewrite Hfree, bool_decide_eq_true_2 by done.
  unfold LRUKReplacer.Evict. rewrite Hrun. simpl.
  change (page_at v (set_replacer _ b)) with (page_at v b). rewrite Hpage. simpl.
  rewrite bool_decide_eq_false_2 by (unfold INVALID_FRAME_ID; lia).
  change (page_at v (set_page_table _ (set_replacer _ b))) with (page_at v b).
  rewrite Hpage. simpl. unfold evicted_pool, disk_after_eviction, needs_write_back.
  destruct (bool_decide (Page.page_id_ p ≠ INVALID_PAGE_ID) && Page.is_dirty_ p); [|done].
  unfold write_back. 
  change (page_at v (set_page_table _ (set_replacer _ b))) with (page_at v b).
  rewrite Hpage. simpl.
  rewrite (modify_page_Ok _ _ _ p) by done. done.
Qed.

Lemma evicted_pool_page_at v p b :
  page_at v b = Ok p →
  page_at v (evicted_pool v p b)
  = Ok (Page.set_data (buffer_after_eviction p) p).
Proof.
  intros Hp. pose proof Hp as [Hi Hl]%page_at_Ok. apply page_at_Ok.
  split; [done|]. unfold evicted_pool, buffer_after_eviction. simpl.
  destruct (needs_write_back p).
  - apply list_lookup_insert_eq. by eapply lookup_lt_Some.
  - by destruct p.
Qed.

Lemma evicted_pool_insert v p q b :
  page_at v b = Ok p →
  <[Z.to_nat v := q]> (pages_ (evicted_pool v p b)) = <[Z.to_nat v := q]> (pages_ b).
Proof.
  intros Hp. unfold evicted_pool. simpl.
  destruct (needs_write_back p); [|done]. by rewrite list_insert_insert_eq.
Qed.

Lemma dirty_single_inv : LRUKSpec.inv (replacer_ dirty_single).
Proof.
  unfold LRUKSpec.inv, SIZE_MAX_plus_1. simpl.
  split; [lia|]. split; [lia|]. split; [lia|]. split; [|by vm_compute].
  apply map_Forall_singleton. unfold LRUKSpec.node_ok. simpl.
  split; [done|]. split; [done|]. split; [lia|]. repeat constructor; lia.
Defined.

Lemma dirty_single_frames_ok : frames_ok dirty_single.
Proof. apply map_Forall_singleton. by vm_compute. Defined.

(** X9. [NewPage] with no free frame, in a pool whose replacer satisfies
    its invariant and tracks frames of the array only: when some frame is
    evictable it reuses an evictable frame of maximum backward k-distance,
    erases the mapping of the page that frame held and writes that page
    back to disk under its own id if it was dirty; the frame then holds the
    next page id, pinned once and clean, and is non-evictable. The buffer
    is zeroed after a write-back only: a clean victim's bytes stay in the
    new page. *)
Theorem NewPage_evicts_a_victim page_id0 b :
  free_list_ b = [] → LRUKSpec.inv (replacer_ b) → frames_ok b →
  (∃ f n, LRUKReplacer.node_store_ (replacer_ b) !! f = Some n ∧ LRUKSpec.evictable n) →
  ∃ v nv p b',
    NewPage page_id0 b = Ok (Some v, next_page_id_ b, b') ∧
    LRUKReplacer.node_store_ (replacer_ b) !! v = Some nv ∧ LRUKSpec.evictable nv ∧
    (∀ f n, LRUKReplacer.node_store_ (replacer_ b) !! f = Some n →
            LRUKSpec.evictable n → LRUKSpec.dominates (replacer_ b) nv n) ∧
    page_at v b = Ok p ∧
    disk_ b' = disk_after_eviction p b ∧
    page_table_ b'
    = <[next_page_id_ b := v]> (delete (Page.page_id_ p) (page_table_ b)) ∧
    pages_ b'
    = <[Z.to_nat v := fresh_frame (next_page_id_ b) (buffer_after_eviction p) p]>
        (pages_ b) ∧
    replacer_ b' = touched (LRUKSpec.evicted v (replacer_ b)) v ∧
    free_list_ b' = [] ∧
    next_page_id_ b' = to_int32 (next_page_id_ b + 1).
Proof.
  intros Hfree Hinv Hframes Hsome.
  destruct (acquire_frame_evicts b Hfree Hinv Hframes Hsome)
    as (v & nv & p & Hacq & Hv & Hnv & Hdom & Hp).
  destruct (Hframes v nv Hv) as [_ Hguard].
  exists v, nv, p. eexists. split.
  - unfold NewPage. rewrite Hacq. simpl.
    rewrite (install_ok _ v (Page.set_data (buffer_after_eviction p) p)).
    + simpl. reflexivity.
    + apply (evicted_pool_page_at v p) in Hp. exact Hp.
    + simpl. by apply (evicted_inv _ v nv).
    + done.
  - simpl. rewrite (evicted_pool_insert v p _ b Hp), Hfree. done.
Qed.

Lemma NewPage_evicts_a_victim_witness :
  ∃ v nv p b',
    NewPage 0 dirty_single = Ok (Some v, 4, b') ∧
    LRUKReplacer.node_store_ (replacer_ dirty_single) !! v = Some nv ∧
    LRUKSpec.evictable nv ∧
    (∀ f n, LRUKReplacer.node_store_ (replacer_ dirty_single) !! f = Some n →
            LRUKSpec.evictable n → LRUKSpec.dominates (replacer_ dirty_single) nv n) ∧
    page_at v dirty_single = Ok p ∧
    disk_ b' = disk_after_eviction p dirty_single ∧
    page_table_ b' = <[4 := v]> (delete (Page.page_id_ p) {[3 := 0]}) ∧
    pages_ b'
    = <[Z.to_nat v := fresh_frame 4 (buffer_after_eviction p) p]>
        (pages_ dirty_single) ∧
    replacer_ b' = touched (LRUKSpec.evicted v (replacer_ dirty_single)) v ∧
    free_list_ b' = [] ∧
    next_page_id_ b' = to_int32 (4 + 1).
Proof.
  apply (NewPage_evicts_a_victim 0 dirty_single eq_refl dirty_single_inv
           dirty_single_frames_ok).
  exists 0, (LRUKNode.mk [0] 1 0 true). by vm_compute.
Defined.

(** X10. [FetchPage] of a page that is not resident, with no free frame,
    under the same conditions: the victim is chosen and written back as in
    [NewPage], and the frame is then filled with the bytes the disk holds
    for the requested page after that write-back. *)
Theorem FetchPage_evicts_a_victim page_id b :
  page_table_ b !! page_id = None →
  free_list_ b = [] → LRUKSpec.inv (replacer_ b) → frames_ok b →
  (∃ f n, LRUKReplacer.node_store_ (replacer_ b) !! f = Some n ∧ LRUKSpec.evictable n) →
  ∃ v nv p b',
    FetchPage page_id b = Ok (Some v, b') ∧
    LRUKReplacer.node_store_ (replacer_ b) !! v = Some nv ∧ LRUKSpec.evictable nv ∧
    (∀ f n, LRUKReplacer.node_store_ (replacer_ b) !! f = Some n →
            LRUKSpec.evictable n → LRUKSpec.dominates (replacer_ b) nv n) ∧
    page_at v b = Ok p ∧
    disk_ b' = disk_after_eviction p b ∧
    page_table_ b' = <[page_id := v]> (delete (Page.page_id_ p) (page_table_ b)) ∧
    pages_ b'
    = <[Z.to_nat v := fresh_frame page_id (Disk.ReadPage page_id (disk_ b')) p]>
        (pages_ b) ∧
    replacer_ b' = touched (LRUKSpec.evicted v (replacer_ b)) v ∧
    free_list_ b' = [] ∧
    next_page_id_ b' = next_page_id_ b.
Proof.
  intros Habsent Hfree Hinv Hframes Hsome.
  destruct (acquire_frame_evicts b Hfree Hinv Hframes Hsome)
    as (v & nv & p & Hacq & Hv & Hnv & Hdom & Hp).
  destruct (Hframes v nv Hv) as [[Hv0 Hvlen] Hguard].
  pose proof (evicted_pool_page_at v p b Hp) as Hp'.
  exists v, nv, p. eexists. split.
  - unfold FetchPage. rewrite Habsent, Hacq. simpl.
    rewrite (modify_page_Ok _ _ _ _ Hp'). simpl.
    rewrite (install_ok _ v
               (Page.set_data (Disk.ReadPage page_id (disk_after_eviction p b))
                  (Page.set_data (buffer_after_eviction p) p))).
    + simpl. reflexivity.
    + apply page_at_insert; [done|].
      unfold evicted_pool. simpl.
      destruct (needs_write_back p); [rewrite length_insert|]; lia.
    + simpl. by apply (evicted_inv _ v nv).
    + done.
  - simpl. rewrite list_insert_insert_eq, (evicted_pool_insert v p _ b Hp), Hfree. done.
Qed.

Lemma FetchPage_evicts_a_victim_witness :
  ∃ v nv p b',
    FetchPage 5 dirty_single = Ok (Some v, b') ∧
    LRUKReplacer.node_store_ (replacer_ dirty_single) !! v = Some nv ∧
    LRUKSpec.evictable nv ∧
    (∀ f n, LRUKReplacer.node_store_ (replacer_ dirty_single) !! f = Some n →
            LRUKSpec.evictable n → LRUKSpec.dominates (replacer_ dirty_single) nv n) ∧
    page_at v dirty_single = Ok p ∧
    disk_ b' = disk_after_eviction p dirty_single ∧
    page_table_ b' = <[5 := v]> (delete (Page.page_id_ p) {[3 := 0]}) ∧
    pages_ b'
    = <[Z.to_nat v := fresh_frame 5 (Disk.ReadPage 5 (disk_ b')) p]>
        (pages_ dirty_single) ∧
    replacer_ b' = touched (LRUKSpec.evicted v (replacer_ dirty_single)) v ∧
    free_list_ b' = [] ∧
    next_page_id_ b' = 4.
Proof.
  apply (FetchPage_evicts_a_victim 5 dirty_single).
  - by vm_compute.
  - done.
  - apply dirty_single_inv.
  - apply dirty_single_frames_ok.
  - exists 0, (LRUKNode.mk [0] 1 0 true). by vm_compute.
Defined.

Lemma UnpinPage_pinned page_id is_dirty f p b :
  page_table_ b !! page_id = Some f → page_at f b = Ok p →
  ¬ Page.pin_count_ p ≤ 0 →
  UnpinPage page_id is_dirty b
  = (let b1 := set_pages (<[Z.to_nat f := unpinned_frame is_dirty p]> (pages_ b)) b in
     if bool_decide (Page.pin_count_ p = 1) then
       r ← LRUKReplacer.SetEvictable f true (replacer_ b); Ok (true, set_replacer r b1)
     else Ok (true, b1)).
Proof.
  intros Ht Hp Hpin. unfold UnpinPage. rewrite Ht, Hp. simpl.
  rewrite bool_decide_eq_false_2 by done.
  pose proof Hp as [Hi Hl]%page_at_Ok.
  assert (Hlen : (Z.to_nat f < length (pages_ b))%nat) by by eapply lookup_lt_Some.
  rewrite (modify_page_Ok _ _ _ p) by done. simpl.
  rewrite (modify_page_Ok _ _ _ (Page.set_is_dirty (Page.is_dirty_ p || is_dirty) p))
    by (by apply page_at_insert).
  simpl. rewrite list_insert_insert_eq.
  rewrite page_at_insert by done. simpl.
  change (Page.set_pin_count _ _) with (unpinned_frame is_dirty p).
  case_bool_decide as H1; case_bool_decide as H2; try lia; done.
Qed.

(** X11. [UnpinPage] of a resident page. With a pin count of 0 or less it
    returns false and changes nothing. Otherwise it returns true, takes one
    pin off and ORs [is_dirty] into the frame's dirty flag (an unpin with
    [false] never cleans the frame); the replacer is touched only when the
    pin count reaches 0, where [SetEvictable(frame, true)] runs: it throws
    if the replacer has no node for the frame. *)
Theorem UnpinPage_releases_one_pin page_id is_dirty f p b :
  page_table_ b !! page_id = Some f → page_at f b = Ok p →
  let b1 := set_pages (<[Z.to_nat f := unpinned_frame is_dirty p]> (pages_ b)) b in
  (Page.pin_count_ p ≤ 0 → UnpinPage page_id is_dirty b = Ok (false, b)) ∧
  (Page.pin_count_ p > 1 → UnpinPage page_id is_dirty b = Ok (true, b1)) ∧
  (Page.pin_count_ p = 1 →
   match LRUKReplacer.node_store_ (replacer_ b) !! f with
   | Some n =>
       UnpinPage page_id is_dirty b
       = Ok (true, set_replacer (made_evictable f n (replacer_ b)) b1)
   | None =>
       UnpinPage page_id is_dirty b
       = Fail (Exception "SetEvictable: frame id is invalid")
   end).
Proof.
  intros Ht Hp b1. split; [|split].
  - intros Hpin. unfold UnpinPage. rewrite Ht, Hp. simpl.
    by rewrite bool_decide_eq_true_2.
  - intros Hpin. rewrite (UnpinPage_pinned _ _ f p) by (done || lia).
    simpl. by rewrite bool_decide_eq_false_2 by lia.
  - intros Hpin. rewrite (UnpinPage_pinned _ _ f p) by (done || lia).
    simpl. rewrite bool_decide_eq_true_2 by done.
    unfold LRUKReplacer.SetEvictable.
    destruct (LRUKReplacer.node_store_ (replacer_ b) !! f) as [n|]; [|done].
    simpl. unfold made_evictable. by destruct (LRUKNode.is_evictable_ n).
Qed.

Lemma UnpinPage_releases_one_pin_witness :
  let p := Page.mk image 0 1 false ReaderWriterLatch.free in
  let b1 := set_pages (<[Z.to_nat 0 := unpinned_frame true p]> (pages_ fetched_pool))
              fetched_pool in
  (Page.pin_count_ p ≤ 0 → UnpinPage 0 true fetched_pool = Ok (false, fetched_pool)) ∧
  (Page.pin_count_ p > 1 → UnpinPage 0 true fetched_pool = Ok (true, b1)) ∧
  (Page.pin_count_ p = 1 →
   match LRUKReplacer.node_store_ (replacer_ fetched_pool) !! 0 with
   | Some n =>
       UnpinPage 0 true fetched_pool
       = Ok (true, set_replacer (made_evictable 0 n (replacer_ fetched_pool)) b1)
   | None =>
       UnpinPage 0 true fetched_pool
       = Fail (Exception "SetEvictable: frame id is invalid")
   end).
Proof.
  apply (UnpinPage_releases_one_pin 0 true 0
           (Page.mk image 0 1 false ReaderWriterLatch.free) fetched_pool).
  - by vm_compute.
  - by vm_compute.
Defined.







(** X13. What [FlushPage] writes survives a restart: after a flush of a
    resident page, a new pool over the same disk fetches the page with the
    bytes the frame held before the flush, into frame 0, pinned once and
    clean. *)
Theorem FlushPage_survives_restart page_id f p b n k :
  page_table_ b !! page_id = Some f → page_at f b = Ok p →
  1 ≤ n < 2 ^ 31 → 1 ≤ k < SIZE_MAX_plus_1 →
  ∃ b1 b2,
    FlushPage page_id b = Ok (true, b1) ∧
    FetchPage page_id (BufferPoolManager.new n (disk_ b1) k) = Ok (Some 0, b2) ∧
    page_at 0 b2 = Ok (fresh_frame page_id (Page.data_ p) Page.new).
Proof.
  intros Ht Hp Hn Hk.
  assert (Hsucc : ∃ m, Z.to_nat n = S m) by (exists (Z.to_nat (n - 1)); lia).
  destruct Hsucc as [m Hm].
  eexists _, _. split; [by apply (FlushPage_resident _ f)|].
  rewrite (FetchPage_miss_free page_id 0 (Z.of_nat <$> seq 1 m) Page.new).
  - split; [reflexivity|]. apply page_at_Ok. split; [done|].
    cbn. rewrite Hm. cbn. unfold Disk.ReadPage, Disk.WritePage.
    by rewrite lookup_insert_eq.
  - done.
  - cbn. by rewrite Hm.
  - apply page_at_Ok. split; [done|]. cbn. by rewrite Hm.
  - done.
  - by apply new_inv.
  - cbn. rewrite to_int32_small; lia.
Qed.

Lemma FlushPage_survives_restart_witness :
  ∃ b1 b2,
    FlushPage 2 dirty_pool = Ok (true, b1) ∧
    FetchPage 2 (BufferPoolManager.new 1 (disk_ b1) 2) = Ok (Some 0, b2) ∧
    page_at 0 b2 = Ok (fresh_frame 2 image Page.new).
Proof.
  apply (FlushPage_survives_restart 2 0
           (Page.mk image 2 0 true ReaderWriterLatch.free) dirty_pool 1 2).
  - by vm_compute.
  - by vm_compute.
  - lia.
  - unfold SIZE_MAX_plus_1. lia.
Defined.

(** X14. What a returning [DeletePage] tells the caller. [true]: the page
    is not resident afterwards and deleting it again changes nothing; if it
    was resident, its frame had no pin, is now cleared and last in the free
    list, the replacer no longer tracks it, and a dirty page's bytes are on
    disk. [false]: the pool is unchanged and the page is resident and
    pinned. *)
Theorem DeletePage_outcome page_id b res b' :
  DeletePage page_id b = Ok (res, b') →
  if res then
    page_table_ b' !! page_id = None ∧
    DeletePage page_id b' = Ok (true, b') ∧
    ∀ f p, page_table_ b !! page_id = Some f → page_at f b = Ok p →
           Page.pin_count_ p ≤ 0 ∧
           page_at f b' = Ok (cleared p) ∧
           free_list_ b' = free_list_ b ++ [f] ∧
           LRUKReplacer.node_store_ (replacer_ b') !! f = None ∧
           (Page.is_dirty_ p = true → disk_ b' !! page_id = Some (Page.data_ p))
  else
    b' = b ∧
    ∃ f p, page_table_ b !! page_id = Some f ∧ page_at f b = Ok p ∧
           Page.pin_count_ p > 0.
Proof.
  intros Hrun.
  destruct (page_table_ b !! page_id) as [f|] eqn:Ht.
  2:{ rewrite DeletePage_absent in Hrun by done. injection Hrun as <- <-.
      split; [done|]. split; [by apply DeletePage_absent|]. intros ???. done. }
  destruct (page_at f b) as [p|e] eqn:Hp.
  2:{ unfold DeletePage in Hrun. by rewrite Ht, Hp in Hrun. }
  destruct (decide (Page.pin_count_ p > 0)) as [Hpin|Hpin].
  { rewrite (DeletePage_pinned _ f p) in Hrun by done. injection Hrun as <- <-.
    split; [done|]. by exists f, p. }
  destruct (LRUKReplacer.Remove f (replacer_ b)) as [r|e] eqn:Hr.
  2:{ unfold DeletePage in Hrun. rewrite Ht, Hp in Hrun. cbn in Hrun.
      rewrite bool_decide_eq_false_2 in Hrun by done.
      destruct (Page.is_dirty_ p); unfold write_back in Hrun;
        [rewrite Hp in Hrun|]; cbn in Hrun; by rewrite Hr in Hrun. }
  rewrite (DeletePage_unpinned _ f p r) in Hrun by done. injection Hrun as <- <-.
  assert (Habs : page_table_ (deleted page_id f p r b) !! page_id = None)
    by apply lookup_delete_eq.
  split; [done|]. split; [by apply DeletePage_absent|].
  intros f' p' [= <-] Hp'. rewrite Hp in Hp'. injection Hp' as <-.
  split; [lia|]. split.
  { unfold deleted. by apply (page_at_set_pages_insert f b p). }
  split; [done|]. split.
  - cbn. unfold LRUKReplacer.Remove in Hr.
    destruct (LRUKReplacer.node_store_ (replacer_ b) !! f) as [n|] eqn:Hn.
    + destruct (negb (LRUKNode.is_evictable_ n)); [done|]. injection Hr as <-.
      apply lookup_delete_eq.
    + by injection Hr as <-.
  - intros Hd. cbn. rewrite Hd. apply lookup_insert_eq.
Qed.

Lemma DeletePage_outcome_witness :
  page_table_ (deleted 0 0 (frame 0 unpinned_pool)
                 (LRUKSpec.evicted 0 (replacer_ unpinned_pool)) unpinned_pool) !! 0 = None ∧
  DeletePage 0 (deleted 0 0 (frame 0 unpinned_pool)
                  (LRUKSpec.evicted 0 (replacer_ unpinned_pool)) unpinned_pool)
  = Ok (true, deleted 0 0 (frame 0 unpinned_pool)
                (LRUKSpec.evicted 0 (replacer_ unpinned_pool)) unpinned_pool) ∧
  ∀ f p, page_table_ unpinned_pool !! 0 = Some f → page_at f unpinned_pool = Ok p →
         Page.pin_count_ p ≤ 0 ∧
         page_at f (deleted 0 0 (frame 0 unpinned_pool)
                      (LRUKSpec.evicted 0 (replacer_ unpinned_pool)) unpinned_pool)
         = Ok (cleared p) ∧
         free_list_ (deleted 0 0 (frame 0 unpinned_pool)
                       (LRUKSpec.evicted 0 (replacer_ unpinned_pool)) unpinned_pool)
         = free_list_ unpinned_pool ++ [f] ∧
         LRUKReplacer.node_store_
           (replacer_ (deleted 0 0 (frame 0 unpinned_pool)
                         (LRUKSpec.evicted 0 (replacer_ unpinned_pool)) unpinned_pool))
           !! f = None ∧
         (Page.is_dirty_ p = true →
          disk_ (deleted 0 0 (frame 0 unpinned_pool)
                   (LRUKSpec.evicted 0 (replacer_ unpinned_pool)) unpinned_pool) !! 0
          = Some (Page.data_ p)).
Proof.
  apply (DeletePage_outcome 0 unpinned_pool true).
  by vm_compute.
Defined.

(** X15. The life of a page that is fetched into a free frame the
    replacer has no node for, unpinned and deleted: after the unpin the
    frame is evictable, holds the disk's bytes with pin count 0 and the
    dirty flag of the unpin, and a second unpin is refused; the delete then
    succeeds and leaves the page table, the replacer's nodes and [Size] as
    they were before the fetch, the frame cleared and moved to the back of
    the free list, and the page written to disk exactly if the unpin said
    dirty. *)
Theorem page_lifecycle page_id is_dirty f fl p b :
  page_table_ b !! page_id = None →
  free_list_ b = f :: fl → page_at f b = Ok p → needs_write_back p = false →
  LRUKSpec.inv (replacer_ b) →
  f ≤ to_int32 (LRUKReplacer.replacer_size_ (replacer_ b)) →
  LRUKReplacer.node_store_ (replacer_ b) !! f = None →
  LRUKReplacer.Size (replacer_ b) + 1 < SIZE_MAX_plus_1 →
  ∃ b1 b2 b3,
    FetchPage page_id b = Ok (Some f, b1) ∧
    UnpinPage page_id is_dirty b1 = Ok (true, b2) ∧
    page_at f b2
    = Ok (Page.mk (Disk.ReadPage page_id (disk_ b)) page_id 0 is_dirty
            (Page.rwlatch_ p)) ∧
    LRUKReplacer.Size (replacer_ b2) = LRUKReplacer.Size (replacer_ b) + 1 ∧
    UnpinPage page_id is_dirty b2 = Ok (false, b2) ∧
    DeletePage page_id b2 = Ok (true, b3) ∧
    page_table_ b3 = page_table_ b ∧
    free_list_ b3 = fl ++ [f] ∧
    page_at f b3 = Ok (cleared p) ∧
    LRUKReplacer.node_store_ (replacer_ b3) = LRUKReplacer.node_store_ (replacer_ b) ∧
    LRUKReplacer.Size (replacer_ b3) = LRUKReplacer.Size (replacer_ b) ∧
    disk_ b3 = if is_dirty
               then Disk.WritePage page_id (Disk.ReadPage page_id (disk_ b)) (disk_ b)
               else disk_ b.
Proof.
  intros Habsent Hfree Hp Hclean Hinv Hguard Hnone Hroom.
  pose proof Hp as [Hi Hl]%page_at_Ok.
  assert (Hlen : (Z.to_nat f < length (pages_ b))%nat) by by eapply lookup_lt_Some.
  destruct Hinv as (HK & Hts & Hsz & Hnodes & Hcount).
  unfold LRUKReplacer.Size in *.
  set (q := fresh_frame page_id (Disk.ReadPage page_id (disk_ b)) p).
  set (b1 := {| pool_size_ := pool_size_ b;
                pages_ := <[Z.to_nat f := q]> (pages_ b);
                page_table_ := <[page_id := f]> (page_table_ b);
                free_list_ := fl;
                replacer_ := touched (replacer_ b) f;
                next_page_id_ := next_page_id_ b;
                disk_ := disk_ b |}).
  assert (Hfetch : FetchPage page_id b = Ok (Some f, b1)).
  { by apply FetchPage_miss_free. }
  assert (Hq : page_at f b1 = Ok q).
  { apply page_at_Ok. split; [done|]. by apply list_lookup_insert_eq. }
  assert (Ht1 : page_table_ b1 !! page_id = Some f) by apply lookup_insert_eq.
  set (n1 := LRUKNode.mk [LRUKReplacer.current_timestamp_ (replacer_ b)] 1 f false).
  assert (Hn1 : LRUKReplacer.node_store_ (replacer_ b1) !! f = Some n1).
  { cbn. rewrite Hnone. cbn. apply lookup_insert_eq. }
  set (b2 := set_replacer (made_evictable f n1 (replacer_ b1))
               (set_pages (<[Z.to_nat f := unpinned_frame is_dirty q]> (pages_ b1)) b1)).
  assert (Hunpin : UnpinPage page_id is_dirty b1 = Ok (true, b2)).
  { rewrite (UnpinPage_pinned _ _ f q) by (done || (cbn; lia)).
    cbn -[b1]. unfold LRUKReplacer.SetEvictable. rewrite Hn1. done. }
  set (q2 := Page.mk (Disk.ReadPage page_id (disk_ b)) page_id 0 is_dirty
               (Page.rwlatch_ p)).
  assert (Hq2 : page_at f b2 = Ok q2).
  { apply page_at_Ok. split; [done|]. cbn. rewrite list_insert_insert_eq.
    by apply list_lookup_insert_eq. }
  assert (Ht2 : page_table_ b2 !! page_id = Some f) by apply lookup_insert_eq.
  set (r3 := LRUKReplacer.mk (LRUKReplacer.node_store_ (replacer_ b))
               (size_t_wrap (LRUKReplacer.current_timestamp_ (replacer_ b) + 1))
               (LRUKReplacer.curr_size_ (replacer_ b))
               (LRUKReplacer.replacer_size_ (replacer_ b))
               (LRUKReplacer.k_ (replacer_ b))).
  assert (Hremove : LRUKReplacer.Remove f (replacer_ b2) = Ok r3).
  { unfold LRUKReplacer.Remove. cbn. rewrite Hnone. cbn.
    rewrite lookup_insert_eq. cbn. unfold r3. do 2 f_equal.
    - rewrite !insert_insert_eq. rewrite delete_insert_eq. by apply delete_id.
    - rewrite (size_t_wrap_small (_ + 1)) by lia.
      rewrite size_t_wrap_small by lia. lia. }
  exists b1, b2, (deleted page_id f q2 r3 b2).
  split; [done|]. split; [done|]. split; [done|]. split.
  { cbn. rewrite Hnone. cbn. apply size_t_wrap_small. lia. }
  split.
  { unfold UnpinPage. rewrite Ht2, Hq2. done. }
  split.
  { by apply DeletePage_unpinned. }
  split.
  { cbn. rewrite delete_insert_eq. by apply delete_id. }
  split; [done|]. split.
  { apply page_at_Ok. split; [done|]. cbn. rewrite !list_insert_insert_eq.
    by apply list_lookup_insert_eq. }
  split; [done|]. split; [done|].
  cbn. by destruct is_dirty.
Qed.

Lemma page_lifecycle_witness :
  ∃ b1 b2 b3,
    FetchPage 2 (BufferPoolManager.new 3 {[2 := image]} 2) = Ok (Some 0, b1) ∧
    UnpinPage 2 true b1 = Ok (true, b2) ∧
    page_at 0 b2
    = Ok (Page.mk (Disk.ReadPage 2 {[2 := image]}) 2 0 true ReaderWriterLatch.free) ∧
    LRUKReplacer.Size (replacer_ b2) = 0 + 1 ∧
    UnpinPage 2 true b2 = Ok (false, b2) ∧
    DeletePage 2 b2 = Ok (true, b3) ∧
    page_table_ b3 = ∅ ∧
    free_list_ b3 = [1; 2] ++ [0] ∧
    page_at 0 b3 = Ok (cleared Page.new) ∧
    LRUKReplacer.node_store_ (replacer_ b3) = ∅ ∧
    LRUKReplacer.Size (replacer_ b3) = 0 ∧
    disk_ b3 = Disk.WritePage 2 (Disk.ReadPage 2 {[2 := image]}) {[2 := image]}.
Proof.
  refine (page_lifecycle 2 true 0 [1; 2] Page.new
            (BufferPoolManager.new 3 {[2 := image]} 2) _ _ _ _ _ _ _ _).
  - done.
  - done.
  - done.
  - done.
  - apply new_inv. unfold SIZE_MAX_plus_1. lia.
  - by vm_compute.
  - done.
  - by vm_compute.
Defined.

Lemma touched_inv r f :
  LRUKSpec.inv r →
  LRUKReplacer.current_timestamp_ r + 1 < SIZE_MAX_plus_1 →
  LRUKReplacer.curr_size_ r + 1 < SIZE_MAX_plus_1 →
  f ≤ to_int32 (LRUKReplacer.replacer_size_ r) →
  LRUKSpec.inv (touched r f).
Proof.
  intros Hinv Hroom Hsz Hf. pose proof (touch_ok r f Hinv Hf) as Hrun.
  pose proof (RecordAccess_ok r f Hinv Hf) as Hrec. rewrite Hrec in Hrun.
  pose proof (RecordAccess_inv r f _ Hinv Hroom Hrec) as Hinv1.
  by apply (SetEvictable_inv _ f false _ Hinv1 Hsz).
Qed.

Lemma touched_Size_zero r f :
  LRUKSpec.inv r → LRUKReplacer.Size r = 0 → LRUKReplacer.Size (touched r f) = 0.
Proof.
  intros (_ & _ & _ & _ & Hcount) Hzero. unfold LRUKReplacer.Size in *.
  rewrite Hcount in Hzero.
  pose proof (proj1 (evictable_count_zero r) Hzero) as Hnone.
  unfold touched. cbn.
  destruct (LRUKReplacer.node_store_ r !! f) as [n|] eqn:Hn; cbn.
  - assert (Hev : LRUKNode.is_evictable_ n = false).
    { apply not_true_is_false. apply (Hnone f n Hn). }
    case_bool_decide; cbn; rewrite Hev; lia.
  - lia.
Qed.

(** [m] calls of [NewPage] on a pool whose frames from [j] on are free and
    untouched. *)
Lemma NewPage_times_fill N m : ∀ j b,
  (j + m = N)%nat → Z.of_nat N < 2 ^ 31 →
  free_list_ b = Z.of_nat <$> seq j m →
  length (pages_ b) = N →
  (∀ i, (j ≤ i < N)%nat → pages_ b !! i = Some Page.new) →
  LRUKSpec.inv (replacer_ b) →
  LRUKReplacer.Size (replacer_ b) = 0 →
  LRUKReplacer.replacer_size_ (replacer_ b) = Z.of_nat N →
  LRUKReplacer.current_timestamp_ (replacer_ b) = Z.of_nat j →
  next_page_id_ b = Z.of_nat j →
  ∃ b', NewPage_times m b
        = Ok ((λ i : nat, (Some (Z.of_nat i), Z.of_nat i)) <$> seq j m, b') ∧
        free_list_ b' = [] ∧ LRUKReplacer.Size (replacer_ b') = 0 ∧
        disk_ b' = disk_ b ∧
        (∀ i, (j ≤ i < N)%nat → page_table_ b' !! Z.of_nat i = Some (Z.of_nat i)) ∧
        (∀ i, (j ≤ i < N)%nat →
              pages_ b' !! i
              = Some (Page.mk Page.zeroes (Z.of_nat i) 1 false ReaderWriterLatch.free)) ∧
        (∀ i, (i < j)%nat → page_table_ b' !! Z.of_nat i = page_table_ b !! Z.of_nat i) ∧
        (∀ i, (i < j)%nat → pages_ b' !! i = pages_ b !! i).
Proof.
  induction m as [|m IH]; intros j b Hjm HN Hfree Hlen Hpages Hinv Hsize Hrs Hts Hnext.
  - exists b. split; [done|]. split; [done|]. split; [done|]. split; [done|].
    split; [intros i Hi; lia|]. split; [intros i Hi; lia|]. done.
  - cbn [NewPage_times seq fmap list_fmap].
    cbn [seq fmap list_fmap] in Hfree.
    assert (Hp : page_at (Z.of_nat j) b = Ok Page.new).
    { apply page_at_Ok. split; [lia|]. rewrite Nat2Z.id. apply Hpages. lia. }
    assert (Hguard : Z.of_nat j ≤ to_int32 (LRUKReplacer.replacer_size_ (replacer_ b))).
    { rewrite Hrs, to_int32_small; lia. }
    rewrite (NewPage_free _ (Z.of_nat j) (Z.of_nat <$> seq (S j) m) Page.new) by done.
    cbn [mbind outcome_bind].
    set (b1 := BufferPoolManager.mk _ _ _ _ _ _ _).
    destruct (IH (S j) b1)
      as (b' & Hrun & Hfree' & Hsize' & Hdisk' & Htable' & Hpages' & Htkeep & Hpkeep).
    + lia.
    + done.
    + done.
    + subst b1. cbn. by rewrite length_insert.
    + intros i Hi. subst b1. cbn. rewrite Nat2Z.id.
      rewrite list_lookup_insert_ne by lia. apply Hpages. lia.
    + subst b1. cbn. apply touched_inv; try done.
      * rewrite Hts. unfold SIZE_MAX_plus_1. lia.
      * unfold LRUKReplacer.Size in Hsize. rewrite Hsize. unfold SIZE_MAX_plus_1. lia.
    + subst b1. cbn [replacer_]. by apply touched_Size_zero.
    + done.
    + subst b1. cbn. rewrite Hts, size_t_wrap_small; [lia|].
      unfold SIZE_MAX_plus_1. lia.
    + subst b1. cbn. rewrite Hnext, to_int32_small; lia.
    + exists b'. rewrite Hrun. cbn [mbind outcome_bind]. rewrite Hnext.
      split; [done|]. split; [done|]. split; [done|]. split; [done|].
      split; [|split; [|split]].
      * intros i Hi. destruct (decide (i = j)) as [->|Hne]; [|apply Htable'; lia].
        rewrite Htkeep by lia. subst b1. cbn. rewrite Hnext. apply lookup_insert_eq.
      * intros i Hi. destruct (decide (i = j)) as [->|Hne]; [|apply Hpages'; lia].
        rewrite Hpkeep by lia. subst b1. cbn. rewrite Nat2Z.id, Hnext.
        apply list_lookup_insert_eq. lia.
      * intros i Hi. rewrite Htkeep by lia. subst b1. cbn. rewrite Hnext.
        apply lookup_insert_ne. lia.
      * intros i Hi. rewrite Hpkeep by lia. subst b1. cbn. rewrite Nat2Z.id.
        apply list_lookup_insert_ne. lia.
Qed.

(** X16. A new pool of [n] frames serves exactly [n] calls of [NewPage]
    when nothing is unpinned: they return the frames [0] to [n - 1] in
    order, with the page ids [0] to [n - 1]; every page is resident in the
    frame of its number, zeroed, pinned once and clean, and the disk is not
    written. The pool is then exhausted: one more [NewPage], or [FetchPage]
    of any page that is not resident, returns a null pointer and changes
    nothing. *)
Theorem fresh_pool_fills_up n k disk :
  1 ≤ n < 2 ^ 31 → 1 ≤ k < SIZE_MAX_plus_1 →
  ∃ b',
    NewPage_times (Z.to_nat n) (BufferPoolManager.new n disk k)
    = Ok ((λ i : nat, (Some (Z.of_nat i), Z.of_nat i)) <$> seq 0 (Z.to_nat n), b') ∧
    (∀ i, 0 ≤ i < n →
          page_table_ b' !! i = Some i ∧
          page_at i b' = Ok (Page.mk Page.zeroes i 1 false ReaderWriterLatch.free)) ∧
    disk_ b' = disk ∧
    (∀ page_id0, NewPage page_id0 b' = Ok (None, page_id0, b')) ∧
    (∀ page_id, page_table_ b' !! page_id = None →
                FetchPage page_id b' = Ok (None, b')).
Proof.
  intros Hn Hk.
  destruct (NewPage_times_fill (Z.to_nat n) (Z.to_nat n) 0 (BufferPoolManager.new n disk k))
    as (b' & Hrun & Hfree & Hsize & Hdisk & Htable & Hpages & _ & _).
  - done.
  - lia.
  - done.
  - cbn. by rewrite length_replicate.
  - intros i Hi. cbn. apply lookup_replicate_2. lia.
  - by apply new_inv.
  - done.
  - cbn. lia.
  - done.
  - done.
  - exists b'. split; [done|]. split; [|split; [done|]].
    + intros i Hi. specialize (Htable (Z.to_nat i)). specialize (Hpages (Z.to_nat i)).
      rewrite Z2Nat.id in Htable, Hpages by lia.
      split; [apply Htable; lia|]. apply page_at_Ok. split; [lia|]. apply Hpages. lia.
    + pose proof (acquire_frame_none b' Hfree Hsize) as Ha. split.
      * intros page_id0. unfold NewPage. by rewrite Ha.
      * intros page_id Habsent. unfold FetchPage. by rewrite Habsent, Ha.
Qed.

Lemma fresh_pool_fills_up_witness :
  ∃ b',
    NewPage_times (Z.to_nat 3) (BufferPoolManager.new 3 ∅ 2)
    = Ok ((λ i : nat, (Some (Z.of_nat i), Z.of_nat i)) <$> seq 0 (Z.to_nat 3), b') ∧
    (∀ i, 0 ≤ i < 3 →
          page_table_ b' !! i = Some i ∧
          page_at i b' = Ok (Page.mk Page.zeroes i 1 false ReaderWriterLatch.free)) ∧
    disk_ b' = ∅ ∧
    (∀ page_id0, NewPage page_id0 b' = Ok (None, page_id0, b')) ∧
    (∀ page_id, page_table_ b' !! page_id = None →
                FetchPage page_id b' = Ok (None, b')).
Proof.
  apply (fresh_pool_fills_up 3 2 ∅).
  - lia.
  - unfold SIZE_MAX_plus_1. lia.
Defined.

Lemma modify_page_replacer i f b b' :
  modify_page i f b = Ok b' → replacer_ b' = replacer_ b.
Proof.
  unfold modify_page. destruct (page_at i b); [|done]. cbn. by intros [= <-].
Qed.

Lemma write_back_replacer f page_id b b' :
  write_back f page_id b = Ok b' → replacer_ b' = replacer_ b.
Proof.
  unfold write_back. destruct (page_at f b); [|done]. cbn. by intros [= <-].
Qed.

Lemma acquire_frame_inv b fo b1 :
  LRUKSpec.inv (replacer_ b) → acquire_frame b = Ok (fo, b1) →
  LRUKSpec.inv (replacer_ b1) ∧
  LRUKReplacer.current_timestamp_ (replacer_ b1)
  = LRUKReplacer.current_timestamp_ (replacer_ b) ∧
  LRUKReplacer.curr_size_ (replacer_ b1) ≤ LRUKReplacer.curr_size_ (replacer_ b).
Proof.
  intros Hinv Hrun. unfold acquire_frame in Hrun.
  assert (Htail : ∀ f b0 fo b1,
    (if bool_decide (f = INVALID_FRAME_ID) then Ok (None, b0)
     else p ← page_at f b0;
          if bool_decide (Page.page_id_ p ≠ INVALID_PAGE_ID) && Page.is_dirty_ p
          then b2 ← write_back f (Page.page_id_ p) b0;
               b3 ← modify_page f Page.ResetMemory b2; Ok (Some f, b3)
          else Ok (Some f, b0)) = Ok (fo, b1) →
    replacer_ b1 = replacer_ b0).
  { clear. intros f b0 fo b1 Hrun. case_bool_decide; [by injection Hrun as <- <-|].
    destruct (page_at f b0) as [p|]; [|done]. cbn in Hrun.
    destruct (_ && _); [|by injection Hrun as <- <-].
    destruct (write_back f _ b0) as [b2|] eqn:Hw; [|done]. cbn in Hrun.
    destruct (modify_page f _ b2) as [b3|] eqn:Hm; [|done]. cbn in Hrun.
    injection Hrun as <- <-.
    by rewrite (modify_page_replacer _ _ _ _ Hm), (write_back_replacer _ _ _ _ Hw). }
  destruct (free_list_ b) as [|f fl].
  - case_bool_decide as Hsize.
    + unfold LRUKReplacer.Evict in Hrun.
      destruct (LRUKReplacer.Evict_in _ _ _) as [[[res v] r]|] eqn:Hev; [|done].
      cbn in Hrun.
      destruct (page_at v (set_replacer r b)) as [p|]; [|done]. cbn in Hrun.
      apply Htail in Hrun. rewrite Hrun. cbn.
      split; [by eapply Evict_in_inv|].
      unfold LRUKReplacer.Evict_in in Hev. case_bool_decide.
      * injection Hev as <- <- <-. split; [done|lia].
      * destruct (LRUKReplacer.Evict_loop _ _ _) as [st|]; [|done]. cbn in Hev.
        destruct (LRUKReplacer.found st); injection Hev as <- <- <-; cbn; [|split; [done|lia]].
        split; [done|]. destruct Hinv as (_ & _ & Hsz & _).
        unfold LRUKReplacer.Size in Hsize.
        rewrite size_t_wrap_small by (unfold SIZE_MAX_plus_1 in *; lia). lia.
    + cbn in Hrun. apply Htail in Hrun. rewrite Hrun. split; [done|]. split; [done|lia].
  - cbn in Hrun. apply Htail in Hrun. rewrite Hrun. cbn. split; [done|]. split; [done|lia].
Qed.

Lemma install_inv page_id f b b' :
  LRUKSpec.inv (replacer_ b) →
  LRUKReplacer.current_timestamp_ (replacer_ b) + 1 < SIZE_MAX_plus_1 →
  LRUKReplacer.curr_size_ (replacer_ b) + 1 < SIZE_MAX_plus_1 →
  install page_id f b = Ok b' → LRUKSpec.inv (replacer_ b').
Proof.
  intros Hinv Hts Hsz Hrun. unfold install in Hrun.
  destruct (modify_page f _ _) as [b1|] eqn:H1; [|done]. cbn in Hrun.
  destruct (modify_page f _ b1) as [b2|] eqn:H2; [|done]. cbn in Hrun.
  destruct (modify_page f _ b2) as [b3|] eqn:H3; [|done]. cbn in Hrun.
  assert (Hr : replacer_ b3 = replacer_ b).
  { by rewrite (modify_page_replacer _ _ _ _ H3), (modify_page_replacer _ _ _ _ H2),
      (modify_page_replacer _ _ _ _ H1). }
  rewrite Hr in Hrun.
  destruct (LRUKReplacer.RecordAccess f (replacer_ b)) as [r1|] eqn:Hrec; [|done].
  cbn in Hrun.
  destruct (LRUKReplacer.SetEvictable f false r1) as [r2|] eqn:Hset; [|done].
  cbn in Hrun. injection Hrun as <-. cbn.
  pose proof (RecordAccess_inv _ _ _ Hinv Hts Hrec) as Hinv1.
  apply (SetEvictable_inv r1 f false r2 Hinv1); [|done].
  assert (Hf : f ≤ to_int32 (LRUKReplacer.replacer_size_ (replacer_ b))).
  { unfold LRUKReplacer.RecordAccess in Hrec. case_bool_decide; [done|lia]. }
  rewrite (RecordAccess_ok _ _ Hinv Hf) in Hrec. by injection Hrec as <-.
Qed.

(** X17. The pool keeps the invariant of its replacer ([Size] is the number
    of evictable frames, every access window is well formed): while the
    clock and the size counter have room, every call of [NewPage],
    [FetchPage], [UnpinPage] and [DeletePage] that returns leaves a replacer
    that satisfies the invariant again. *)
Theorem pool_keeps_replacer_invariant b :
  LRUKSpec.inv (replacer_ b) →
  LRUKReplacer.current_timestamp_ (replacer_ b) + 1 < SIZE_MAX_plus_1 →
  LRUKReplacer.curr_size_ (replacer_ b) + 1 < SIZE_MAX_plus_1 →
  (∀ page_id0 page page_id b',
     NewPage page_id0 b = Ok (page, page_id, b') → LRUKSpec.inv (replacer_ b')) ∧
  (∀ page_id page b',
     FetchPage page_id b = Ok (page, b') → LRUKSpec.inv (replacer_ b')) ∧
  (∀ page_id is_dirty res b',
     UnpinPage page_id is_dirty b = Ok (res, b') → LRUKSpec.inv (replacer_ b')) ∧
  (∀ page_id res b',
     DeletePage page_id b = Ok (res, b') → LRUKSpec.inv (replacer_ b')).
Proof.
  intros Hinv Hts Hsz. split; [|split; [|split]].
  - intros page_id0 page page_id b' Hrun. unfold NewPage in Hrun.
    destruct (acquire_frame b) as [[fo b1]|] eqn:Hacq; [|done]. cbn in Hrun.
    destruct (acquire_frame_inv b fo b1 Hinv Hacq) as (Hinv1 & Hts1 & Hsz1).
    destruct fo as [f|]; [|by injection Hrun as <- <- <-].
    cbn in Hrun.
    destruct (install _ f _) as [b2|] eqn:Hins; [|done]. cbn in Hrun.
    injection Hrun as <- <- <-.
    apply install_inv in Hins; [done|cbn..]; [done|lia|lia].
  - intros page_id page b' Hrun. unfold FetchPage in Hrun.
    destruct (page_table_ b !! page_id) as [f|].
    + destruct (LRUKReplacer.RecordAccess f (replacer_ b)) as [r1|] eqn:Hrec; [|done].
      cbn in Hrun.
      destruct (LRUKReplacer.SetEvictable f false r1) as [r2|] eqn:Hset; [|done].
      cbn in Hrun. injection Hrun as <- <-. cbn.
      pose proof (RecordAccess_inv _ _ _ Hinv Hts Hrec) as Hinv1.
      apply (SetEvictable_inv r1 f false r2 Hinv1); [|done].
      assert (Hf : f ≤ to_int32 (LRUKReplacer.replacer_size_ (replacer_ b))).
      { unfold LRUKReplacer.RecordAccess in Hrec. case_bool_decide; [done|lia]. }
      rewrite (RecordAccess_ok _ _ Hinv Hf) in Hrec. by injection Hrec as <-.
    + destruct (acquire_frame b) as [[fo b1]|] eqn:Hacq; [|done]. cbn in Hrun.
      destruct (acquire_frame_inv b fo b1 Hinv Hacq) as (Hinv1 & Hts1 & Hsz1).
      destruct fo as [f|]; [|by injection Hrun as <- <-].
      destruct (modify_page f _ b1) as [b2|] eqn:Hm; [|done]. cbn in Hrun.
      destruct (install _ f b2) as [b3|] eqn:Hins; [|done]. cbn in Hrun.
      injection Hrun as <- <-.
      pose proof (modify_page_replacer _ _ _ _ Hm) as Hr.
      apply install_inv in Hins; [done|rewrite Hr..]; [done|lia|lia].
  - intros page_id is_dirty res b' Hrun. unfold UnpinPage in Hrun.
    destruct (page_table_ b !! page_id) as [f|]; [|by injection Hrun as <- <-].
    destruct (page_at f b) as [p|]; [|done]. cbn in Hrun.
    case_bool_decide; [by injection Hrun as <- <-|].
    destruct (modify_page f _ b) as [b1|] eqn:H1; [|done]. cbn in Hrun.
    destruct (modify_page f _ b1) as [b2|] eqn:H2; [|done]. cbn in Hrun.
    assert (Hr : replacer_ b2 = replacer_ b).
    { by rewrite (modify_page_replacer _ _ _ _ H2), (modify_page_replacer _ _ _ _ H1). }
    destruct (page_at f b2) as [p2|]; [|done]. cbn in Hrun.
    case_bool_decide; [|injection Hrun as <- <-; by rewrite Hr].
    rewrite Hr in Hrun.
    destruct (LRUKReplacer.SetEvictable f true (replacer_ b)) as [r|] eqn:Hset; [|done].
    cbn in Hrun. injection Hrun as <- <-. cbn.
    by apply (SetEvictable_inv _ f true r Hinv).
  - intros page_id res b' Hrun. unfold DeletePage in Hrun.
    destruct (page_table_ b !! page_id) as [f|]; [|by injection Hrun as <- <-].
    destruct (page_at f b) as [p|]; [|done]. cbn in Hrun.
    case_bool_decide; [by injection Hrun as <- <-|].
    destruct (if Page.is_dirty_ p then _ else _) as [b1|] eqn:H1; [|done].
    cbn in Hrun.
    assert (Hr : replacer_ b1 = replacer_ b).
    { destruct (Page.is_dirty_ p); [by eapply write_back_replacer|by injection H1 as <-]. }
    rewrite Hr in Hrun.
    destruct (LRUKReplacer.Remove f (replacer_ b)) as [r|] eqn:Hrem; [|done].
    cbn in Hrun.
    destruct (modify_page f _ _) as [b2|] eqn:H2; [|done]. cbn in Hrun.
    destruct (modify_page f _ b2) as [b3|] eqn:H3; [|done]. cbn in Hrun.
    destruct (modify_page f _ b3) as [b4|] eqn:H4; [|done]. cbn in Hrun.
    destruct (modify_page f _ b4) as [b5|] eqn:H5; [|done]. cbn in Hrun.
    injection Hrun as <- <-. cbn.
    rewrite (modify_page_replacer _ _ _ _ H5), (modify_page_replacer _ _ _ _ H4),
      (modify_page_replacer _ _ _ _ H3), (modify_page_replacer _ _ _ _ H2).
    cbn. by eapply Remove_inv.
Qed.

Lemma pool_keeps_replacer_invariant_witness :
  (∀ page_id0 page page_id b',
     NewPage page_id0 dirty_single = Ok (page, page_id, b') →
     LRUKSpec.inv (replacer_ b')) ∧
  (∀ page_id page b',
     FetchPage page_id dirty_single = Ok (page, b') → LRUKSpec.inv (replacer_ b')) ∧
  (∀ page_id is_dirty res b',
     UnpinPage page_id is_dirty dirty_single = Ok (res, b') →
     LRUKSpec.inv (replacer_ b')) ∧
  (∀ page_id res b',
     DeletePage page_id dirty_single = Ok (res, b') → LRUKSpec.inv (replacer_ b')).
Proof.
  apply (pool_keeps_replacer_invariant dirty_single dirty_single_inv).
  - by vm_compute.
  - by vm_compute.
Defined.
End pool_more.

(** * Further properties of the page guards *)

Section guards_more.
Import BufferPoolManager BasicPageGuard BasicPageGuardMove BufferPoolManagerGuards.
Import Scenario PoolScenario.

Lemma Drop_holding g i p b :
  bpm_ g = true → page_ g = Some i → page_at i b = Ok p →
  Drop g b = ('(_, b') ← UnpinPage (Page.page_id_ p) (is_dirty_ g) b; Ok (Reset g, b')).
Proof.
  intros Hb Hg Hp. unfold Drop, GetPageId. rewrite Hb, Hg, Hp. cbn.
  destruct (UnpinPage _ _ _) as [[? ?]|]; done.
Qed.

(** X18. [Drop] on a guard of the pool that points at a frame unpins the
    page id that frame holds at the time of the drop, with the guard's dirty
    flag, ignores what [UnpinPage] returns and empties the guard; whenever
    [Drop] returns, a second [Drop] and the destructor leave the pool as it
    is. *)
Theorem Drop_unpins_once g i p b :
  bpm_ g = true → page_ g = Some i → page_at i b = Ok p →
  Drop g b = ('(_, b') ← UnpinPage (Page.page_id_ p) (is_dirty_ g) b; Ok (Reset g, b')) ∧
  ∀ g' b', Drop g b = Ok (g', b') →
           g' = Reset g ∧ Drop g' b' = Ok (g', b') ∧ destroy g' b' = Ok (g', b').
Proof.
  intros Hb Hg Hp. split; [by apply (Drop_holding g i p)|].
  intros g' b' Hrun. unfold Drop in Hrun.
  destruct (if bpm_ g && bool_decide (page_ g ≠ None) then _ else _); [|done].
  cbn in Hrun. by injection Hrun as <- <-.
Qed.

Lemma Drop_unpins_once_witness :
  Drop (make (Some 0)) fetched_pool
  = ('(_, b') ← UnpinPage 0 false fetched_pool; Ok (Reset (make (Some 0)), b')) ∧
  ∀ g' b', Drop (make (Some 0)) fetched_pool = Ok (g', b') →
           g' = Reset (make (Some 0)) ∧ Drop g' b' = Ok (g', b') ∧
           destroy g' b' = Ok (g', b').
Proof.
  apply (Drop_unpins_once (make (Some 0)) 0 (frame 0 fetched_pool) fetched_pool).
  - done.
  - done.
  - done.
Defined.

(** X19. Moving a basic guard hands the page over and empties the source,
    so that the page is released once: the move constructor copies the three
    fields, and a later [Drop] of the source does nothing; move assignment
    first releases what the target holds, exactly as [Drop] does, and then
    takes the source over. *)
Theorem move_hands_over this that b :
  (let '(g, that') := BasicPageGuardMove.move that in
   g = that ∧ that' = Reset that ∧ Drop that' b = Ok (that', b)) ∧
  BasicPageGuardMove.assign this that b
  = ('(_, b') ← Drop this b; Ok (that, Reset that, b')).
Proof.
  split; [by destruct that|].
  unfold BasicPageGuardMove.assign, Drop.
  destruct (if bpm_ this && bool_decide (page_ this ≠ None) then _ else _);
    cbn; by destruct that.
Qed.

(** X20. Read and write guards move alike: the move constructor hands the
    inner guard over without touching the pool or a latch and leaves the
    source empty; move assignment first drops what the target holds, latch
    and pin, exactly as its [Drop] does, and then takes the source over. *)
Theorem latched_guards_move this_r this_w that b :
  ReadPageGuard.move (ReadPageGuard.mk that) b
  = Ok (ReadPageGuard.mk that, ReadPageGuard.empty, b) ∧
  WritePageGuard.move (WritePageGuard.mk that) b
  = Ok (WritePageGuard.mk that, WritePageGuard.empty, b) ∧
  ReadPageGuard.assign this_r (ReadPageGuard.mk that) b
  = ('(_, b') ← ReadPageGuard.Drop this_r b;
     Ok (ReadPageGuard.mk that, ReadPageGuard.empty, b')) ∧
  WritePageGuard.assign this_w (WritePageGuard.mk that) b
  = ('(_, b') ← WritePageGuard.Drop this_w b;
     Ok (WritePageGuard.mk that, WritePageGuard.empty, b')).
Proof.
  split; [cbn; by destruct that|]. split; [cbn; by destruct that|]. split.
  - unfold ReadPageGuard.assign, ReadPageGuard.Drop.
    destruct (if bpm_ (ReadPageGuard.guard_ this_r) && _ then _ else _) as [[g b']|];
      cbn; by destruct that.
  - unfold WritePageGuard.assign, WritePageGuard.Drop.
    destruct (if bpm_ (WritePageGuard.guard_ this_w) && _ then _ else _) as [[g b']|];
      cbn; by destruct that.
Qed.

(** X21. A basic guard upgraded to a read guard and then dropped: when no
    writer holds the page's latch, [UpgradeRead] succeeds, and dropping the
    read guard gives the latch back and releases the page as a basic [Drop]
    with a clean flag does. The dirty flag of the basic guard is not carried
    over. *)
Theorem UpgradeRead_then_Drop g i p b :
  bpm_ g = true → page_ g = Some i → page_at i b = Ok p →
  ReaderWriterLatch.writer (Page.rwlatch_ p) = false →
  ∃ b1,
    UpgradeRead g b = Ok (mk true (Some i) false, Reset g, b1) ∧
    page_at i b1
    = Ok (Page.set_rwlatch
            (ReaderWriterLatch.mk (S (ReaderWriterLatch.readers (Page.rwlatch_ p))) false)
            p) ∧
    ReadPageGuard.Drop (ReadPageGuard.mk (mk true (Some i) false)) b1
    = ('(_, b') ← Drop (mk true (Some i) false) b; Ok (ReadPageGuard.empty, b')).
Proof.
  intros Hb Hg Hp Hw. pose proof Hp as [Hi Hl]%page_at_Ok.
  unfold UpgradeRead, RLatch. rewrite Hg, Hb, Hp. cbn.
  unfold ReaderWriterLatch.RLock. rewrite Hw. cbn.
  rewrite (modify_page_Ok _ _ _ p) by done. cbn.
  eexists. split; [done|]. split; [by apply (page_at_set_pages_insert i b p)|].
  unfold ReadPageGuard.Drop, RUnlatch. cbn.
  rewrite (modify_page_Ok _ _ _ (Page.set_rwlatch
             (ReaderWriterLatch.mk (S (ReaderWriterLatch.readers (Page.rwlatch_ p))) false) p))
    by by apply (page_at_set_pages_insert i b p).
  cbn. rewrite list_insert_insert_eq.
  replace (Page.set_rwlatch _ (Page.set_rwlatch _ p)) with p.
  2:{ destruct p as [? ? ? ? [? ?]]. cbn in *. by subst. }
  rewrite list_insert_id by done.
  replace (set_pages (pages_ b) (set_pages _ b)) with b by by destruct b.
  rewrite Hp. cbn. destruct (UnpinPage _ _ b) as [[? ?]|]; done.
Qed.

Lemma UpgradeRead_then_Drop_witness :
  ∃ b1,
    UpgradeRead (mk true (Some 0) true) fetched_pool
    = Ok (mk true (Some 0) false, Reset (mk true (Some 0) true), b1) ∧
    page_at 0 b1
    = Ok (Page.set_rwlatch (ReaderWriterLatch.mk 1 false) (frame 0 fetched_pool)) ∧
    ReadPageGuard.Drop (ReadPageGuard.mk (mk true (Some 0) false)) b1
    = ('(_, b') ← Drop (mk true (Some 0) false) fetched_pool;
       Ok (ReadPageGuard.empty, b')).
Proof.
  apply (UpgradeRead_then_Drop (mk true (Some 0) true) 0 (frame 0 fetched_pool)
           fetched_pool).
  - done.
  - done.
  - done.
  - done.
Defined.

(** X22. A basic guard upgraded to a write guard and then dropped: when the
    page's latch is free, [UpgradeWrite] succeeds and takes the latch
    exclusively, and dropping the write guard frees the latch and releases
    the page as a basic [Drop] with the dirty flag set does: the page is
    marked dirty whether or not it was written. With a reader or a writer on
    the latch, [UpgradeWrite] cannot proceed. *)
Theorem UpgradeWrite_then_Drop g i p b :
  bpm_ g = true → page_ g = Some i → page_at i b = Ok p →
  (Page.rwlatch_ p = ReaderWriterLatch.free →
   ∃ b1,
     UpgradeWrite g b = Ok (mk true (Some i) false, Reset g, b1) ∧
     page_at i b1 = Ok (Page.set_rwlatch (ReaderWriterLatch.mk 0 true) p) ∧
     WritePageGuard.Drop (WritePageGuard.mk (mk true (Some i) false)) b1
     = ('(_, b') ← Drop (mk true (Some i) true) b; Ok (WritePageGuard.empty, b'))) ∧
  (Page.rwlatch_ p ≠ ReaderWriterLatch.free → UpgradeWrite g b = Fail WouldBlock).
Proof.
  intros Hb Hg Hp. pose proof Hp as [Hi Hl]%page_at_Ok.
  unfold UpgradeWrite, WLatch. rewrite Hg, Hb, Hp. cbn. split.
  - intros Hfree. unfold ReaderWriterLatch.WLock. rewrite Hfree. cbn.
    rewrite bool_decide_eq_true_2 by done. cbn.
    rewrite (modify_page_Ok _ _ _ p) by done. cbn.
    eexists. split; [done|]. split; [by apply (page_at_set_pages_insert i b p)|].
    unfold WritePageGuard.Drop, WUnlatch. cbn.
    rewrite (modify_page_Ok _ _ _ (Page.set_rwlatch (ReaderWriterLatch.mk 0 true) p))
      by by apply (page_at_set_pages_insert i b p).
    cbn. rewrite list_insert_insert_eq.
    replace (Page.set_rwlatch _ (Page.set_rwlatch _ p)) with p.
    2:{ destruct p as [? ? ? ? [? ?]]. cbn in *. by injection Hfree as -> ->. }
    rewrite list_insert_id by done.
    replace (set_pages (pages_ b) (set_pages _ b)) with b by by destruct b.
    rewrite Hp. cbn. destruct (UnpinPage _ _ b) as [[? ?]|]; done.
  - intros Hbusy. unfold ReaderWriterLatch.WLock.
    destruct (Page.rwlatch_ p) as [n [|]]; cbn; [done|].
    case_bool_decide as Hn; [|done]. cbn in Hn. subst n. done.
Qed.

Lemma UpgradeWrite_then_Drop_witness :
  (Page.rwlatch_ (frame 0 fetched_pool) = ReaderWriterLatch.free →
   ∃ b1,
     UpgradeWrite (make (Some 0)) fetched_pool
     = Ok (mk true (Some 0) false, Reset (make (Some 0)), b1) ∧
     page_at 0 b1
     = Ok (Page.set_rwlatch (ReaderWriterLatch.mk 0 true) (frame 0 fetched_pool)) ∧
     WritePageGuard.Drop (WritePageGuard.mk (mk true (Some 0) false)) b1
     = ('(_, b') ← Drop (mk true (Some 0) true) fetched_pool;
        Ok (WritePageGuard.empty, b'))) ∧
  (Page.rwlatch_ (frame 0 fetched_pool) ≠ ReaderWriterLatch.free →
   UpgradeWrite (make (Some 0)) fetched_pool = Fail WouldBlock).
Proof.
  apply (UpgradeWrite_then_Drop (make (Some 0)) 0 (frame 0 fetched_pool) fetched_pool).
  - done.
  - done.
  - done.
Defined.

(** X23. When [FetchPage] returns a null pointer, [FetchPageBasic],
    [FetchPageRead] and [FetchPageWrite] take no latch and return a guard
    with a null page; likewise [NewPageGuarded] when [NewPage] does.
    Dropping or destroying such a guard dereferences nothing and leaves the
    pool alone. *)
Theorem guards_of_a_failed_fetch page_id b b1 :
  FetchPage page_id b = Ok (None, b1) →
  FetchPageBasic page_id b = Ok (make None, b1) ∧
  FetchPageRead page_id b = Ok (ReadPageGuard.new true None, b1) ∧
  FetchPageWrite page_id b = Ok (WritePageGuard.new true None, b1) ∧
  (∀ page_id0, NewPage page_id0 b = Ok (None, page_id0, b1) →
               NewPageGuarded page_id0 b = Ok (make None, page_id0, b1)) ∧
  Drop (make None) b1 = Ok (Reset (make None), b1) ∧
  ReadPageGuard.Drop (ReadPageGuard.new true None) b1 = Ok (ReadPageGuard.empty, b1) ∧
  WritePageGuard.Drop (WritePageGuard.new true None) b1 = Ok (WritePageGuard.empty, b1) ∧
  ReadPageGuard.destroy (ReadPageGuard.new true None) b1 = Ok (ReadPageGuard.empty, b1) ∧
  WritePageGuard.destroy (WritePageGuard.new true None) b1
  = Ok (WritePageGuard.empty, b1).
Proof.
  intros Hfetch. unfold FetchPageBasic, FetchPageRead, FetchPageWrite.
  rewrite Hfetch. cbn. repeat (split; [done|]).
  split; [|done]. intros page_id0 Hnew. unfold NewPageGuarded. by rewrite Hnew.
Qed.

(** A pool of one frame whose only page is pinned serves no other page. *)
Lemma guards_of_a_failed_fetch_witness :
  FetchPageBasic 1 fetched_pool = Ok (make None, fetched_pool) ∧
  FetchPageRead 1 fetched_pool = Ok (ReadPageGuard.new true None, fetched_pool) ∧
  FetchPageWrite 1 fetched_pool = Ok (WritePageGuard.new true None, fetched_pool) ∧
  (∀ page_id0, NewPage page_id0 fetched_pool = Ok (None, page_id0, fetched_pool) →
               NewPageGuarded page_id0 fetched_pool
               = Ok (make None, page_id0, fetched_pool)) ∧
  Drop (make None) fetched_pool = Ok (Reset (make None), fetched_pool) ∧
  ReadPageGuard.Drop (ReadPageGuard.new true None) fetched_pool
  = Ok (ReadPageGuard.empty, fetched_pool) ∧
  WritePageGuard.Drop (WritePageGuard.new true None) fetched_pool
  = Ok (WritePageGuard.empty, fetched_pool) ∧
  ReadPageGuard.destroy (ReadPageGuard.new true None) fetched_pool
  = Ok (ReadPageGuard.empty, fetched_pool) ∧
  WritePageGuard.destroy (WritePageGuard.new true None) fetched_pool
  = Ok (WritePageGuard.empty, fetched_pool).
Proof.
  apply (guards_of_a_failed_fetch 1 fetched_pool fetched_pool).
  by vm_compute.
Defined.
End guards_more.

(** * Further properties of the trie *)

Section trie_more.
Import Trie TrieSpec TrieScenario.
Local Open Scope nat_scope.

(** X24. [Put] is an update of one key: in the trie it returns, [Get<T>] of
    the key yields the new value when [T] is the value's type and nothing
    for any other [T], and [Get] of every other key yields what it yielded
    before; the returned trie is well formed again. *)
Theorem Put_updates_one_key key v tr h :
  trie_ok tr h →
  trie_ok (Put key v tr h).1 (Put key v tr h).2 ∧
  ∀ T k2, Get T k2 (Put key v tr h).1 (Put key v tr h).2
          = if decide (k2 = key)
            then (if decide (type_of v = T) then Some v else None)
            else Get T k2 tr h.
Proof.
  intros Hok. destruct (Put_spec key v tr h Hok) as (Hok1 & _ & Hput).
  split; [done|]. intros T k2. rewrite !Get_stored, Hput.
  by destruct (decide (k2 = key)).
Qed.

Lemma Put_updates_one_key_witness :
  trie_ok (Put key_a (V_uint64 5) trie_ab_ac.1 trie_ab_ac.2).1
          (Put key_a (V_uint64 5) trie_ab_ac.1 trie_ab_ac.2).2 ∧
  ∀ T k2, Get T k2 (Put key_a (V_uint64 5) trie_ab_ac.1 trie_ab_ac.2).1
                   (Put key_a (V_uint64 5) trie_ab_ac.1 trie_ab_ac.2).2
          = if decide (k2 = key_a)
            then (if decide (type_of (V_uint64 5) = T) then Some (V_uint64 5) else None)
            else Get T k2 trie_ab_ac.1 trie_ab_ac.2.
Proof.
  exact (Put_updates_one_key key_a (V_uint64 5) trie_ab_ac.1 trie_ab_ac.2
           trie_ab_ac_ok).
Defined.

(** X25. [Remove] is a removal of one key: in the trie it returns, [Get] of
    the key yields nothing and [Get] of every other key yields what it
    yielded before, whether or not pruning removed nodes; the returned trie
    is well formed again. *)
Theorem Remove_removes_one_key key tr h :
  trie_ok tr h →
  trie_ok (Remove key tr h).1 (Remove key tr h).2 ∧
  ∀ T k2, Get T k2 (Remove key tr h).1 (Remove key tr h).2
          = if decide (k2 = key) then None else Get T k2 tr h.
Proof.
  intros Hok. destruct (Remove_spec key tr h Hok) as (Hok1 & _ & Hrem).
  split; [done|]. intros T k2. rewrite !Get_stored, Hrem.
  by destruct (decide (k2 = key)).
Qed.

Lemma Remove_removes_one_key_witness :
  trie_ok (Remove key_ab trie_ab_ac.1 trie_ab_ac.2).1
          (Remove key_ab trie_ab_ac.1 trie_ab_ac.2).2 ∧
  ∀ T k2, Get T k2 (Remove key_ab trie_ab_ac.1 trie_ab_ac.2).1
                   (Remove key_ab trie_ab_ac.1 trie_ab_ac.2).2
          = if decide (k2 = key_ab) then None else Get T k2 trie_ab_ac.1 trie_ab_ac.2.
Proof.
  exact (Remove_removes_one_key key_ab trie_ab_ac.1 trie_ab_ac.2 trie_ab_ac_ok).
Defined.

(** X26. [Get<T>] only returns a value of type [T]: when it returns one,
    [Get] of the same key at any other type returns nothing. *)
Theorem Get_checks_the_type T key tr h v :
  Get T key tr h = Some v →
  type_of v = T ∧ ∀ T', T' ≠ T → Get T' key tr h = None.
Proof.
  intros HG. rewrite Get_stored in HG.
  destruct (stored key tr h) as [w|] eqn:Hs; [|done]. cbn in HG.
  unfold of_type in HG. destruct (decide (type_of w = T)) as [Hty|]; [|done].
  injection HG as ->. split; [done|].
  intros T' Hne. rewrite Get_stored, Hs. cbn. unfold of_type.
  rewrite decide_False; [done|congruence].
Qed.

Lemma Get_checks_the_type_witness :
  type_of (V_uint32 1) = T_uint32 ∧
  ∀ T', T' ≠ T_uint32 → Get T' key_ab trie_ab_ac.1 trie_ab_ac.2 = None.
Proof.
  apply (Get_checks_the_type T_uint32 key_ab trie_ab_ac.1 trie_ab_ac.2 (V_uint32 1)).
  by vm_compute.
Defined.

(** X27. Two [Put]s in a row: on the same key the second value wins, as if
    the first [Put] had not happened; on different keys the order does not
    matter. Both as seen through [Get], at every key and type. *)
Theorem Put_twice key1 v1 key2 v2 tr h :
  trie_ok tr h →
  let t1 := Put key1 v1 tr h in
  let t12 := Put key2 v2 t1.1 t1.2 in
  let t2 := Put key2 v2 tr h in
  let t21 := Put key1 v1 t2.1 t2.2 in
  (key1 = key2 → ∀ T k, Get T k t12.1 t12.2 = Get T k t2.1 t2.2) ∧
  (key1 ≠ key2 → ∀ T k, Get T k t12.1 t12.2 = Get T k t21.1 t21.2).
Proof.
  intros Hok t1 t12 t2 t21.
  destruct (Put_spec key1 v1 tr h Hok) as (Hok1 & _ & Hput1).
  destruct (Put_spec key2 v2 tr h Hok) as (Hok2 & _ & Hput2).
  destruct (Put_spec key2 v2 _ _ Hok1) as (_ & _ & Hput12).
  destruct (Put_spec key1 v1 _ _ Hok2) as (_ & _ & Hput21).
  split.
  - intros <- T k. subst t12 t2 t1. rewrite !Get_stored, Hput12, Hput1, Hput2.
    by destruct (decide (k = key1)).
  - intros Hne T k. subst t12 t21 t1 t2.
    rewrite !Get_stored, Hput12, Hput21, Hput1, Hput2.
    destruct (decide (k = key2)) as [->|]; [|done].
    by rewrite decide_False by done.
Qed.

Lemma Put_twice_witness :
  let t1 := Put key_a (V_uint32 1) trie_ab_ac.1 trie_ab_ac.2 in
  let t12 := Put key_ab (V_uint32 2) t1.1 t1.2 in
  let t2 := Put key_ab (V_uint32 2) trie_ab_ac.1 trie_ab_ac.2 in
  let t21 := Put key_a (V_uint32 1) t2.1 t2.2 in
  (key_a = key_ab → ∀ T k, Get T k t12.1 t12.2 = Get T k t2.1 t2.2) ∧
  (key_a ≠ key_ab → ∀ T k, Get T k t12.1 t12.2 = Get T k t21.1 t21.2).
Proof.
  exact (Put_twice key_a (V_uint32 1) key_ab (V_uint32 2) trie_ab_ac.1 trie_ab_ac.2
           trie_ab_ac_ok).
Defined.

(** X28. [Put] and [Remove] undo each other, as seen through [Get] at every
    key and type: removing a key right after putting it gives back the
    content of a trie that did not map the key, and putting back the value
    a key had right after removing the key gives back the content of the
    trie. *)
Theorem Put_Remove_undo key v tr h :
  trie_ok tr h →
  ((∀ T, Get T key tr h = None) →
   ∀ T k, Get T k (Remove key (Put key v tr h).1 (Put key v tr h).2).1
                  (Remove key (Put key v tr h).1 (Put key v tr h).2).2
          = Get T k tr h) ∧
  (Get (type_of v) key tr h = Some v →
   ∀ T k, Get T k (Put key v (Remove key tr h).1 (Remove key tr h).2).1
                  (Put key v (Remove key tr h).1 (Remove key tr h).2).2
          = Get T k tr h).
Proof.
  intros Hok.
  destruct (Put_spec key v tr h Hok) as (Hok1 & _ & Hput).
  destruct (Remove_spec key tr h Hok) as (Hok2 & _ & Hrem).
  destruct (Remove_spec key _ _ Hok1) as (_ & _ & Hrem1).
  destruct (Put_spec key v _ _ Hok2) as (_ & _ & Hput2).
  split.
  - intros Hfree%stored_None_iff T k. rewrite !Get_stored, Hrem1, Hput.
    destruct (decide (k = key)) as [->|]; [by rewrite Hfree|done].
  - intros Hv T k. rewrite Get_stored in Hv.
    destruct (stored key tr h) as [w|] eqn:Hs; [|done]. cbn in Hv.
    unfold of_type in Hv. destruct (decide (type_of w = type_of v)); [|done].
    injection Hv as ->. rewrite !Get_stored, Hput2, Hrem.
    destruct (decide (k = key)) as [->|]; [by rewrite Hs|done].
Qed.

Lemma Put_Remove_undo_witness :
  ((∀ T, Get T key_a trie_ab_ac.1 trie_ab_ac.2 = None) →
   ∀ T k, Get T k (Remove key_a (Put key_a (V_uint32 9) trie_ab_ac.1 trie_ab_ac.2).1
                                (Put key_a (V_uint32 9) trie_ab_ac.1 trie_ab_ac.2).2).1
                  (Remove key_a (Put key_a (V_uint32 9) trie_ab_ac.1 trie_ab_ac.2).1
                                (Put key_a (V_uint32 9) trie_ab_ac.1 trie_ab_ac.2).2).2
          = Get T k trie_ab_ac.1 trie_ab_ac.2) ∧
  (Get (type_of (V_uint32 9)) key_a trie_ab_ac.1 trie_ab_ac.2 = Some (V_uint32 9) →
   ∀ T k, Get T k (Put key_a (V_uint32 9) (Remove key_a trie_ab_ac.1 trie_ab_ac.2).1
                                          (Remove key_a trie_ab_ac.1 trie_ab_ac.2).2).1
                  (Put key_a (V_uint32 9) (Remove key_a trie_ab_ac.1 trie_ab_ac.2).1
                                          (Remove key_a trie_ab_ac.1 trie_ab_ac.2).2).2
          = Get T k trie_ab_ac.1 trie_ab_ac.2).
Proof.
  exact (Put_Remove_undo key_a (V_uint32 9) trie_ab_ac.1 trie_ab_ac.2 trie_ab_ac_ok).
Defined.

Lemma Put_loop_prefix v key : ∀ cur nxt h n0,
  n0 ≤ nxt < length h →
  take n0 (Put_loop v key cur nxt h) = take n0 h ∧
  length (Put_loop v key cur nxt h) = length h + length key.
Proof.
  induction key as [|c rest IH]; intros cur nxt h n0 Hnxt.
  - cbn. split; [done|lia].
  - rewrite Put_loop_cons.
    set (h2 := alter _ nxt (h ++ _)).
    assert (Hlen2 : length h2 = S (length h)).
    { subst h2. rewrite length_alter, length_app. cbn. lia. }
    destruct (IH (child_of h cur c) (length h) h2 n0) as [Htake Hlen]; [lia|].
    rewrite Htake, Hlen, Hlen2. split; [|cbn; lia].
    subst h2. rewrite take_alter_ge by lia. apply take_app_le. lia.
Qed.

Lemma Remove_copy_prefix key : ∀ cur child h n0,
  n0 ≤ child → n0 ≤ length h →
  take n0 (Remove_copy key cur child h).1 = take n0 h ∧
  length (Remove_copy key cur child h).1
  = length h + length (Remove_copy key cur child h).2 ∧
  length (Remove_copy key cur child h).2 ≤ length key ∧
  Forall (λ s, n0 ≤ s) (Remove_copy key cur child h).2.
Proof.
  induction key as [|c rest IH]; intros cur child h n0 Hchild Hn0.
  - cbn. split; [done|]. split; [lia|]. split; [lia|done].
  - rewrite Remove_copy_cons.
    destruct (children_ (deref h cur) !! c) as [cur'|]; cycle 1.
    { cbn. split; [done|]. split; [lia|]. split; [lia|done]. }
    cbv zeta. cbn [fst snd].
    set (h2 := alter _ child (h ++ _)).
    assert (Hlen2 : length h2 = S (length h)).
    { subst h2. rewrite length_alter, length_app. cbn. lia. }
    destruct (IH cur' (length h) h2 n0) as (Htake & Hlen & Hle & Hall); [lia|lia|].
    rewrite Htake, Hlen, Hlen2. split; [|split; [cbn; lia|split; [cbn; lia|]]].
    + subst h2. rewrite take_alter_ge by lia. apply take_app_le. lia.
    + by apply Forall_cons.
Qed.

Lemma Remove_prune_prefix n0 path : ∀ h,
  Forall (λ it : nat * ascii, n0 ≤ it.1) path →
  take n0 (Remove_prune path h) = take n0 h.
Proof.
  induction path as [|[s c] path IH]; intros h Hall; [done|].
  apply Forall_cons in Hall as [Hs Hall]. cbn in Hs. cbn [Remove_prune].
  destruct (children_ (deref h s) !! c) as [x|]; [|done].
  case_bool_decide; [|done].
  destruct (is_value_node_ (deref h x)); [done|].
  rewrite IH by done. by apply take_alter_ge.
Qed.

Lemma prefix_split (h h' : heap) n :
  take (length h) h' = h → length h' = length h + n →
  ∃ new, h' = h ++ new ∧ length new = n.
Proof.
  intros Htake Hlen. exists (drop (length h) h'). split.
  - by rewrite <-Htake at 1; rewrite take_drop.
  - rewrite length_drop. lia.
Qed.

(** X29. [Put] and [Remove] copy on write: no node that existed before the
    call is modified, the new nodes come after them in the store. [Put]
    creates one node for the root and one per character of the key, and its
    trie's root is the first of them; [Remove] creates at most as many. *)
Theorem Put_Remove_copy_on_write key v tr h :
  (∃ new, (Put key v tr h).2 = h ++ new ∧ length new = S (length key) ∧
          root_ (Put key v tr h).1 = Some (length h)) ∧
  (∃ new, (Remove key tr h).2 = h ++ new ∧ length new ≤ S (length key)).
Proof.
  split.
  - destruct key as [|c rest].
    + unfold Put, alloc. cbn. by eexists.
    + unfold Put, alloc. cbn [fst snd].
      set (n := match root_ tr with Some l => _ | None => _ end).
      destruct (Put_loop_prefix v (c :: rest) (root_ tr) (length h) (h ++ [n])
                  (length h)) as [Htake Hlen].
      { rewrite length_app. cbn. lia. }
      rewrite take_app_length in Htake.
      destruct (prefix_split h (Put_loop v (c :: rest) (root_ tr) (length h) (h ++ [n]))
                  (S (length (c :: rest)))) as (new & Hnew & Hlnew).
      { done. }
      { rewrite Hlen, length_app. cbn. lia. }
      exists new. by rewrite Hnew.
  - destruct (root_ tr) as [l|] eqn:Hroot; cycle 1.
    { exists []. unfold Remove. rewrite Hroot, app_nil_r.
      split; [by destruct key|cbn; lia]. }
    destruct key as [|c rest].
    { unfold Remove, alloc. rewrite Hroot. cbn. eexists. split; [done|]. cbn. lia. }
    rewrite (Remove_cons c rest tr h l Hroot). cbv zeta.
    case_bool_decide as Hsize.
    { exists []. rewrite app_nil_r. split; [done|cbn; lia]. }
    destruct (Remove_copy_prefix (c :: rest) l (length h) (h ++ [Clone (deref h l)])
                (length h)) as (Htake & Hlen & Hle & Hall).
    { done. }
    { rewrite length_app. lia. }
    set (r := Remove_copy _ _ _ _) in *.
    set (h3 := Remove_prune _ r.1).
    assert (Htake3 : take (length h) h3 = h).
    { subst h3. rewrite Remove_prune_prefix.
      - by rewrite Htake, take_app_length.
      - apply Forall_forall. intros [s c'] Hin. cbn.
        apply elem_of_reverse, elem_of_zip_l in Hin.
        apply elem_of_cons in Hin as [->|Hin]; [done|].
        by apply (proj1 (Forall_forall _ _) Hall). }
    assert (Hlen3 : length h3 = length h + S (length r.2)).
    { subst h3. rewrite Remove_prune_length, Hlen, length_app. cbn. lia. }
    destruct (prefix_split h h3 (S (length r.2)) Htake3 Hlen3) as (new & Hnew & Hlnew).
    exists new. split; [|lia].
    by destruct (_ && _).
Qed.
End trie_more.
